(** * sqltyper: statement validation, code generation and pipeline glue

    A shallow embedding of the TypeScript sources of sqltyper
    ([codegen.ts], [index.ts], [clients.ts], [cli.ts] and the generated
    catalog query [sql/tableColumns.ts]) together with the properties the
    design document states about them.

    Conventions.
    - A JavaScript string is a [string]: a sequence of code units compared
      unit by unit.  Every character the code inspects ([$], digits, the
      separators it emits) is ASCII.
    - [Either.left] / [Either.right] of fp-ts are [inl] / [inr].
    - A [Task<A>] is a computation over the outside world (the database
      connection, the file system): a function [W -> A * W].  Where it
      matters that a promise can be rejected, a task answers a [Settled A].
    - A [Set<string>] keeps its elements in insertion order, so it is a
      duplicate-free list; a [Map<number, _>] that is only ever looked up
      is a [gmap]. *)

From Stdlib Require Import ZArith Ascii String.
From stdpp Require Import gmap strings list sorting pretty.

Local Open Scope string_scope.
Local Open Scope list_scope.
Local Open Scope Z_scope.

(** ** fp-ts: Either, Task, TaskEither *)

Module Either.
Definition Either (E A : Type) : Type := (E + A)%type.
Definition left {E A} (e : E) : Either E A := inl e.
Definition right {E A} (a : A) : Either E A := inr a.
Definition isLeft {E A} (x : Either E A) : bool :=
  match x with inl _ => true | inr _ => false end.
Definition isRight {E A} (x : Either E A) : bool :=
  match x with inl _ => false | inr _ => true end.
End Either.

Module Task.
Section Defs.
Context {W : Type}.

Definition Task (A : Type) : Type := W -> A * W.

(** [Task.of]. *)
Definition of_ {A} (a : A) : Task A := fun w => (a, w).

Definition map {A B} (f : A -> B) (t : Task A) : Task B :=
  fun w => let '(a, w1) := t w in (f a, w1).

Definition chain {A B} (f : A -> Task B) (t : Task A) : Task B :=
  fun w => let '(a, w1) := t w in f a w1.

(** [pipe(tf, Task.ap(ta))].  fp-ts starts both tasks at once; here the
    task of the function is run first, then the task of its argument. *)
Definition ap {A B} (ta : Task A) (tf : Task (A -> B)) : Task B :=
  fun w => let '(f, w1) := tf w in let '(a, w2) := ta w1 in (f a, w2).

(** [traverseATs] of fp-utils: the tasks run one after the other, in
    array order. *)
Fixpoint traverseATs {A B} (xs : list A) (f : A -> Task B)
  : Task (list B) :=
  match xs with
  | [] => of_ []
  | x :: rest =>
      fun w =>
        let '(b, w1) := f x w in
        let '(bs, w2) := traverseATs rest f w1 in
        (b :: bs, w2)
  end.
End Defs.
Arguments Task : clear implicits.
End Task.

Module TaskEither.
Import Either.
Section Defs.
Context {W : Type}.

Definition TaskEither (E A : Type) : Type := Task.Task W (Either E A).

Definition right {E A} (a : A) : TaskEither E A := Task.of_ (inr a).
Definition left {E A} (e : E) : TaskEither E A := Task.of_ (inl e).

Definition rightTask {E A} (t : Task.Task W A) : TaskEither E A :=
  Task.map inr t.

Definition map {E A B} (f : A -> B) (t : TaskEither E A)
  : TaskEither E B :=
  Task.map (fun x => match x with inl e => inl e | inr a => inr (f a) end) t.

(** A [Left] skips the continuation: [f] is not called at all. *)
Definition chain {E A B} (f : A -> TaskEither E B) (t : TaskEither E A)
  : TaskEither E B :=
  fun w =>
    match t w with
    | (inl e, w1) => (inl e, w1)
    | (inr a, w1) => f a w1
    end.
End Defs.
Arguments TaskEither : clear implicits.
End TaskEither.

(** ** The statement description ([types.ts]) *)

(** Modelled from the spec: [types.ts] is not part of the sources at hand;
    the spec's data model gives [TypeRef] as a type identifier, [NamedValue]
    as a name with its type and nullability, and [StatementDescription] as
    the SQL text with its parameters, its columns and a cardinality class.
    The fields are the ones [codegen.ts] reads. *)
Record TypeRef : Type := { oid : Z }.

Record NamedValue : Type :=
  { name : string; type : TypeRef; nullable : bool }.

Inductive RowCount : Type := zero | one | zeroOrOne | many.

Record StatementDescription : Type :=
  { sql : string;
    params : list NamedValue;
    columns : list NamedValue;
    rowCount : RowCount }.

(** ** JavaScript built-ins used by the code *)

(** [Set<string>]: insertion-ordered, without duplicates. *)
Module JSSet.
Definition t : Type := list string.
Definition empty : t := [].
Definition has (x : string) (s : t) : bool := bool_decide (x ∈ s).
Definition add (x : string) (s : t) : t := if has x s then s else s ++ [x].
Definition size (s : t) : nat := length s.
Definition values (s : t) : list string := s.
End JSSet.

(** [Array.prototype.sort()] without a comparator orders strings by their
    code units. *)
Definition sort (l : list string) : list string := merge_sort String.le l.

(** [Array.prototype.join]. *)
Definition join (sep : string) (l : list string) : string :=
  String.concat sep l.

(** ** [codegen.ts]: validateStatement *)

Definition validateStatement_step
    (acc : JSSet.t * JSSet.t) (c : NamedValue) : JSSet.t * JSSet.t :=
  let '(columnNames, conflicts) := acc in
  if JSSet.has (name c) columnNames
  then (columnNames, JSSet.add (name c) conflicts)
  else (JSSet.add (name c) columnNames, conflicts).

Definition validateStatement (stmt : StatementDescription)
  : Either.Either string StatementDescription :=
  let '(_, conflicts) :=
    foldl validateStatement_step (JSSet.empty, JSSet.empty) (columns stmt) in
  if (0 <? JSSet.size conflicts)%nat then
    let dup := join ", " (sort (JSSet.values conflicts)) in
    Either.left ("Duplicate output columns: " +:+ dup)
  else Either.right stmt.

(** ** [codegen.ts]: code generation *)

Inductive CodegenTarget : Type := pg | postgres.

Definition codegenTargets : list CodegenTarget := [pg; postgres].

Definition is_postgres (target : CodegenTarget) : bool :=
  match target with postgres => true | pg => false end.

(** Modelled from the spec: [tstype.ts] is not part of the sources at hand.
    A transform is the caller-supplied override of the spec's data model
    (target type, serialize function name, optional import); the fields
    carry the names [codegen.ts] reads. *)
Module Transform.
Record t : Type :=
  { tsType : string; serializeFunc : string; import : option string }.
End Transform.

(** What [TypeClient.columnType] resolves a column to. *)
Module Column.
Record t : Type := { name : string; type : string }.
End Column.

(** Modelled from the spec: the [TypeClient] interface of [tstype.ts], with
    the five methods [codegen.ts] and [clients.ts] call.  [getTransforms]
    lists the registered transforms in the map's iteration order. *)
Record TypeClient {W : Type} : Type :=
  { tsType : TypeRef -> bool -> Task.Task W string;
    columnType : NamedValue -> Task.Task W Column.t;
    getTransforms : list (Z * Transform.t);
    getTransform : Z -> option Transform.t;
    isArray : Z -> bool }.
Arguments TypeClient : clear implicits.

Definition is_digit (c : ascii) : bool :=
  let n := N_of_ascii c in ((48 <=? n) && (n <=? 57))%N.

Definition starts_with_digit (s : string) : bool :=
  match s with
  | String c _ => is_digit c
  | EmptyString => false
  end.

(** [!!s.match(/\$\d+/)]: somewhere in [s] a [$] is followed by a digit. *)
Fixpoint matches_dollar_digits (s : string) : bool :=
  match s with
  | EmptyString => false
  | String c rest =>
      (Ascii.eqb c "$" && starts_with_digit rest) || matches_dollar_digits rest
  end.

(** [str.replace(c, by)] with a string pattern: the first occurrence only. *)
Fixpoint replace_first (c : ascii) (by_ : string) (s : string) : string :=
  match s with
  | EmptyString => EmptyString
  | String d rest =>
      if Ascii.eqb d c then by_ +:+ rest
      else String d (replace_first c by_ rest)
  end.

Definition stringLiteral (str : string) : string :=
  "'" +:+ replace_first "'" "\'" (replace_first "\" "\\" str) +:+ "'".

Definition hasOnlyPositionalParams (stmt : StatementDescription) : bool :=
  forallb (fun param => matches_dollar_digits (name param)) (params stmt).

Definition isEmpty {A} (l : list A) : bool :=
  match l with [] => true | _ :: _ => false end.

(** [Arr.uniq(Eq.eqString)]: the first occurrence of every string. *)
Fixpoint uniq (l : list string) : list string :=
  match l with
  | [] => []
  | x :: rest => x :: filter (fun y => y <> x) (uniq rest)
  end.

Record GeneratorOptions : Type :=
  { sourceFileName : string;
    module : string;
    funcName : string;
    params_ : string;
    returnType : string;
    sql_ : string;
    queryValues_ : list string;
    outputValue_ : string;
    extraImports_ : list string;
    serializeFuncs_ : list string }.

Section Codegen.
Context {W : Type}.
Implicit Types (types : TypeClient W) (stmt : StatementDescription).

Definition columnType_ types (column : NamedValue) : Task.Task W string :=
  Task.map
    (fun c => stringLiteral (Column.name c) +:+ ": " +:+ Column.type c)
    (columnType types column).

Definition funcReturnType types stmt : Task.Task W string :=
  Task.map
    (fun columnTypes =>
       let rowType := "{ " +:+ join "; " columnTypes +:+ " }" in
       match rowCount stmt with
       | zero => "number"
       | one => rowType
       | zeroOrOne => rowType +:+ " | null"
       | many => "Array<" +:+ rowType +:+ ">"
       end)
    (Task.traverseATs (columns stmt) (columnType_ types)).

Definition outputValue (target : CodegenTarget) stmt : string :=
  let '(rows, count) :=
    match target with
    | pg => ("result.rows", "result.rowCount")
    | postgres => ("result", "result.count")
    end in
  match rowCount stmt with
  | zero => count
  | one => rows +:+ "[0]"
  | zeroOrOne => count +:+ " > 0 ? " +:+ rows +:+ "[0] : null"
  | many => rows
  end.

Definition extraImports types : list string :=
  uniq (omap (fun '(_, transform) =>
                match Transform.import transform with
                | Some i => if String.eqb i EmptyString then None else Some i
                | None => None
                end)
             (getTransforms types)).

Definition serializeFuncs types : list string :=
  uniq (List.map
          (fun '(_, transform) =>
             Transform.serializeFunc transform +:+ ": (_: "
             +:+ Transform.tsType transform +:+ ") => string")
          (getTransforms types)).

Definition positionalFuncParams types stmt : Task.Task W string :=
  Task.map
    (fun params => join ", " params)
    (Task.traverseATs (params stmt)
       (fun param =>
          Task.map (fun tsType => name param +:+ ": " +:+ tsType)
                   (tsType types (type param) (nullable param)))).

Definition namedFuncParams types stmt : Task.Task W string :=
  Task.map (fun params => "params: { " +:+ params +:+ " }")
           (positionalFuncParams types stmt).

Definition funcParams types stmt (positionalOnly : bool)
  : Task.Task W string :=
  if isEmpty (params stmt) then Task.of_ EmptyString
  else
    Task.map (fun params => ", " +:+ params)
      (if positionalOnly then positionalFuncParams types stmt
       else namedFuncParams types stmt).

Definition queryValues types stmt
    (positionalOnly encodeArray serializeFunctionOnConnection : bool)
  : list string :=
  if isEmpty (params stmt) then []
  else
    let prefix := if positionalOnly then EmptyString else "params." in
    List.map
      (fun param =>
         let p := prefix +:+ name param in
         let transform := getTransform types (oid (type param)) in
         let pWithTransform :=
           match transform with
           | Some transform =>
               p +:+ " && "
               +:+ (if serializeFunctionOnConnection then "sql.types." else EmptyString)
               +:+ Transform.serializeFunc transform +:+ "(" +:+ p +:+ ")"
           | None => p
           end in
         if encodeArray && isArray types (oid (type param))
         then "sql.array(" +:+ pWithTransform +:+ ")"
         else pWithTransform)
      (params stmt).

(** The two generators are string templates over the options record; they
    are a parameter here. *)
Variable generators : CodegenTarget -> GeneratorOptions -> string.

Definition typeScriptString
    (sourceFileName : string) (target : CodegenTarget)
    (module funcName sql : string)
    (params returnType : string) (queryValues : list string)
    (outputValue : string) (extraImports serializeFuncs : list string)
  : string :=
  generators target
    {| sourceFileName := sourceFileName; module := module;
       funcName := funcName; sql_ := sql; params_ := params;
       returnType := returnType; queryValues_ := queryValues;
       outputValue_ := outputValue; extraImports_ := extraImports;
       serializeFuncs_ := serializeFuncs |}.

Definition generateTypeScript types
    (sourceFileName : string) (target : CodegenTarget)
    (module funcName : string) stmt : Task.Task W string :=
  let positionalOnly := hasOnlyPositionalParams stmt in
  Task.ap (Task.of_ (serializeFuncs types))
    (Task.ap (Task.of_ (extraImports types))
      (Task.ap (Task.of_ (outputValue target stmt))
        (Task.ap
           (Task.of_
              (queryValues types stmt positionalOnly
                 (is_postgres target) (is_postgres target)))
           (Task.ap (funcReturnType types stmt)
              (Task.ap (funcParams types stmt positionalOnly)
                 (Task.of_
                    (typeScriptString sourceFileName target module
                       funcName (sql stmt)))))))).
End Codegen.

(** ** [Warn.ts]: the warnings accumulator *)

(** Modelled from the spec: [Warn.ts] is not part of the sources at hand
    (only its callers are).  Following the spec, a [Warn<T>] pairs a value
    with an ordered sequence of diagnostic strings; [pure] attaches no
    diagnostic, [map] changes the value only, the binary combinator [map2]
    merges the diagnostics of its two arguments in the order the
    sub-analyses were performed, and [split] hands back the bare value and
    the diagnostics. *)
Module Warn.
Record Warn (T : Type) : Type :=
  { payload : T; warnings : list string }.
Arguments payload {T} _.
Arguments warnings {T} _.
Arguments Build_Warn {T} _ _.

Definition pure {T} (value : T) : Warn T :=
  {| payload := value; warnings := [] |}.

Definition warn {T} (value : T) (diagnostic : string) : Warn T :=
  {| payload := value; warnings := [diagnostic] |}.

Definition map {A B} (f : A -> B) (w : Warn A) : Warn B :=
  {| payload := f (payload w); warnings := warnings w |}.

Definition map2 {A B C} (f : A -> B -> C) (wa : Warn A) (wb : Warn B)
  : Warn C :=
  {| payload := f (payload wa) (payload wb);
     warnings := warnings wa ++ warnings wb |}.

Definition split {T} (w : Warn T) : T * list string :=
  (payload w, warnings w).

(** The analyses of a list of sub-expressions, combined from left to
    right. *)
Fixpoint sequence {T} (ws : list (Warn T)) : Warn (list T) :=
  match ws with
  | [] => pure []
  | w :: rest => map2 cons w (sequence rest)
  end.
End Warn.

(** ** [clients.ts] *)

Module Clients.
Section Defs.
Context {W Sql SchemaClient : Type}.

Record Clients : Type :=
  { postgres : Sql; schema : SchemaClient; types : TypeClient W }.

(** [schemaClient] of [schema.ts] and [typeClient] of [tstype.ts] are
    not part of the sources at hand: they are parameters. *)
Variable schemaClient : Sql -> SchemaClient.
Variable typeClient :
  list (Z * Transform.t) -> Sql -> Task.Task W (TypeClient W).

Definition clients (transforms : list (Z * Transform.t))
    (postgresClient : Sql) : Task.Task W Clients :=
  fun w =>
    let schema := schemaClient postgresClient in
    let '(types, w1) := typeClient transforms postgresClient w in
    ({| postgres := postgresClient; schema := schema; types := types |},
     w1).

(** [{ ...clients, types }]: every field of [clients] is copied, then
    [types] is overwritten. *)
Definition clearCache (clients : Clients) : Task.Task W Clients :=
  fun w =>
    let '(types', w1) :=
      typeClient (getTransforms (types clients)) (postgres clients) w in
    ({| postgres := postgres clients;
        schema := schema clients;
        types := types' |}, w1).
End Defs.
Arguments Clients : clear implicits.
End Clients.

(** ** [index.ts]: the analysis pipeline *)

(** What the preprocessor hands to the describer. *)
Module Processed.
Record t : Type := { sql : string; paramNames : list string }.
End Processed.

Section Pipeline.
Context {W Sql SchemaClient : Type}.

(** [preprocess.ts], [describe.ts] and [infer.ts] are not part of the
    sources at hand: the three stages are parameters, with the types
    [index.ts] uses them at. *)
Variable preprocessSQL : string -> Either.Either string Processed.t.
Variable describeStatement :
  Sql -> string -> list string ->
  TaskEither.TaskEither W string StatementDescription.
Variable inferStatementNullability :
  SchemaClient -> StatementDescription ->
  Task.Task W (Warn.Warn StatementDescription).

Definition sqlToStatementDescription
    (clients : Clients.Clients W Sql SchemaClient) (sql : string)
  : TaskEither.TaskEither W string (Warn.Warn StatementDescription) :=
  TaskEither.chain
    (fun stmt =>
       TaskEither.rightTask
         (inferStatementNullability (Clients.schema clients) stmt))
    (TaskEither.chain
       (fun stmt => Task.of_ (validateStatement stmt))
       (TaskEither.chain
          (fun processed =>
             describeStatement (Clients.postgres clients)
               (Processed.sql processed) (Processed.paramNames processed))
          (Task.map preprocessSQL (Task.of_ sql)))).
End Pipeline.

(** ** [sql/tableColumns.ts]: the catalog attribute query *)

(** The three system catalogs the query reads, with the columns it uses. *)
Module pg_catalog.
Record pg_attribute : Type :=
  { attrelid : Z;
    attnum : Z;
    attname : string;
    atttypid : Z;
    attnotnull : bool;
    atthasdef : bool;
    attisdropped : bool }.

Record pg_class : Type :=
  { cls_oid : Z; relname : string; relnamespace : Z; relkind : ascii }.

Record pg_namespace : Type := { nsp_oid : Z; nspname : string }.

Record t : Type :=
  { pg_attribute_rows : list pg_attribute;
    pg_class_rows : list pg_class;
    pg_namespace_rows : list pg_namespace }.
End pg_catalog.

(** A row of the result. *)
Record TableColumn : Type :=
  { attnum : Z;
    attname : string;
    atttypid : Z;
    attnotnull : bool;
    atthasdef : bool;
    attisdropped : bool }.

(** The select list. *)
Definition select_list (attr : pg_catalog.pg_attribute) : TableColumn :=
  {| attnum := pg_catalog.attnum attr;
     attname := pg_catalog.attname attr;
     atttypid := pg_catalog.atttypid attr;
     attnotnull := pg_catalog.attnotnull attr;
     atthasdef := pg_catalog.atthasdef attr;
     attisdropped := pg_catalog.attisdropped attr |}.

(** The two [ON] conditions. *)
Definition join_on (attr : pg_catalog.pg_attribute)
    (cls : pg_catalog.pg_class) (nsp : pg_catalog.pg_namespace) : bool :=
  (pg_catalog.attrelid attr =? pg_catalog.cls_oid cls)
  && (pg_catalog.nsp_oid nsp =? pg_catalog.relnamespace cls).

(** [$1] and [$2] are compared with columns of type [name], so the server
    reads them as values of that type: a text is cut to its first 63 bytes
    ([NAMEDATALEN - 1]) in the encoding of the database, taken to be UTF-8,
    and never inside a character.  The code units of a [string] are below
    256: one byte each below 128, two bytes each from 128 on. *)
Definition utf8_bytes (c : ascii) : nat :=
  if (N_of_ascii c <? 128)%N then 1%nat else 2%nat.

Fixpoint name_clip (room : nat) (s : string) : string :=
  match s with
  | EmptyString => EmptyString
  | String c rest =>
      if (utf8_bytes c <=? room)%nat
      then String c (name_clip (room - utf8_bytes c) rest)
      else EmptyString
  end.

Definition name_in (s : string) : string := name_clip 63 s.

(** The [WHERE] clause, with [$1] and [$2] bound. *)
Definition where_clause (schemaName tableName : string)
    (cls : pg_catalog.pg_class) (nsp : pg_catalog.pg_namespace) : bool :=
  (Ascii.eqb (pg_catalog.relkind cls) "r"
   || Ascii.eqb (pg_catalog.relkind cls) "v")
  && String.eqb (pg_catalog.nspname nsp) (name_in schemaName)
  && String.eqb (pg_catalog.relname cls) (name_in tableName).

(** [FROM attr JOIN cls ON .. JOIN nsp ON .. WHERE ..]: the rows of the
    three-way join that pass the filter, projected on the select list. *)
Definition tableColumns_from_where (db : pg_catalog.t)
    (schemaName tableName : string) : list TableColumn :=
  attr ← pg_catalog.pg_attribute_rows db;
  cls ← pg_catalog.pg_class_rows db;
  nsp ← pg_catalog.pg_namespace_rows db;
  if join_on attr cls nsp && where_clause schemaName tableName cls nsp
  then [select_list attr] else [].

Definition attnum_le (r1 r2 : TableColumn) : Prop := attnum r1 <= attnum r2.

#[global] Instance attnum_le_dec : RelDecision attnum_le.
Proof. intros r1 r2. unfold attnum_le. apply _. Defined.

(** [ORDER BY attnum].  SQL leaves the order of rows with equal keys open;
    the sort used here keeps one of the admissible orders. *)
Definition order_by_attnum (rows : list TableColumn) : list TableColumn :=
  merge_sort attnum_le rows.

Definition tableColumns_sql (db : pg_catalog.t)
    (schemaName tableName : string) : list TableColumn :=
  order_by_attnum (tableColumns_from_where db schemaName tableName).

Module TableColumnsParams.
Record t : Type := { schemaName : string; tableName : string }.
End TableColumnsParams.

Section TableColumns.
(** The world holds the catalog the connection [sql] talks to. *)
Context {W Sql : Type} (catalog_of : Sql -> W -> pg_catalog.t).

(** [sql.unsafe(query, [params.schemaName, params.tableName])]: a read. *)
Definition tableColumns (sql : Sql) (params : TableColumnsParams.t)
  : Task.Task W (list TableColumn) :=
  fun w =>
    (tableColumns_sql (catalog_of sql w)
       (TableColumnsParams.schemaName params)
       (TableColumnsParams.tableName params), w).
End TableColumns.

(** ** [cli.ts]: loading the transform configuration *)

(** What [JSON.parse] returns.  JavaScript numbers are doubles; the
    development is parametric in their representation [Num].  The
    properties of an object are listed in the order [for .. in] visits
    them. *)
Module JS.
#[local] Set Warnings "-register-all".
Inductive JSON {Num : Type} : Type :=
| JNull
| JBool (b : bool)
| JNum (n : Num)
| JStr (s : string)
| JArr (items : list JSON)
| JObj (props : list (string * JSON)).
Arguments JSON : clear implicits.

Section Defs.
Context {Num : Type}.
(** [ToBoolean] on numbers: false for zero and NaN. *)
Variable num_truthy : Num -> bool.

Definition typeof (v : JSON Num) : string :=
  match v with
  | JNull => "object"
  | JBool _ => "boolean"
  | JNum _ => "number"
  | JStr _ => "string"
  | JArr _ => "object"
  | JObj _ => "object"
  end.

(** [ToBoolean]. *)
Definition truthy (v : JSON Num) : bool :=
  match v with
  | JNull => false
  | JBool b => b
  | JNum n => num_truthy n
  | JStr s => negb (String.eqb s EmptyString)
  | JArr _ => true
  | JObj _ => true
  end.

(** The enumerable properties: those of an object, the indices of an
    array, none for [null]. *)
Definition ownProps (v : JSON Num) : list (string * JSON Num) :=
  match v with
  | JObj props => props
  | JArr items => imap (fun i x => (pretty i, x)) items
  | _ => []
  end.

Fixpoint assoc {A} (key : string) (props : list (string * A))
  : option A :=
  match props with
  | [] => None
  | (k, x) :: rest => if String.eqb k key then Some x else assoc key rest
  end.

(** [for (var key in v)]. *)
Definition keys (v : JSON Num) : list string := fst <$> ownProps v.

(** [v[key]] for a key that is no built-in property name; [None] is
    [undefined]. *)
Definition get (v : JSON Num) (key : string) : option (JSON Num) :=
  assoc key (ownProps v).

(** [ToBoolean] of a value that may be [undefined]. *)
Definition truthy_opt (v : option (JSON Num)) : bool :=
  match v with Some v => truthy v | None => false end.
End Defs.
End JS.

Module Cli.
Section GetTransforms.
Import JS.
Context {Num : Type} `{Countable Num}.
Variable num_truthy : Num -> bool.
(** [parseInt(key)], NaN included. *)
Variable parseInt : string -> Num.

(** [val && val.tsType && val.serializeFunc]. *)
Definition entry_ok (val : option (JSON Num)) : bool :=
  match val with
  | None => false
  | Some v =>
      truthy num_truthy v
      && truthy_opt num_truthy (get v "tsType")
      && truthy_opt num_truthy (get v "serializeFunc")
  end.

(** The body of the [for .. in] loop, over the keys still to visit. *)
Fixpoint getTransforms_loop (transforms : JSON Num) (keys : list string)
    (map : gmap Num (JSON Num))
  : Either.Either string (gmap Num (JSON Num)) :=
  match keys with
  | [] => Either.right map
  | key :: rest =>
      let val := get transforms key in
      match val with
      | Some v =>
          if entry_ok val
          then getTransforms_loop transforms rest (<[parseInt key := v]> map)
          else Either.left "Invalid transforms structure"
      | None => Either.left "Invalid transforms structure"
      end
  end.

(** [getTransforms] from the parsed contents on. *)
Definition getTransforms_parsed (transforms : JSON Num)
  : Either.Either string (gmap Num (JSON Num)) :=
  if String.eqb (typeof transforms) "object"
  then getTransforms_loop transforms (keys transforms) ∅
  else Either.left "Invalid transforms structure, should be an object".

Context {W : Type}.
(** [fs.readFile] and [JSON.parse]; both may throw. *)
Variable readFile : string -> Task.Task W (Either.Either string string).
Variable JSON_parse : string -> Either.Either string (JSON Num).

(** A thrown error (a rejected promise) is a [Left]. *)
Definition getTransforms (filepath : string)
  : Task.Task W (Either.Either string (gmap Num (JSON Num))) :=
  fun w =>
    match readFile filepath w with
    | (inl err, w1) => (inl err, w1)
    | (inr contents, w1) =>
        match JSON_parse contents with
        | inl err => (inl err, w1)
        | inr transforms => (getTransforms_parsed transforms, w1)
        end
    end.
End GetTransforms.
End Cli.

(** A representation of the numbers [parseInt] returns: an integer, or
    [None] for NaN.  It is exact for the integers a double holds exactly
    (below 2^53 in magnitude), which covers every type identifier. *)
Module IntNum.
Definition t : Type := option Z.

Definition truthy (n : t) : bool :=
  match n with Some z => negb (z =? 0) | None => false end.

Definition is_space (c : ascii) : bool :=
  let n := N_of_ascii c in (((9 <=? n) && (n <=? 13)) || (n =? 32))%N.

Fixpoint trim_start (s : string) : string :=
  match s with
  | String c rest => if is_space c then trim_start rest else s
  | EmptyString => s
  end.

Definition digit_value (radix : Z) (c : ascii) : option Z :=
  let n := Z.of_N (N_of_ascii c) in
  let v :=
    if (48 <=? n) && (n <=? 57) then Some (n - 48)
    else if (97 <=? n) && (n <=? 122) then Some (n - 87)
    else if (65 <=? n) && (n <=? 90) then Some (n - 55)
    else None in
  match v with
  | Some d => if d <? radix then Some d else None
  | None => None
  end.

(** The longest prefix of digits, most significant first. *)
Fixpoint digits (radix : Z) (s : string) (acc : option Z) : option Z :=
  match s with
  | String c rest =>
      match digit_value radix c with
      | Some d =>
          digits radix rest
            (Some (match acc with Some a => a * radix + d | None => d end))
      | None => acc
      end
  | EmptyString => acc
  end.

Definition parseInt (s : string) : t :=
  let s := trim_start s in
  let '(sign, s) :=
    match s with
    | String "-" rest => (-1, rest)
    | String "+" rest => (1, rest)
    | _ => (1, s)
    end in
  let '(radix, s) :=
    match s with
    | String "0" (String "x" rest) => (16, rest)
    | String "0" (String "X" rest) => (16, rest)
    | _ => (10, s)
    end in
  (fun z => sign * z) <$> digits radix s None.
End IntNum.

(** ** [preprocess.ts]: named parameters to positional placeholders *)

(** Modelled from the spec: [preprocess.ts] is not part of the sources at
    hand.  Following section 4.1 of the spec, a named placeholder is the
    marker character [:] followed by an identifier; markers inside quoted
    literals, quoted identifiers and comments are left alone; a marker that
    no identifier follows is a malformed name token and fails the
    statement; every distinct name gets one position number, in order of
    first appearance, and a repeated name reuses its number. *)
Module Preprocess.
Inductive Segment : Type :=
| Chr (c : ascii)
| Param (name : string).

Inductive Mode : Type :=
| Code
| SingleQuoted
| DoubleQuoted
| LineComment
| BlockOpen
| Block
| BlockClose
| Name (buf : string).

Definition is_letter (c : ascii) : bool :=
  let n := N_of_ascii c in
  (((65 <=? n) && (n <=? 90)) || ((97 <=? n) && (n <=? 122)))%N.

Definition ident_start (c : ascii) : bool :=
  is_letter c || Ascii.eqb c "_".

Definition ident_char (c : ascii) : bool :=
  ident_start c || is_digit c.

Definition double_quote : ascii := "034".

Definition peek (s : string) : option ascii :=
  match s with String c _ => Some c | EmptyString => None end.

Definition next_is (next : option ascii) (c : ascii) : bool :=
  match next with Some d => Ascii.eqb d c | None => false end.

(** One character of SQL proper, looking one character ahead. *)
Definition code_step (c : ascii) (next : option ascii)
  : Either.Either string (list Segment * Mode) :=
  if Ascii.eqb c ":" then
    match next with
    | Some d =>
        if ident_start d then inr ([], Name EmptyString)
        else inl "Malformed parameter name"
    | None => inl "Malformed parameter name"
    end
  else if Ascii.eqb c "'" then inr ([Chr c], SingleQuoted)
  else if Ascii.eqb c double_quote then inr ([Chr c], DoubleQuoted)
  else if Ascii.eqb c "-" && next_is next "-" then inr ([Chr c], LineComment)
  else if Ascii.eqb c "/" && next_is next "*" then inr ([Chr c], BlockOpen)
  else inr ([Chr c], Code).

Definition step (mode : Mode) (c : ascii) (next : option ascii)
  : Either.Either string (list Segment * Mode) :=
  match mode with
  | Code => code_step c next
  | SingleQuoted =>
      inr ([Chr c], if Ascii.eqb c "'" then Code else SingleQuoted)
  | DoubleQuoted =>
      inr ([Chr c], if Ascii.eqb c double_quote then Code else DoubleQuoted)
  | LineComment =>
      inr ([Chr c], if Ascii.eqb c "010" then Code else LineComment)
  | BlockOpen => inr ([Chr c], Block)
  | Block =>
      inr ([Chr c],
           if Ascii.eqb c "*" && next_is next "/" then BlockClose else Block)
  | BlockClose => inr ([Chr c], Code)
  | Name buf =>
      if ident_char c then inr ([], Name (buf +:+ String c EmptyString))
      else
        match code_step c next with
        | inl e => inl e
        | inr (segs, mode') => inr (Param buf :: segs, mode')
        end
  end.

Definition finish (mode : Mode) : list Segment :=
  match mode with Name buf => [Param buf] | _ => [] end.

Fixpoint tokenize_from (mode : Mode) (s : string)
  : Either.Either string (list Segment) :=
  match s with
  | EmptyString => inr (finish mode)
  | String c rest =>
      match step mode c (peek rest) with
      | inl e => inl e
      | inr (segs, mode') =>
          match tokenize_from mode' rest with
          | inl e => inl e
          | inr more => inr (segs ++ more)
          end
      end
  end.

Definition tokenize (s : string) : Either.Either string (list Segment) :=
  tokenize_from Code s.

Fixpoint index_of (n : string) (names : list string) : option nat :=
  match names with
  | [] => None
  | m :: rest =>
      if String.eqb m n then Some 0%nat else S <$> index_of n rest
  end.

(** The numbering pass: the text produced so far and the names that
    already have a position. *)
Definition number_step (st : string * list string) (seg : Segment)
  : string * list string :=
  let '(out, names) := st in
  match seg with
  | Chr c => (out +:+ String c EmptyString, names)
  | Param n =>
      match index_of n names with
      | Some i => (out +:+ "$" +:+ pretty (S i), names)
      | None => (out +:+ "$" +:+ pretty (S (length names)), names ++ [n])
      end
  end.

Definition preprocessSQL (sql : string)
  : Either.Either string Processed.t :=
  match tokenize sql with
  | inl e => inl e
  | inr segs =>
      let '(out, names) := foldl number_step (EmptyString, []) segs in
      inr {| Processed.sql := out; Processed.paramNames := names |}
  end.

(** The names of the placeholders of a statement, one per occurrence. *)
Definition occurrences (segs : list Segment) : list string :=
  omap (fun seg => match seg with Param n => Some n | Chr _ => None end)
       segs.

(** What an occurrence is replaced by, given the final numbering. *)
Definition render (names : list string) (seg : Segment) : string :=
  match seg with
  | Chr c => String c EmptyString
  | Param n =>
      match index_of n names with
      | Some i => "$" +:+ pretty (S i)
      | None => EmptyString
      end
  end.
End Preprocess.

(** ** The expressions [queryValues] emits, and what they evaluate to *)

(** The emitted text is JavaScript source.  [Emitted.Expr] is the syntax
    tree of the three forms [queryValues] writes (a reference to a
    parameter, a guard [l && r], a call [f(arg)]), [print] writes a tree
    back as text, and [eval] is JavaScript's evaluation of it: the value,
    and the calls made on the way, in order. *)
Module Emitted.
Inductive Expr : Type :=
| Ref (path : string)
| And (l r : Expr)
| Call (f : string) (arg : Expr).

Fixpoint print (e : Expr) : string :=
  match e with
  | Ref path => path
  | And l r => print l +:+ " && " +:+ print r
  | Call f arg => f +:+ "(" +:+ print arg +:+ ")"
  end.

Section Eval.
Context {V : Type}.
Variable truthy : V -> bool.
Variable env : string -> V.
Variable call : string -> V -> V.

Fixpoint eval (e : Expr) : V * list (string * V) :=
  match e with
  | Ref path => (env path, [])
  | And l r =>
      let '(v, calls) := eval l in
      if truthy v
      then let '(v', calls') := eval r in (v', calls ++ calls')
      else (v, calls)
  | Call f arg =>
      let '(v, calls) := eval arg in
      (call f v, calls ++ [(f, v)])
  end.
End Eval.
End Emitted.

(** ** [schema.ts]: the catalog client's cache *)

(** Modelled from the spec: [schema.ts] is not part of the sources at hand.
    Following the spec's data model, the catalog client keeps, per
    (schema, table), a map from column name to its NOT NULL and default
    flags; it is filled on the first reference to a table and kept for the
    connection's lifetime; a table absent from the catalog is "not found"
    and is not cached. *)
Module SchemaModel.
Record ColumnFacts : Type := { notNull : bool; hasDefault : bool }.

Record SchemaClient : Type :=
  { cache : gmap (string * string) (gmap string ColumnFacts) }.

Definition schemaClient {Sql : Type} (postgresClient : Sql) : SchemaClient :=
  {| cache := ∅ |}.

Definition facts_of_rows (rows : list TableColumn)
  : gmap string ColumnFacts :=
  list_to_map
    ((fun r => (attname r,
                {| notNull := attnotnull r; hasDefault := atthasdef r |}))
       <$> rows).

Definition getTable (client : SchemaClient) (db : pg_catalog.t)
    (schemaName tableName : string)
  : option (gmap string ColumnFacts) * SchemaClient :=
  match cache client !! (schemaName, tableName) with
  | Some facts => (Some facts, client)
  | None =>
      let rows := tableColumns_sql db schemaName tableName in
      if isEmpty rows then (None, client)
      else
        let facts := facts_of_rows rows in
        (Some facts,
         {| cache := <[(schemaName, tableName) := facts]> (cache client) |})
  end.
End SchemaModel.

(** ** [cli.ts]: the modules of a directory *)

Module TsModule.
Record t : Type :=
  { sqlFileName : string; tsFileName : string; funcName : string }.
End TsModule.

Module TsModuleDir.
#[local] Set Warnings "-register-all".
Inductive t : Type :=
  Build { dirPath : string;
          nestedDirs : list t;
          modules : list TsModule.t;
          hasErrors : bool }.
End TsModuleDir.

(** [Array.prototype.findIndex]: the index of the first element that
    satisfies [pred], or -1. *)
Fixpoint findIndex_from {A} (pred : A -> bool) (l : list A) (i : Z) : Z :=
  match l with
  | [] => -1
  | x :: rest => if pred x then i else findIndex_from pred rest (i + 1)
  end.

Definition findIndex {A} (pred : A -> bool) (l : list A) : Z :=
  findIndex_from pred l 0.

(** [Option.fromNullable] on a number: a number is never [null]. *)
Definition fromNullable (index : Z) : option Z := Some index.

(** [Array.modifyAt] of fp-ts: [None] when the index is out of bounds. *)
Definition modifyAt {A} (i : Z) (f : A -> A) (l : list A)
  : option (list A) :=
  if (i <? 0) || (Z.of_nat (length l) <=? i) then None
  else
    match l !! Z.to_nat i with
    | Some a => Some (<[Z.to_nat i := f a]> l)
    | None => None
    end.

(** The callback given to [modifyAt] reads [where[index]], which is the
    element [modifyAt] hands to it. *)
Definition modifyWhere {A} (pred : A -> bool) (replacer : A -> A)
    (where_ : list A) : option (list A) :=
  fromNullable (findIndex pred where_)
  ≫= fun index => modifyAt index (fun found => replacer found) where_.

(** [Array.snoc]. *)
Definition snoc {A} (l : list A) (x : A) : list A := l ++ [x].

Definition replaceOrAddTsModule (tsModule : TsModule.t)
    (tsModules : list TsModule.t) : list TsModule.t :=
  match
    modifyWhere
      (fun mod_ =>
         String.eqb (TsModule.sqlFileName mod_) (TsModule.sqlFileName tsModule))
      (fun _ => tsModule) tsModules
  with
  | Some modified => modified
  | None => snoc tsModules tsModule
  end.

Definition removeTsModule (sqlFileName : string)
    (tsModules : list TsModule.t) : list TsModule.t :=
  List.filter
    (fun mod_ => negb (String.eqb (TsModule.sqlFileName mod_) sqlFileName))
    tsModules.

Definition checkDirectoryResult {W} (tsModules : list (option TsModule.t))
  : Task.Task W bool :=
  Task.of_
    (forallb (fun m => match m with Some _ => true | None => false end)
       tsModules).

Fixpoint moduleDirContainsSqlFiles (dir : TsModuleDir.t) : bool :=
  match dir with
  | TsModuleDir.Build _ nestedDirs modules _ =>
      (0 <? length modules)%nat || existsb moduleDirContainsSqlFiles nestedDirs
  end.

(** [as.map(f).filter(isNotNull)]. *)
Definition mapPartial {A B} (l : list A) (f : A -> option B) : list B :=
  omap (fun x => x) (List.map f l).

(** [String.prototype.split] on a one-character separator: the pieces
    between the separators, of which there is always at least one. *)
Fixpoint split (sep : ascii) (s : string) : list string :=
  match s with
  | EmptyString => [EmptyString]
  | String c rest =>
      if Ascii.eqb c sep then EmptyString :: split sep rest
      else
        match split sep rest with
        | piece :: pieces => String c piece :: pieces
        | [] => [String c EmptyString]
        end
  end.

Definition extensions (e : string) : list string :=
  List.map (fun ext => "." +:+ ext) (split "," e).

(** ** The process's world: files, console, and the rest *)

(** What the command-line tool acts on: the readable files by path, the
    lines written to the console, and everything else (the database
    connection, the formatter), which only the analysis and the code
    generation talk to.  [fs.readFile] and [fs.unlink] throw on a missing
    file: they answer [None] then.  [fs.writeFile] is taken to succeed. *)
Module Node.
Inductive ConsoleMethod : Type := log | warn | error.

Record World {E : Type} : Type :=
  { files : gmap string string;
    console : list (ConsoleMethod * string);
    outside : E }.
Arguments World : clear implicits.

Section Defs.
Context {E : Type}.

Definition readFile (path : string) : Task.Task (World E) (option string) :=
  fun w => (files w !! path, w).

Definition writeFile (path data : string) : Task.Task (World E) unit :=
  fun w =>
    (tt, {| files := <[path := data]> (files w);
            console := console w;
            outside := outside w |}).

Definition unlink (path : string) : Task.Task (World E) (option unit) :=
  fun w =>
    match files w !! path with
    | Some _ =>
        (Some tt, {| files := delete path (files w);
                     console := console w;
                     outside := outside w |})
    | None => (None, w)
    end.

Definition print (method : ConsoleMethod) (line : string)
  : Task.Task (World E) unit :=
  fun w =>
    (tt, {| files := files w;
            console := console w ++ [(method, line)];
            outside := outside w |}).

(** A task that talks to the rest of the world only. *)
Definition on_outside {A} (t : Task.Task E A) : Task.Task (World E) A :=
  fun w =>
    let '(a, e) := t (outside w) in
    (a, {| files := files w; console := console w; outside := e |}).
End Defs.
End Node.

(** What settles a promise that may be rejected. *)
Inductive Settled (A : Type) : Type :=
| Rejected
| Fulfilled (value : A).
Arguments Rejected {A}.
Arguments Fulfilled {A} _.

(** ** [index.ts]: the pipeline when a stage may throw *)

(** A [Task] whose promise may be rejected, and fp-ts on such tasks: the
    continuation of a rejected promise is not run, and nothing in
    [Task.map], [Task.chain], [TaskEither.chain] or [TaskEither.rightTask]
    catches a rejection.  [Task] above is the case in which no promise is
    rejected. *)
Module Rejecting.
Section Defs.
Context {W : Type}.

Definition Task (A : Type) : Type := W -> Settled A * W.

Definition of_ {A} (a : A) : Task A := fun w => (Fulfilled a, w).

(** A task that is never rejected. *)
Definition total {A} (t : Task.Task W A) : Task A :=
  fun w => let '(a, w1) := t w in (Fulfilled a, w1).

Definition map {A B} (f : A -> B) (t : Task A) : Task B :=
  fun w =>
    match t w with
    | (Fulfilled a, w1) => (Fulfilled (f a), w1)
    | (Rejected, w1) => (Rejected, w1)
    end.

Definition chain {A B} (f : A -> Task B) (t : Task A) : Task B :=
  fun w =>
    match t w with
    | (Fulfilled a, w1) => f a w1
    | (Rejected, w1) => (Rejected, w1)
    end.

Definition TaskEither (E A : Type) : Type := Task (Either.Either E A).

Definition rightTask {E A} (t : Task A) : TaskEither E A := map inr t.

(** A [Left] skips the continuation, and so does a rejection. *)
Definition TaskEither_chain {E A B} (f : A -> TaskEither E B)
    (t : TaskEither E A) : TaskEither E B :=
  chain (fun x => match x with inl e => of_ (inl e) | inr a => f a end) t.

Context {Sql SchemaClient : Type}.
Variable preprocessSQL : string -> Either.Either string Processed.t.
Variable describeStatement :
  Sql -> string -> list string -> TaskEither string StatementDescription.
Variable inferStatementNullability :
  SchemaClient -> StatementDescription ->
  Task (Warn.Warn StatementDescription).

Definition sqlToStatementDescription
    (clients : Clients.Clients W Sql SchemaClient) (sql : string)
  : TaskEither string (Warn.Warn StatementDescription) :=
  TaskEither_chain
    (fun stmt =>
       rightTask (inferStatementNullability (Clients.schema clients) stmt))
    (TaskEither_chain
       (fun stmt => of_ (validateStatement stmt))
       (TaskEither_chain
          (fun processed =>
             describeStatement (Clients.postgres clients)
               (Processed.sql processed) (Processed.paramNames processed))
          (map preprocessSQL (of_ sql)))).
End Defs.
Arguments Task : clear implicits.
Arguments TaskEither : clear implicits.
End Rejecting.

(** ** [codegen.ts] and [index.ts]: the index module and the code of a file *)

(** [path.parse]. *)
Module ParsedPath.
Record t : Type :=
  { root : string; dir : string; base : string; ext : string; name : string }.
End ParsedPath.

(** The argument of [path.format]; [base: undefined] is [None]. *)
Module FormatInput.
Record t : Type :=
  { root : string;
    dir : string;
    base : option string;
    ext : string;
    name : string }.
End FormatInput.

Module TSCodeOptions.
Record t : Type :=
  { prettierFileName : option string;
    target : option CodegenTarget;
    module : option string }.
End TSCodeOptions.

Module Options.
Record t : Type :=
  { verbose : bool;
    index : bool;
    prettify : bool;
    target : CodegenTarget;
    module : string;
    terminalColumns : option nat }.
End Options.

Definition Option_fromEither {E A} (x : Either.Either E A) : option A :=
  match x with inl _ => None | inr a => Some a end.

Definition TaskEither_orElse {W E1 E2 A}
    (onLeft : E1 -> TaskEither.TaskEither W E2 A)
    (t : TaskEither.TaskEither W E1 A) : TaskEither.TaskEither W E2 A :=
  fun w =>
    match t w with
    | (inl e, w1) => onLeft e w1
    | (inr a, w1) => (inr a, w1)
    end.

Section IndexModule.
(** Node's [path.relative] and [path.parse]. *)
Variable path_relative : string -> string -> string.
Variable path_parse : string -> ParsedPath.t.

Definition baseNameWithoutExt (filePath : string) : string :=
  ParsedPath.name (path_parse filePath).

Definition newline : string := String "010" EmptyString.

Definition generateIndexModule (dirPath : string)
    (nestedDirs : list TsModuleDir.t) (modules : list TsModule.t) : string :=
  let nestedDirsStr :=
    join newline
      (List.map
         (fun dir =>
            let name := path_relative dirPath (TsModuleDir.dirPath dir) in
            "export * as " +:+ name +:+ " from './" +:+ name +:+ "';")
         nestedDirs) in
  let modulesStr :=
    join newline
      (List.map
         (fun m =>
            "export { " +:+ TsModule.funcName m +:+ " } from './"
            +:+ baseNameWithoutExt (TsModule.tsFileName m) +:+ "';")
         modules) in
  nestedDirsStr +:+ newline +:+ modulesStr.

Context {W : Type}.
(** [runPrettier] of [prettify.ts]. *)
Variable runPrettier : string -> string -> Task.Task W string.

Definition indexModuleTS (dirPath : string)
    (nestedDirs : list TsModuleDir.t) (tsModules : list TsModule.t)
    (prettierFileName : option string) : Task.Task W string :=
  Task.chain
    (fun tsCode =>
       match prettierFileName with
       | Some fileName => runPrettier fileName tsCode
       | None => Task.of_ tsCode
       end)
    (Task.of_ (generateIndexModule dirPath nestedDirs tsModules)).

Context {Sql SchemaClient : Type}.
Variable generators : CodegenTarget -> GeneratorOptions -> string.

Definition generateTSCode (clients : Clients.Clients W Sql SchemaClient)
    (sourceFileName : string) (stmt : StatementDescription)
    (funcName : string) (options : option TSCodeOptions.t)
  : TaskEither.TaskEither W string string :=
  let prettierFileName := options ≫= TSCodeOptions.prettierFileName in
  let target := default pg (options ≫= TSCodeOptions.target) in
  let module := default "pg" (options ≫= TSCodeOptions.module) in
  TaskEither.chain
    (fun tsCode =>
       match prettierFileName with
       | Some fileName =>
           TaskEither.rightTask (runPrettier fileName tsCode)
       | None => TaskEither.right tsCode
       end)
    (TaskEither.chain
       (fun stmt =>
          TaskEither.rightTask
            (generateTypeScript generators (Clients.types clients)
               sourceFileName target module funcName stmt))
       (TaskEither.right stmt)).
End IndexModule.

(** ** [codegen.ts]: the two generators *)

(** [String.prototype.replace] with a global regular expression that is a
    literal text without capture groups.  [expand] is the substitution of
    the replacement text for one match: [$$] is a dollar, [$&] the matched
    text, [$`] the text before the match, [$'] the text after it; any
    other [$] stands for itself.  [replace_go] walks the subject from left
    to right, replacing every match and resuming right behind it. *)
Module JSReplace.
Fixpoint starts_with (pat s : string) : bool :=
  match pat, s with
  | EmptyString, _ => true
  | String a pat', String b s' => Ascii.eqb a b && starts_with pat' s'
  | String _ _, EmptyString => false
  end.

Fixpoint drop_chars (n : nat) (s : string) : string :=
  match n, s with
  | O, _ => s
  | S n', String _ s' => drop_chars n' s'
  | S _, EmptyString => EmptyString
  end.

Fixpoint expand (template matched before after : string) : string :=
  match template with
  | EmptyString => EmptyString
  | String a tail =>
      match tail with
      | String c rest =>
          if Ascii.eqb a "$" then
            if Ascii.eqb c "$"
            then String "$" (expand rest matched before after)
            else if Ascii.eqb c "&"
            then matched +:+ expand rest matched before after
            else if Ascii.eqb c "`"
            then before +:+ expand rest matched before after
            else if Ascii.eqb c "'"
            then after +:+ expand rest matched before after
            else String a (expand tail matched before after)
          else String a (expand tail matched before after)
      | EmptyString => String a EmptyString
      end
  end.

Fixpoint replace_go (pat template before : string) (skip : nat)
    (s : string) : string :=
  match s with
  | EmptyString => EmptyString
  | String c rest =>
      match skip with
      | S skip' =>
          replace_go pat template (before +:+ String c EmptyString) skip' rest
      | O =>
          if starts_with pat s then
            expand template pat before (drop_chars (String.length pat) s)
            +:+ replace_go pat template (before +:+ String c EmptyString)
                  (String.length pat - 1) rest
          else
            String c
              (replace_go pat template (before +:+ String c EmptyString)
                 O rest)
      end
  end.

(** [s.replace(new RegExp(pat, 'g'), template)] for a non-empty literal
    [pat]. *)
Definition replace_all (pat template s : string) : string :=
  replace_go pat template EmptyString O s.
End JSReplace.

(** [Array.prototype.reduceRight] with the index: the last element
    first. *)
Fixpoint reduceRight_from {A B} (f : B -> A -> nat -> B) (i : nat)
    (l : list A) (init : B) : B :=
  match l with
  | [] => init
  | x :: rest => f (reduceRight_from f (S i) rest init) x i
  end.

Definition reduceRight {A B} (f : B -> A -> nat -> B) (l : list A)
    (init : B) : B :=
  reduceRight_from f O l init.

(** The statement the postgres generator emits: every [$N] of the SQL text
    replaced by the N-th query value between [${] and [}].  The pattern
    [\$N] with the flags [gi] is the literal text [$N]: neither the dollar
    nor a digit has another case. *)
Definition substitutedSqlStatement (queryValues : list string)
    (sql : string) : string :=
  reduceRight
    (fun acc p i =>
       JSReplace.replace_all ("$" +:+ pretty (i + 1)%nat)
         ("${" +:+ p +:+ "}") acc)
    queryValues sql.

Section Generators.
(** [pkginfo.name]. *)
Variable pkginfo_name : string.

Definition topComment (sourceFileName : string) : string :=
  "// Generated by " +:+ pkginfo_name +:+ " from " +:+ sourceFileName
  +:+ "." +:+ newline
  +:+ "// Do not edit directly. Instead, edit " +:+ sourceFileName
  +:+ " and re-run " +:+ pkginfo_name +:+ "." +:+ newline.

(** An array in a template literal is written with commas between its
    elements. *)
Definition generator_pg (opts : GeneratorOptions) : string :=
  topComment (sourceFileName opts) +:+ newline
  +:+ newline
  +:+ "import { ClientBase, Pool } from '" +:+ module opts +:+ "'" +:+ newline
  +:+ join "," (extraImports_ opts) +:+ newline
  +:+ newline
  +:+ "export async function " +:+ funcName opts +:+ "(" +:+ newline
  +:+ "  client: ClientBase | Pool" +:+ params_ opts +:+ newline
  +:+ "): Promise<" +:+ returnType opts +:+ "> {" +:+ newline
  +:+ "    const result = await client.query(`\" +:+ newline
  +:+ sql_ opts +:+ "`" +:+ "[" +:+ join "," (queryValues_ opts) +:+ "]"
  +:+ ")" +:+ newline
  +:+ "    return " +:+ outputValue_ opts +:+ newline
  +:+ "}" +:+ newline.

Definition generator_postgres (opts : GeneratorOptions) : string :=
  topComment (sourceFileName opts) +:+ newline
  +:+ newline
  +:+ "import postgres from '" +:+ module opts +:+ "'" +:+ newline
  +:+ join "," (extraImports_ opts) +:+ newline
  +:+ newline
  +:+ "export async function " +:+ funcName opts +:+ "(" +:+ newline
  +:+ "  sql: postgres.Sql<{" +:+ join "," (serializeFuncs_ opts) +:+ "}>"
  +:+ params_ opts +:+ newline
  +:+ "): Promise<" +:+ returnType opts +:+ "> {" +:+ newline
  +:+ "    const result: postgres.RowList<any[]>  = await sql`"
  +:+ substitutedSqlStatement (queryValues_ opts) (sql_ opts) +:+ "`;"
  +:+ newline
  +:+ "    return " +:+ outputValue_ opts +:+ newline
  +:+ "}" +:+ newline.

Definition generators (target : CodegenTarget)
  : GeneratorOptions -> string :=
  match target with
  | pg => generator_pg
  | postgres => generator_postgres
  end.
End Generators.

(** ** [cli.ts]: processing files and directories *)

Inductive WatchEventType : Type := update | remove.

Module WatchEvent.
Record t : Type :=
  { type : WatchEventType; dirPath : string; fileName : string }.
End WatchEvent.

Section ProcessFiles.
Context {E Sql SchemaClient : Type}.
Local Abbreviation World := (Node.World E).

(** Node's [path] module and the [camelcase] package. *)
Variable path_join : string -> string -> string.
Variable path_basename : string -> string.
Variable path_relative : string -> string -> string.
Variable path_parse : string -> ParsedPath.t.
Variable path_format : FormatInput.t -> string.
Variable camelCase : string -> string.

(** The stages of the analysis, the generators and the formatter: they
    talk to the database and to the formatter, not to the files or the
    console. *)
Variable preprocessSQL : string -> Either.Either string Processed.t.
Variable describeStatement :
  Sql -> string -> list string ->
  TaskEither.TaskEither E string StatementDescription.
Variable inferStatementNullability :
  SchemaClient -> StatementDescription ->
  Task.Task E (Warn.Warn StatementDescription).
Variable generators : CodegenTarget -> GeneratorOptions -> string.
Variable runPrettier : string -> string -> Task.Task E string.

(** [Warn.format] of [Warn.ts]. *)
Variable Warn_format : list string -> bool -> nat -> string.

(** [Array.sort] of fp-ts with the order of [localeCompare] on
    [tsFileName]; the collation is the platform's. *)
Variable sortByTsFileName : list TsModule.t -> list TsModule.t.

Definition isFileOutOfDate (filePath newContents : string)
  : Task.Task World bool :=
  fun w =>
    let '(oldContents, w1) := Node.readFile filePath w in
    (negb (bool_decide (oldContents = Some newContents)), w1).

(** [tryCatch]: a throw becomes [null]. *)
Definition tryCatch {A} (f : Task.Task World (option A))
  : Task.Task World (option A) := f.

Definition funcName_ (filePath : string) : string :=
  camelCase (ParsedPath.name (path_parse filePath)).

Definition getOutputPath (filePath : string) : string :=
  let parsed := path_parse filePath in
  path_format
    {| FormatInput.root := ParsedPath.root parsed;
       FormatInput.dir := ParsedPath.dir parsed;
       FormatInput.base := None;
       FormatInput.ext := ".ts";
       FormatInput.name := ParsedPath.name parsed |}.

Definition removeOutputFile (filePath : string) : Task.Task World unit :=
  let tsPath := getOutputPath filePath in
  fun w =>
    match Node.unlink tsPath w with
    | (None, w1) => (tt, w1)
    | (Some _, w1) => Node.print Node.log ("Removing " +:+ tsPath) w1
    end.

Definition maybeWriteIndexModule (write : bool) (dirPath : string)
    (nestedDirs : list TsModuleDir.t) (tsModules : list TsModule.t)
    (prettify : bool) : Task.Task World (list TsModule.t) :=
  let tsPath := path_join dirPath "index.ts" in
  if write
     && ((0 <? length tsModules)%nat
         || existsb moduleDirContainsSqlFiles nestedDirs)
  then
    Task.map (fun _ => tsModules)
      (Task.chain
         (fun tsCode w =>
            let '(outOfDate, w1) := isFileOutOfDate tsPath tsCode w in
            if outOfDate then
              let '(_, w2) := Node.print Node.log ("Writing " +:+ tsPath) w1 in
              Node.writeFile tsPath tsCode w2
            else (tt, w1))
         (Task.chain
            (fun sortedModules =>
               Node.on_outside
                 (indexModuleTS path_relative path_parse runPrettier dirPath
                    (List.filter moduleDirContainsSqlFiles nestedDirs)
                    sortedModules
                    (if prettify then Some tsPath else None)))
            (Task.map sortByTsFileName (Task.of_ tsModules))))
  else Task.of_ tsModules.

Definition processSQLDirectory (dirPath : string)
    (nestedDirs : list TsModuleDir.t) (modules : list (option TsModule.t))
    (options : Options.t) : Task.Task World TsModuleDir.t :=
  let successfulModules := omap (fun m => m) modules in
  let hasErrors :=
    existsb (fun m => match m with None => true | Some _ => false end)
      modules in
  Task.map
    (fun modules =>
       {| TsModuleDir.hasErrors := hasErrors;
          TsModuleDir.dirPath := dirPath;
          TsModuleDir.modules := modules;
          TsModuleDir.nestedDirs := nestedDirs |})
    (maybeWriteIndexModule (Options.index options) dirPath nestedDirs
       successfulModules (Options.prettify options)).

(** [options.terminalColumns || 78]. *)
Definition terminalColumns_or_78 (options : Options.t) : nat :=
  match Options.terminalColumns options with
  | Some (S n) => S n
  | _ => 78%nat
  end.

(** The steps of [processSQLFile] once the SQL file has been read. *)
Definition processSQLFile_read
    (clients : Clients.Clients E Sql SchemaClient)
    (filePath : string) (checkOnly : bool) (options : Options.t)
    (sql : string) : Task.Task World (option TsModule.t) :=
  let tsPath := getOutputPath filePath in
  let fnName := funcName_ filePath in
  Task.map Option_fromEither
    (TaskEither.map
       (fun _ : unit =>
          {| TsModule.sqlFileName := path_basename filePath;
             TsModule.tsFileName := path_basename tsPath;
             TsModule.funcName := fnName |})
       (TaskEither_orElse
          (fun (errorMessage : string) w =>
             let '(_, w1) :=
               Node.print Node.error (filePath +:+ ": " +:+ errorMessage) w in
             if negb checkOnly then
               let '(_, w2) :=
                 Node.print Node.log ("Removing " +:+ tsPath) w1 in
               let '(_, w3) := tryCatch (Node.unlink tsPath) w2 in
               (inl tt, w3)
             else (inl tt, w1))
          (TaskEither.chain
             (fun (tsCode : string) w =>
                let '(outOfDate, w1) := isFileOutOfDate tsPath tsCode w in
                if outOfDate then
                  if checkOnly then (inl "out of date", w1)
                  else
                    let '(_, w2) :=
                      Node.print Node.log ("Writing " +:+ tsPath) w1 in
                    let '(_, w3) := Node.writeFile tsPath tsCode w2 in
                    (inr tt, w3)
                else (inr tt, w1))
             (TaskEither.chain
                (fun source =>
                   Node.on_outside
                     (generateTSCode runPrettier generators clients (path_basename filePath) source
                        fnName
                        (Some
                           {| TSCodeOptions.prettierFileName :=
                                if Options.prettify options
                                then Some tsPath else None;
                              TSCodeOptions.target :=
                                Some (Options.target options);
                              TSCodeOptions.module :=
                                Some (Options.module options) |})))
                (TaskEither.chain
                   (fun stmtWithWarnings w =>
                      let '(stmt, warnings) := Warn.split stmtWithWarnings in
                      if (0 <? length warnings)%nat then
                        let '(_, w1) :=
                          Node.print Node.warn
                            (Warn_format warnings (Options.verbose options)
                               (terminalColumns_or_78 options)) w in
                        (inr stmt, w1)
                      else (inr stmt, w))
                   (Node.on_outside
                      (sqlToStatementDescription preprocessSQL
                         describeStatement inferStatementNullability
                         clients sql))))))).

(** Nothing catches a failing read of the SQL file: the promise is
    rejected and no later step runs. *)
Definition processSQLFile (clients : Clients.Clients E Sql SchemaClient)
    (filePath : string) (checkOnly : bool) (options : Options.t)
  : Task.Task World (Settled (option TsModule.t)) :=
  fun w =>
    match Node.readFile filePath w with
    | (None, w1) => (Rejected, w1)
    | (Some sql, w1) =>
        Task.map Fulfilled
          (processSQLFile_read clients filePath checkOnly options sql) w1
    end.

Definition makeWatchEventHandler
    (clients : Clients.Clients E Sql SchemaClient) (options : Options.t)
    (nestedDirs : list TsModuleDir.t) (tsModules : list TsModule.t)
    (type : WatchEventType) (dirPath sqlFileName : string)
  : Task.Task World (Settled (list TsModule.t)) :=
  let sqlFilePath := path_join dirPath sqlFileName in
  let writeIndex (newModules : list TsModule.t) :=
    Task.map Fulfilled
      (maybeWriteIndexModule (Options.index options) dirPath nestedDirs
         newModules (Options.prettify options)) in
  fun w =>
    match type with
    | update =>
        match processSQLFile clients sqlFilePath false options w with
        | (Rejected, w1) => (Rejected, w1)
        | (Fulfilled tsModuleOption, w1) =>
            writeIndex
              (match tsModuleOption with
               | Some tsModule => replaceOrAddTsModule tsModule tsModules
               | None => removeTsModule sqlFileName tsModules
               end) w1
        end
    | remove =>
        let '(_, w1) := removeOutputFile sqlFilePath w in
        writeIndex (removeTsModule sqlFileName tsModules) w1
    end.
End ProcessFiles.

Section WatchEvents.
Context {W : Type}.

(** The handler is an argument of [handleWatchEvents] in the source as
    well. *)
Variable eventHandler :
  list TsModuleDir.t -> list TsModule.t -> WatchEventType ->
  string -> string -> Task.Task W (Settled (list TsModule.t)).

(** The events are taken off the buffer one by one; next to what the
    promise settles to, the model returns the events left in the buffer. *)
Fixpoint handleWatchEvents (moduleDirs : list TsModuleDir.t)
    (events : list WatchEvent.t)
  : Task.Task W (Settled (list TsModuleDir.t) * list WatchEvent.t) :=
  match events with
  | [] => Task.of_ (Fulfilled moduleDirs, [])
  | event :: rest =>
      let dirPath := WatchEvent.dirPath event in
      match
        List.find
          (fun dir => String.eqb (TsModuleDir.dirPath dir) dirPath) moduleDirs
      with
      | None => Task.of_ (Fulfilled moduleDirs, rest)
      | Some moduleDir =>
          fun w =>
            match
              eventHandler (TsModuleDir.nestedDirs moduleDir)
                (TsModuleDir.modules moduleDir) (WatchEvent.type event)
                dirPath (WatchEvent.fileName event) w
            with
            | (Rejected, w1) => (Rejected, rest, w1)
            | (Fulfilled newModules, w1) =>
                handleWatchEvents
                  (default moduleDirs
                     (modifyWhere
                        (fun moduleDir =>
                           String.eqb (TsModuleDir.dirPath moduleDir) dirPath)
                        (fun moduleDir =>
                           {| TsModuleDir.dirPath :=
                                TsModuleDir.dirPath moduleDir;
                              TsModuleDir.nestedDirs :=
                                TsModuleDir.nestedDirs moduleDir;
                              TsModuleDir.modules := newModules;
                              TsModuleDir.hasErrors :=
                                TsModuleDir.hasErrors moduleDir |})
                        moduleDirs))
                  rest w1
            end
      end
  end.
End WatchEvents.

(** * The vocabulary of the properties *)

(** Two entries of [ns], at different positions, both equal to [n]. *)
Definition occurs_twice (n : string) (ns : list string) : Prop :=
  exists i j, (i < j)%nat /\ ns !! i = Some n /\ ns !! j = Some n.

(** The statement's columns contain two entries with the same name. *)
Definition has_duplicate_columns (stmt : StatementDescription) : Prop :=
  exists i j c1 c2,
    i <> j /\ columns stmt !! i = Some c1 /\ columns stmt !! j = Some c2
    /\ name c1 = name c2.

(** The driver's names for the rows and for the row count. *)
Definition result_rows (target : CodegenTarget) : string :=
  match target with pg => "result.rows" | postgres => "result" end.

Definition result_count (target : CodegenTarget) : string :=
  match target with pg => "result.rowCount" | postgres => "result.count" end.

Section CodegenVocabulary.
Context {W : Type}.
Implicit Types (types : TypeClient W) (stmt : StatementDescription) (w : W).

(** The type of one row: the column types between braces. *)
Definition rowType_of types stmt w : string :=
  "{ " +:+ join "; " (Task.traverseATs (columns stmt) (columnType_ types) w).1
  +:+ " }".

(** A [$] followed by a digit occurs somewhere in [s]. *)
Definition contains_dollar_digit (s : string) : Prop :=
  exists pre d post,
    s = pre +:+ String "$" (String d post) /\ is_digit d = true.

(** The TypeScript types of the parameters: the type client is asked for
    the type of each parameter, from the first to the last, and answers
    [tsTypes], leaving the world [w'] behind. *)
Inductive params_typed types
  : list NamedValue -> W -> list string -> W -> Prop :=
| params_typed_nil w : params_typed types [] w [] w
| params_typed_cons param rest w tsType_ w1 tsTypes w2 :
    tsType types (type param) (nullable param) w = (tsType_, w1) ->
    params_typed types rest w1 tsTypes w2 ->
    params_typed types (param :: rest) w (tsType_ :: tsTypes) w2.

(** A parameter as TypeScript declares it: its name, a colon, its type. *)
Definition param_declaration (param : NamedValue) (tsType_ : string)
  : string :=
  name param +:+ ": " +:+ tsType_.

(** How a parameter is referred to in the generated function. *)
Definition param_ref stmt (param : NamedValue) : string :=
  (if hasOnlyPositionalParams stmt then EmptyString else "params.")
  +:+ name param.

(** How the serialize function of a transform is referred to. *)
Definition serialize_ref (target : CodegenTarget) (transform : Transform.t)
  : string :=
  (if is_postgres target then "sql.types." else EmptyString)
  +:+ Transform.serializeFunc transform.

(** [p && serialize(p)]. *)
Definition guarded (p serialize : string) : Emitted.Expr :=
  Emitted.And (Emitted.Ref p) (Emitted.Call serialize (Emitted.Ref p)).

(** The expression emitted for one parameter. *)
Definition queryValue_expr types stmt (target : CodegenTarget)
    (param : NamedValue) : Emitted.Expr :=
  let p := param_ref stmt param in
  let base :=
    match getTransform types (oid (type param)) with
    | Some transform => guarded p (serialize_ref target transform)
    | None => Emitted.Ref p
    end in
  if is_postgres target && isArray types (oid (type param))
  then Emitted.Call "sql.array" base else base.

End CodegenVocabulary.









Section TransformsVocabulary.
Context {Num : Type} `{EqDecision Num}.
Variable parseInt : string -> Num.

(** The last of the keys [ks], in enumeration order, that parses to [n]. *)
Definition last_key_for (n : Num) (ks : list string) : option string :=
  last (filter (fun k => parseInt k = n) ks).

End TransformsVocabulary.

(** The pieces of the output text, one after the other. *)
Definition flatten (pieces : list string) : string :=
  foldr String.append EmptyString pieces.

(** Every module of a directory tree: those of the directory, then those
    of its nested directories. *)
Fixpoint all_modules (dir : TsModuleDir.t) : list TsModule.t :=
  match dir with
  | TsModuleDir.Build _ nestedDirs modules _ =>
      modules ++ flat_map all_modules nestedDirs
  end.

(** The character [c] occurs in [s]. *)
Fixpoint contains_char (c : ascii) (s : string) : bool :=
  match s with
  | EmptyString => false
  | String d rest => Ascii.eqb d c || contains_char c rest
  end.

(** [s'] is [s] with a backslash put in front of its first [c], if it has
    one. *)
Definition first_escaped (c : ascii) (s s' : string) : Prop :=
  (contains_char c s = false /\ s' = s)
  \/ exists pre post,
       s = pre +:+ String c post
       /\ contains_char c pre = false
       /\ s' = pre +:+ String "\" (String c post).

(** The name read once from left to right, with a backslash put in front of
    the first backslash and of the first quote met; [bs] and [q] tell
    whether a backslash and a quote have been met already. *)
Fixpoint escape_firsts (bs q : bool) (s : string) : string :=
  match s with
  | EmptyString => EmptyString
  | String c rest =>
      if Ascii.eqb c "\" && negb bs
      then String "\" (String "\" (escape_firsts true q rest))
      else if Ascii.eqb c "'" && negb q
      then String "\" (String "'" (escape_firsts bs true rest))
      else String c (escape_firsts bs q rest)
  end.

(** What [handleWatchEvents] never changes of a directory. *)
Definition dir_frame (dir : TsModuleDir.t)
  : string * list TsModuleDir.t * bool :=
  (TsModuleDir.dirPath dir, TsModuleDir.nestedDirs dir,
   TsModuleDir.hasErrors dir).

Section ProcessVocabulary.
Context {E Sql SchemaClient : Type}.
Variable path_basename : string -> string.
Variable path_parse : string -> ParsedPath.t.
Variable path_format : FormatInput.t -> string.
Variable camelCase : string -> string.
Variable preprocessSQL : string -> Either.Either string Processed.t.
Variable describeStatement :
  Sql -> string -> list string ->
  TaskEither.TaskEither E string StatementDescription.
Variable inferStatementNullability :
  SchemaClient -> StatementDescription ->
  Task.Task E (Warn.Warn StatementDescription).
Variable generators : CodegenTarget -> GeneratorOptions -> string.
Variable runPrettier : string -> string -> Task.Task E string.

(** The analysis of the text of an SQL file followed by the generation of
    its code, as [processSQLFile] asks for them: the code, or the error of
    the analysis. *)
Definition compile (clients : Clients.Clients E Sql SchemaClient)
    (filePath : string) (options : Options.t) (sql : string)
  : TaskEither.TaskEither E string string :=
  TaskEither.chain
    (fun stmtWithWarnings =>
       generateTSCode runPrettier generators clients (path_basename filePath)
         (Warn.payload stmtWithWarnings)
         (funcName_ path_parse camelCase filePath)
         (Some
            {| TSCodeOptions.prettierFileName :=
                 if Options.prettify options
                 then Some (getOutputPath path_parse path_format filePath)
                 else None;
               TSCodeOptions.target := Some (Options.target options);
               TSCodeOptions.module := Some (Options.module options) |}))
    (sqlToStatementDescription preprocessSQL describeStatement
       inferStatementNullability clients sql).

(** The module [processSQLFile] reports for an SQL file. *)
Definition module_of (filePath : string) : TsModule.t :=
  {| TsModule.sqlFileName := path_basename filePath;
     TsModule.tsFileName :=
       path_basename (getOutputPath path_parse path_format filePath);
     TsModule.funcName := funcName_ path_parse camelCase filePath |}.
End ProcessVocabulary.

(** The SQL text read as the postgres generator's patterns see it: a
    dollar with the digits that follow it, or any other character. *)
Module Placeholder.
Inductive Tok : Type :=
| Plain (c : ascii)
| Dollar (digits : string).

(** The digits in front of a token list, and the tokens behind them. *)
Fixpoint take_digits (toks : list Tok) : string * list Tok :=
  match toks with
  | Plain d :: rest =>
      if is_digit d
      then let '(digits, rest') := take_digits rest in (String d digits, rest')
      else (EmptyString, toks)
  | _ => (EmptyString, toks)
  end.

Fixpoint tokenize (s : string) : list Tok :=
  match s with
  | EmptyString => []
  | String c rest =>
      if Ascii.eqb c "$"
      then let '(digits, toks) := take_digits (tokenize rest) in
           Dollar digits :: toks
      else Plain c :: tokenize rest
  end.

Definition text (tok : Tok) : string :=
  match tok with
  | Plain c => String c EmptyString
  | Dollar digits => String "$" digits
  end.

(** The largest number above [lo] and up to [k] whose decimal writing the
    digits start with. *)
Fixpoint best_above (lo k : nat) (digits : string) : option nat :=
  match k with
  | O => None
  | S k' =>
      if (lo <? k)%nat then
        if JSReplace.starts_with (pretty k) digits then Some k
        else best_above lo k' digits
      else None
  end.

(** What a token has become once the values numbered above [lo] have been
    substituted. *)
Definition substituted_above (lo : nat) (values : list string) (tok : Tok)
  : string :=
  match tok with
  | Plain c => String c EmptyString
  | Dollar digits =>
      match best_above lo (length values) digits with
      | Some k =>
          "${" +:+ nth (k - 1) values EmptyString +:+ "}"
          +:+ JSReplace.drop_chars (String.length (pretty k)) digits
      | None => String "$" digits
      end
  end.

(** What a token becomes: a dollar followed by digits that start with the
    number of a value is replaced, together with the digits of the largest
    such number, by that value between [${] and [}]. *)
Definition substituted (values : list string) (tok : Tok) : string :=
  substituted_above 0 values tok.

(** Whether the pattern occurs somewhere in the text. *)
Fixpoint occurs (pat s : string) : bool :=
  JSReplace.starts_with pat s
  || match s with
     | EmptyString => false
     | String _ rest => occurs pat rest
     end.

(** A replacement text that stands for itself: it holds none of [$$], [$&],
    [$`] and [$'], which [replace] expands. *)
Definition literal (template : string) : Prop :=
  forall matched before after,
    JSReplace.expand template matched before after = template.

(** Query values the replacements leave alone once they are in the
    statement: a value holds no placeholder of a value before it, and
    nothing that [replace] expands. *)
Definition untouched (values : list string) : Prop :=
  forall k p,
    values !! k = Some p ->
    literal ("${" +:+ p +:+ "}")
    /\ forall j, (j < k)%nat -> occurs ("$" +:+ pretty (S j)) p = false.

(** The query values of [n] positional parameters: their names, [$1] to
    [$n]. *)
Definition positional (n : nat) : list string :=
  (fun i => "$" +:+ pretty (S i)) <$> seq 0 n.

Fixpoint all_digits_b (s : string) : bool :=
  match s with
  | EmptyString => true
  | String c rest => is_digit c && all_digits_b rest
  end.

(** Tokens as [tokenize] makes them: no dollar among the plain characters,
    digits only behind a dollar, and no digit right behind those. *)
Definition head_nondigit (toks : list Tok) : Prop :=
  match toks with
  | Plain c :: _ => is_digit c = false
  | _ => True
  end.

Fixpoint well_tokenized (toks : list Tok) : Prop :=
  match toks with
  | [] => True
  | tok :: rest =>
      match tok with
      | Plain c => Ascii.eqb c "$" = false
      | Dollar digits => all_digits_b digits = true /\ head_nondigit rest
      end
      /\ well_tokenized rest
  end.
End Placeholder.

(** * Concrete instances *)

(** A pipeline whose describer reports one column and whose inference stage
    meets a syntax tree it cannot traverse.  The world is the log of the
    stages that touched the connection. *)
Module PipelineExample.
Definition described (sql : string) : StatementDescription :=
  {| sql := sql;
     params := [];
     columns := [{| name := "x"; type := {| oid := 23 |}; nullable := true |}];
     rowCount := many |}.

Definition describeStatement (_ : unit) (sql : string)
    (paramNames : list string)
  : Rejecting.TaskEither (list string) string StatementDescription :=
  fun log => (Fulfilled (inr (described sql)), log ++ ["describe"]).

(** Modelled from the spec: [infer.ts] is not part of the sources at hand.
    Section 4.5 has the stage fail the whole statement on a syntax tree it
    cannot traverse, and section 7 calls that fatal.  The result type of
    the stage, [Task<Warn<StatementDescription>>], has no value for an
    error, so the stage fails by throwing: its promise is rejected. *)
Definition inferStatementNullability (_ : unit) (stmt : StatementDescription)
  : Rejecting.Task (list string) (Warn.Warn StatementDescription) :=
  fun log => (Rejected, log ++ ["infer"]).

Definition types : TypeClient (list string) :=
  {| tsType := fun _ _ => Task.of_ "unknown";
     columnType :=
       fun c => Task.of_ {| Column.name := name c; Column.type := "unknown" |};
     getTransforms := [];
     getTransform := fun _ => None;
     isArray := fun _ => false |}.

Definition clients : Clients.Clients (list string) unit unit :=
  {| Clients.postgres := tt; Clients.schema := tt; Clients.types := types |}.
End PipelineExample.

(** A database with one table, [public.person], whose column [age] loses
    its NOT NULL constraint between two runs, and clients whose catalog
    cache was filled before the change. *)
Module ClearCacheExample.
Definition catalog (age_notnull : bool) : pg_catalog.t :=
  {| pg_catalog.pg_attribute_rows :=
       [{| pg_catalog.attrelid := 16384; pg_catalog.attnum := 1;
           pg_catalog.attname := "age"; pg_catalog.atttypid := 23;
           pg_catalog.attnotnull := age_notnull;
           pg_catalog.atthasdef := false;
           pg_catalog.attisdropped := false |}];
     pg_catalog.pg_class_rows :=
       [{| pg_catalog.cls_oid := 16384; pg_catalog.relname := "person";
           pg_catalog.relnamespace := 2200; pg_catalog.relkind := "r" |}];
     pg_catalog.pg_namespace_rows :=
       [{| pg_catalog.nsp_oid := 2200; pg_catalog.nspname := "public" |}] |}.

Definition db_before : pg_catalog.t := catalog true.
Definition db_after : pg_catalog.t := catalog false.

Definition typeClient (transforms : list (Z * Transform.t)) (_ : unit)
  : Task.Task pg_catalog.t (TypeClient pg_catalog.t) :=
  fun db =>
    ({| tsType := fun _ _ => Task.of_ "unknown";
        columnType :=
          fun c =>
            Task.of_ {| Column.name := name c; Column.type := "unknown" |};
        getTransforms := transforms;
        getTransform :=
          fun oid => (list_to_map transforms : gmap Z Transform.t) !! oid;
        isArray := fun _ => false |}, db).

(** The catalog client after a first analysis that touched the table. *)
Definition warm : SchemaModel.SchemaClient :=
  (SchemaModel.getTable (SchemaModel.schemaClient tt) db_before
     "public" "person").2.

Definition clients
  : Clients.Clients pg_catalog.t unit SchemaModel.SchemaClient :=
  {| Clients.postgres := tt;
     Clients.schema := warm;
     Clients.types := (typeClient [] tt db_before).1 |}.

(** What an analysis learns about [public.person.age] through a catalog
    client. *)
Definition age_facts (client : SchemaModel.SchemaClient) (db : pg_catalog.t)
  : option SchemaModel.ColumnFacts :=
  (SchemaModel.getTable client db "public" "person").1 ≫= (.!! "age").
End ClearCacheExample.

(** A transform file in which two keys name the same type identifier. *)
Module TransformsExample.
Definition entry (tsType serializeFunc : string) : JS.JSON IntNum.t :=
  JS.JObj [("tsType", JS.JStr tsType); ("serializeFunc", JS.JStr serializeFunc)].

Definition parsed : JS.JSON IntNum.t :=
  JS.JObj [("1", entry "Foo" "serializeFoo"); ("01", entry "Bar" "serializeBar")].
End TransformsExample.

(** A statement that uses one named parameter twice. *)
Module PreprocessExample.
Definition statement : string :=
  "SELECT name FROM person WHERE id = :id OR boss = :id".

Definition segments : list Preprocess.Segment :=
  Eval vm_compute in
    match Preprocess.tokenize statement with
    | inr segs => segs
    | inl _ => []
    end.
End PreprocessExample.

(** A statement with a named array parameter whose type has a transform. *)
Module QueryValuesExample.
Definition types : TypeClient unit :=
  {| tsType := fun _ _ => Task.of_ "Tag[]";
     columnType :=
       fun c => Task.of_ {| Column.name := name c; Column.type := "string" |};
     getTransforms :=
       [(16400,
         {| Transform.tsType := "Tag[]";
            Transform.serializeFunc := "serializeTags";
            Transform.import := None |})];
     getTransform :=
       fun oid =>
         if oid =? 16400
         then Some {| Transform.tsType := "Tag[]";
                      Transform.serializeFunc := "serializeTags";
                      Transform.import := None |}
         else None;
     isArray := fun oid => oid =? 16400 |}.

Definition tags : NamedValue :=
  {| name := "tags"; type := {| oid := 16400 |}; nullable := true |}.

Definition stmt : StatementDescription :=
  {| sql := "UPDATE post SET tags = $1";
     params := [tags];
     columns := [];
     rowCount := zero |}.
End QueryValuesExample.

(** A catalog with two tables, an index and a second schema. *)
Module CatalogExample.
Definition attribute (rel num : Z) (name : string) (notnull : bool)
  : pg_catalog.pg_attribute :=
  {| pg_catalog.attrelid := rel; pg_catalog.attnum := num;
     pg_catalog.attname := name; pg_catalog.atttypid := 23;
     pg_catalog.attnotnull := notnull; pg_catalog.atthasdef := false;
     pg_catalog.attisdropped := false |}.

Definition relation (oid : Z) (name : string) (namespace : Z) (kind : ascii)
  : pg_catalog.pg_class :=
  {| pg_catalog.cls_oid := oid; pg_catalog.relname := name;
     pg_catalog.relnamespace := namespace; pg_catalog.relkind := kind |}.

Definition db : pg_catalog.t :=
  {| pg_catalog.pg_attribute_rows :=
       [attribute 16384 2 "name" false; attribute 16384 1 "id" true;
        attribute 16390 1 "id" true; attribute 16384 (-1) "ctid" true;
        attribute 16400 1 "id" true; attribute 16410 1 "old_id" true];
     pg_catalog.pg_class_rows :=
       [relation 16384 "person" 2200 "r"; relation 16390 "pet" 2200 "r";
        relation 16400 "person_pkey" 2200 "i";
        relation 16410 "person" 99 "r"];
     pg_catalog.pg_namespace_rows :=
       [{| pg_catalog.nsp_oid := 2200; pg_catalog.nspname := "public" |};
        {| pg_catalog.nsp_oid := 99; pg_catalog.nspname := "archive" |}] |}.

Definition column (num : Z) (name : string) (notnull : bool) : TableColumn :=
  {| attnum := num; attname := name; atttypid := 23; attnotnull := notnull;
     atthasdef := false; attisdropped := false |}.

Definition query (schemaName tableName : string) : list TableColumn :=
  (tableColumns (fun (_ : unit) (w : pg_catalog.t) => w) tt
     {| TableColumnsParams.schemaName := schemaName;
        TableColumnsParams.tableName := tableName |} db).1.
End CatalogExample.

(** A catalog whose one table has a name of 63 characters, and a name one
    character longer. *)
Module LongNameExample.
Definition name63 : string :=
  "aaaaaaaaaaaaaaaaaaaaaaaaaaaaaaaaaaaaaaaaaaaaaaaaaaaaaaaaaaaaaaa".


Definition db : pg_catalog.t :=
  {| pg_catalog.pg_attribute_rows := [CatalogExample.attribute 16384 1 "id" true];
     pg_catalog.pg_class_rows := [CatalogExample.relation 16384 name63 2200 "r"];
     pg_catalog.pg_namespace_rows :=
       [{| pg_catalog.nsp_oid := 2200; pg_catalog.nspname := "public" |}] |}.

Definition query (schemaName tableName : string) : list TableColumn :=
  (tableColumns (fun (_ : unit) (w : pg_catalog.t) => w) tt
     {| TableColumnsParams.schemaName := schemaName;
        TableColumnsParams.tableName := tableName |} db).1.
End LongNameExample.

(** The modules of a directory, and the module of one of its files after a
    change. *)
Module TsModuleExample.
Definition modules : list TsModule.t :=
  [ {| TsModule.sqlFileName := "insert.sql";
       TsModule.tsFileName := "insert.ts";
       TsModule.funcName := "insert" |};
    {| TsModule.sqlFileName := "find.sql";
       TsModule.tsFileName := "find.ts";
       TsModule.funcName := "find" |} ].

Definition changed : TsModule.t :=
  {| TsModule.sqlFileName := "find.sql";
     TsModule.tsFileName := "find.ts";
     TsModule.funcName := "find" |}.
End TsModuleExample.

(** Query values and a statement as the postgres generator gets them. *)
Module SubstitutionExample.
Definition values : list string := ["params.id"; "params.name"].

Definition statement : string :=
  "SELECT * FROM person WHERE name = $2 AND id = $1".

Definition ten_values : list string :=
  ["a"; "b"; "c"; "d"; "e"; "f"; "g"; "h"; "i"; "j"].
End SubstitutionExample.

(** A statement with two positional parameters of a type without
    transform. *)
Module PositionalExample.
Definition stmt : StatementDescription :=
  {| sql := "SELECT * FROM person WHERE id = $1 OR boss = $2";
     params :=
       [ {| name := "$1"; type := {| oid := 23 |}; nullable := false |};
         {| name := "$2"; type := {| oid := 23 |}; nullable := true |} ];
     columns := [];
     rowCount := many |}.
End PositionalExample.

(** * Properties *)

(** ** validateStatement *)

Lemma JSSet_has_spec x s : JSSet.has x s = true <-> x ∈ s.
Proof. unfold JSSet.has. apply bool_decide_eq_true. Qed.

Lemma JSSet_elem_of_add n x s : n ∈ JSSet.add x s <-> n ∈ s \/ n = x.
Proof.
  unfold JSSet.add. destruct (JSSet.has x s) eqn:E.
  - apply JSSet_has_spec in E. split; [auto | intros [?| ->]; auto].
  - rewrite elem_of_app, list_elem_of_singleton. tauto.
Qed.

Lemma JSSet_NoDup_add x s : NoDup s -> NoDup (JSSet.add x s).
Proof.
  intros Hs. unfold JSSet.add. destruct (JSSet.has x s) eqn:E; [done|].
  apply NoDup_app. split_and!; [done | | apply NoDup_singleton].
  intros y Hy ->%list_elem_of_singleton.
  apply JSSet_has_spec in Hy. congruence.
Qed.

Lemma occurs_twice_snoc n ns x :
  occurs_twice n (ns ++ [x]) <-> occurs_twice n ns \/ (x = n /\ n ∈ ns).
Proof.
  split.
  - intros (i & j & Hij & Hi & Hj).
    assert (Hjlt : (j < length (ns ++ [x]))%nat) by (eapply lookup_lt_Some; eauto).
    rewrite length_app in Hjlt. simpl in Hjlt.
    destruct (decide (j < length ns)%nat) as [Hlt | Hge].
    + left. exists i, j. rewrite lookup_app_l in Hi by lia.
      rewrite lookup_app_l in Hj by lia. done.
    + right. assert (j = length ns) as -> by lia.
      rewrite lookup_app_l in Hi by lia.
      rewrite list_lookup_middle in Hj by done.
      split; [congruence |]. eapply list_elem_of_lookup_2; eauto.
  - intros [(i & j & Hij & Hi & Hj) | [-> Hin]].
    + exists i, j. split_and!; [done | |]; apply lookup_app_l_Some; done.
    + apply list_elem_of_lookup_1 in Hin as [i Hi].
      exists i, (length ns). split_and!.
      * eapply lookup_lt_Some; eauto.
      * by apply lookup_app_l_Some.
      * by apply list_lookup_middle.
Qed.

Lemma occurs_twice_nil n : ~ occurs_twice n [].
Proof. intros (i & j & _ & Hi & _). by rewrite lookup_nil in Hi. Qed.

(** What the two sets hold after the loop has visited the columns [cols]. *)
Lemma validateStatement_loop_inv (cols : list NamedValue) :
  let '(columnNames, conflicts) :=
    foldl validateStatement_step (JSSet.empty, JSSet.empty) cols in
  (forall n, n ∈ columnNames <-> n ∈ name <$> cols)
  /\ NoDup conflicts
  /\ (forall n, n ∈ conflicts <-> occurs_twice n (name <$> cols)).
Proof.
  induction cols as [| c cols IH] using rev_ind.
  - simpl. split_and!; [done | constructor |].
    intros n. split; [by intros ?%elem_of_nil | by intros ?%occurs_twice_nil].
  - rewrite foldl_app. simpl.
    destruct (foldl validateStatement_step (JSSet.empty, JSSet.empty) cols)
      as [columnNames conflicts].
    destruct IH as (Hnames & Hnd & Hconf).
    rewrite fmap_app. simpl. unfold validateStatement_step.
    destruct (JSSet.has (name c) columnNames) eqn:E.
    + apply JSSet_has_spec in E. split_and!.
      * intros n. rewrite elem_of_app, list_elem_of_singleton, <- Hnames.
        split; [auto | intros [?| ->]; auto].
      * by apply JSSet_NoDup_add.
      * intros n. rewrite JSSet_elem_of_add, occurs_twice_snoc, Hconf.
        rewrite <- Hnames. split; [intros [?| ->]; auto | intros [?|[-> ?]]; auto].
    + assert (name c ∉ columnNames) as Hnot.
      { intros ?%JSSet_has_spec. congruence. }
      split_and!.
      * intros n. rewrite JSSet_elem_of_add, elem_of_app, list_elem_of_singleton.
        rewrite Hnames. done.
      * done.
      * intros n. rewrite occurs_twice_snoc, Hconf, <- Hnames.
        split; [auto | intros [?|[<- ?]]; [done | contradiction]].
Qed.

Lemma has_duplicate_columns_occurs_twice stmt :
  has_duplicate_columns stmt <->
  exists n, occurs_twice n (name <$> columns stmt).
Proof.
  split.
  - intros (i & j & c1 & c2 & Hne & H1 & H2 & Heq).
    exists (name c1).
    destruct (decide (i < j)%nat).
    + exists i, j. rewrite !list_lookup_fmap, H1, H2. simpl.
      split_and!; [done | done | by rewrite Heq].
    + exists j, i. rewrite !list_lookup_fmap, H1, H2. simpl.
      split_and!; [lia | by rewrite Heq | done].
  - intros (n & i & j & Hlt & Hi & Hj).
    rewrite list_lookup_fmap in Hi, Hj.
    destruct (columns stmt !! i) as [c1|] eqn:E1; [|done].
    destruct (columns stmt !! j) as [c2|] eqn:E2; [|done].
    simpl in *. exists i, j, c1, c2. split_and!; [lia | done | done | congruence].
Qed.

Lemma sort_Sorted l : Sorted String.le (sort l).
Proof. apply Sorted_merge_sort; apply _. Qed.

Lemma sort_Permutation l : sort l ≡ₚ l.
Proof. apply merge_sort_Permutation. Qed.

(** C1. [validateStatement] answers [Left] exactly when two columns share a
    name, and then the message is "Duplicate output columns: " followed by
    the names that occur more than once, each once, in sorted order and
    separated by ", "; otherwise it answers [Right] with the statement it
    was given.  The result is an [Either]: the duplicate case is an error,
    there is no warning channel. *)
Theorem validateStatement_duplicates (stmt : StatementDescription) :
  match validateStatement stmt with
  | inr stmt' => stmt' = stmt /\ ~ has_duplicate_columns stmt
  | inl message =>
      has_duplicate_columns stmt
      /\ exists dups,
           message = "Duplicate output columns: " +:+ join ", " dups
           /\ Sorted String.le dups
           /\ NoDup dups
           /\ forall n, n ∈ dups <-> occurs_twice n (name <$> columns stmt)
  end.
Proof.
  unfold validateStatement.
  pose proof (validateStatement_loop_inv (columns stmt)) as Hinv.
  destruct (foldl validateStatement_step (JSSet.empty, JSSet.empty)
              (columns stmt)) as [columnNames conflicts].
  destruct Hinv as (_ & Hnd & Hconf).
  unfold JSSet.size, JSSet.values.
  destruct conflicts as [| n0 conflicts]; simpl.
  - split; [done |].
    rewrite has_duplicate_columns_occurs_twice. intros [n Hn].
    apply Hconf in Hn. by apply elem_of_nil in Hn.
  - split.
    + apply has_duplicate_columns_occurs_twice. exists n0.
      apply Hconf. left.
    + exists (sort (n0 :: conflicts)). split_and!.
      * done.
      * apply sort_Sorted.
      * by rewrite sort_Permutation.
      * intros n. by rewrite sort_Permutation.
Qed.

(** ** Code generation *)

Lemma Task_map_run {W A B} (f : A -> B) (t : Task.Task W A) (w : W) :
  Task.map f t w = (f (t w).1, (t w).2).
Proof. unfold Task.map. by destruct (t w). Qed.

Lemma string_app_cons (c : ascii) (s1 s2 : string) :
  String c s1 +:+ s2 = String c (s1 +:+ s2).
Proof. reflexivity. Qed.

Lemma string_length_app (s1 s2 : string) :
  String.length (s1 +:+ s2) = (String.length s1 + String.length s2)%nat.
Proof.
  induction s1 as [| c s1 IH]; [done |].
  rewrite string_app_cons. simpl. by rewrite IH.
Qed.

Lemma string_app_assoc (s1 s2 s3 : string) :
  (s1 +:+ s2) +:+ s3 = s1 +:+ (s2 +:+ s3).
Proof.
  induction s1 as [| c s1 IH]; [done |].
  rewrite !string_app_cons. by rewrite IH.
Qed.

Section CodegenFacts.
Context {W : Type}.
Implicit Types (types : TypeClient W) (stmt : StatementDescription) (w : W).

(** C2. The cardinality class alone picks the shape of what the generated
    function returns.  For [zero] the return type is [number] and the value
    is the driver's row count; for [one] the type is the row type and the
    value the first row; for [zeroOrOne] the type is the row type or [null]
    and the value the first row if the row count is positive, else [null];
    for [many] the type is an array of the row type and the value all
    rows. *)
Theorem return_shape_by_rowCount types stmt (target : CodegenTarget) w :
  let rowType := rowType_of types stmt w in
  let rows := result_rows target in
  let count := result_count target in
  match rowCount stmt with
  | zero =>
      (funcReturnType types stmt w).1 = "number"
      /\ outputValue target stmt = count
  | one =>
      (funcReturnType types stmt w).1 = rowType
      /\ outputValue target stmt = rows +:+ "[0]"
  | zeroOrOne =>
      (funcReturnType types stmt w).1 = rowType +:+ " | null"
      /\ outputValue target stmt
         = count +:+ " > 0 ? " +:+ rows +:+ "[0] : null"
  | many =>
      (funcReturnType types stmt w).1 = "Array<" +:+ rowType +:+ ">"
      /\ outputValue target stmt = rows
  end.
Proof.
  unfold funcReturnType, outputValue, rowType_of.
  rewrite Task_map_run.
  destruct (rowCount stmt), target; done.
Qed.

Lemma matches_dollar_digits_spec (s : string) :
  matches_dollar_digits s = true <-> contains_dollar_digit s.
Proof.
  induction s as [| c s IH]; simpl.
  - split; [done |]. intros (pre & d & post & Heq & _).
    destruct pre; discriminate.
  - rewrite orb_true_iff, andb_true_iff, IH. split.
    + intros [[Hc Hd] | (pre & d & post & -> & Hd)].
      * apply Ascii.eqb_eq in Hc as ->.
        destruct s as [| d post]; [done |].
        by exists EmptyString, d, post.
      * by exists (String c pre), d, post.
    + intros (pre & d & post & Heq & Hd).
      destruct pre as [| c' pre]; simpl in Heq.
      * injection Heq as -> ->. left. by rewrite Ascii.eqb_refl.
      * injection Heq as -> ->. right. by exists pre, d, post.
Qed.

Lemma hasOnlyPositionalParams_spec stmt :
  hasOnlyPositionalParams stmt = true <->
  forall param, param ∈ params stmt -> contains_dollar_digit (name param).
Proof.
  unfold hasOnlyPositionalParams. rewrite forallb_forall.
  split; intros Hall param Hin.
  - apply matches_dollar_digits_spec, Hall. by apply list_elem_of_In.
  - apply matches_dollar_digits_spec, Hall. by apply list_elem_of_In.
Qed.

Lemma forallb_false_exists {A} (f : A -> bool) (l : list A) :
  forallb f l = false -> exists x, x ∈ l /\ f x = false.
Proof.
  induction l as [| x l IH]; simpl; [done |].
  destruct (f x) eqn:E; simpl.
  - intros (y & Hin & Hy)%IH. exists y. split; [by right | done].
  - intros _. exists x. split; [by left | done].
Qed.

Lemma wrapped_neq_bare (s : string) :
  ", params: { " +:+ s +:+ " }" <> ", " +:+ s.
Proof.
  intros Heq. apply (f_equal String.length) in Heq.
  rewrite !string_length_app in Heq. simpl in Heq. lia.
Qed.

(** The declarations [positionalFuncParams] joins. *)
Lemma positionalFuncParams_run types (ps : list NamedValue) w :
  exists tsTypes w',
    params_typed types ps w tsTypes w'
    /\ Task.traverseATs ps
         (fun param =>
            Task.map (fun tsType_ => name param +:+ ": " +:+ tsType_)
              (tsType types (type param) (nullable param))) w
       = (zip_with param_declaration ps tsTypes, w').
Proof.
  revert w. induction ps as [| param ps IH]; intros w.
  - exists [], w. split; [constructor | done].
  - cbn [Task.traverseATs]. unfold Task.map at 1.
    destruct (tsType types (type param) (nullable param) w)
      as [tsType_ w1] eqn:Htype.
    destruct (IH w1) as (tsTypes & w' & Htyped & ->).
    exists (tsType_ :: tsTypes), w'. split; [| done].
    by econstructor.
Qed.

(** C9. With the positional flag computed by [hasOnlyPositionalParams], as
    [generateTypeScript] does: a statement without parameters gets no
    parameter text, and the type client is not asked anything.  Otherwise
    every parameter is declared as its name, a colon and the type the type
    client gives it, in the order of the parameters, with [", "] between
    two declarations.  The declarations are wrapped in one
    [params: { .. }] argument exactly when some parameter's name holds no
    [$] followed by a digit, and follow the first argument as separate
    arguments exactly when every name holds one. *)
Theorem funcParams_shape types stmt w :
  let run := funcParams types stmt (hasOnlyPositionalParams stmt) w in
  match params stmt with
  | [] => run = (EmptyString, w)
  | _ :: _ =>
      exists tsTypes w',
        params_typed types (params stmt) w tsTypes w'
        /\ run.2 = w'
        /\ (run.1
            = ", params: { "
              +:+ join ", " (zip_with param_declaration (params stmt) tsTypes)
              +:+ " }"
            <-> exists param,
                  param ∈ params stmt
                  /\ ~ contains_dollar_digit (name param))
        /\ (run.1
            = ", "
              +:+ join ", " (zip_with param_declaration (params stmt) tsTypes)
            <-> forall param,
                  param ∈ params stmt -> contains_dollar_digit (name param))
  end.
Proof.
  cbv zeta. unfold funcParams.
  destruct (params stmt) as [| p0 ps] eqn:Hps; [done |].
  cbn [isEmpty]. rewrite <- Hps.
  destruct (positionalFuncParams_run types (params stmt) w)
    as (tsTypes & w' & Htyped & Hrun).
  exists tsTypes, w'. split; [done |].
  rewrite <- hasOnlyPositionalParams_spec.
  assert (Hex : (exists param, param ∈ params stmt
                               /\ ~ contains_dollar_digit (name param))
                <-> hasOnlyPositionalParams stmt = false).
  { split.
    - intros (param & Hin & Hno). apply not_true_iff_false.
      intros Hall. apply Hno.
      by apply (proj1 (hasOnlyPositionalParams_spec stmt) Hall).
    - intros Hf. unfold hasOnlyPositionalParams in Hf.
      apply forallb_false_exists in Hf as (param & Hin & Hno).
      exists param. split; [done |].
      rewrite <- matches_dollar_digits_spec. by rewrite Hno. }
  rewrite Hex.
  assert (Hpos : positionalFuncParams types stmt w
                 = (join ", "
                      (zip_with param_declaration (params stmt) tsTypes),
                    w')).
  { unfold positionalFuncParams. rewrite Task_map_run. by rewrite Hrun. }
  rewrite Task_map_run.
  destruct (hasOnlyPositionalParams stmt).
  - rewrite Hpos. cbn [fst snd]. split; [done |]. split.
    + split; [| done].
      intros Heq. symmetry in Heq. by apply wrapped_neq_bare in Heq.
    + done.
  - unfold namedFuncParams. rewrite Task_map_run, Hpos. cbn [fst snd].
    split; [done |]. split; [done |].
    split; [| done]. intros Heq. by apply wrapped_neq_bare in Heq.
Qed.
End CodegenFacts.

Section QueryValuesFacts.
Context {W : Type}.
Implicit Types (types : TypeClient W) (stmt : StatementDescription).
Import Emitted.

Lemma print_guarded (p serialize : string) :
  print (guarded p serialize)
  = p +:+ " && " +:+ serialize +:+ "(" +:+ p +:+ ")".
Proof. reflexivity. Qed.

Lemma eval_guarded {V} (truthy : V -> bool) (env : string -> V)
    (call : string -> V -> V) (p serialize : string) :
  eval truthy env call (guarded p serialize)
  = if truthy (env p)
    then (call serialize (env p), [(serialize, env p)])
    else (env p, []).
Proof. simpl. by destruct (truthy (env p)). Qed.

Lemma queryValues_lookup types stmt (target : CodegenTarget) (i : nat)
    (param : NamedValue) :
  params stmt !! i = Some param ->
  queryValues types stmt (hasOnlyPositionalParams stmt)
    (is_postgres target) (is_postgres target) !! i
  = Some (print (queryValue_expr types stmt target param)).
Proof.
  intros Hi. unfold queryValues.
  destruct (params stmt) as [| p0 ps] eqn:Hps; [by rewrite lookup_nil in Hi |].
  cbn [isEmpty]. rewrite <- Hps in *.
  change (List.map ?f ?l) with (f <$> l).
  rewrite list_lookup_fmap, Hi. simpl. f_equal.
  unfold queryValue_expr, param_ref, serialize_ref.
  destruct (getTransform types (oid (type param))) as [transform |];
    destruct (is_postgres target && isArray types (oid (type param)));
    rewrite ?print_guarded; cbn [print]; rewrite ?print_guarded;
    by rewrite ?string_app_assoc.
Qed.

(** C10. The query value emitted for a parameter [p] whose type has a
    registered transform is the guard [p && serialize(p)], where
    [serialize] is the transform's serialize function (reached through
    [sql.types.] for the postgres target).  Evaluating the guard calls the
    serialize function, once and on the parameter's value, when that value
    is truthy; when it is falsy (null, undefined) nothing is called and the
    value itself is the result.  For the postgres target a parameter of an
    array type has its expression wrapped in [sql.array(..)]; for the pg
    target nothing is wrapped. *)
Theorem queryValues_serialize_guard types stmt (target : CodegenTarget)
    (i : nat) (param : NamedValue) :
  params stmt !! i = Some param ->
  let p := param_ref stmt param in
  let inner :=
    match getTransform types (oid (type param)) with
    | Some transform => guarded p (serialize_ref target transform)
    | None => Ref p
    end in
  queryValues types stmt (hasOnlyPositionalParams stmt)
    (is_postgres target) (is_postgres target) !! i
  = Some (if is_postgres target && isArray types (oid (type param))
          then "sql.array(" +:+ print inner +:+ ")"
          else print inner)
  /\ forall transform,
       getTransform types (oid (type param)) = Some transform ->
       let serialize := serialize_ref target transform in
       print inner = p +:+ " && " +:+ serialize +:+ "(" +:+ p +:+ ")"
       /\ forall V (truthy : V -> bool) (env : string -> V)
                 (call : string -> V -> V),
            eval truthy env call inner
            = if truthy (env p)
              then (call serialize (env p), [(serialize, env p)])
              else (env p, []).
Proof.
  intros Hi p inner. split.
  - rewrite (queryValues_lookup _ _ _ _ _ Hi). unfold queryValue_expr.
    fold p. fold inner.
    by destruct (is_postgres target && isArray types (oid (type param))).
  - intros transform Ht serialize. subst inner. rewrite Ht.
    split; [apply print_guarded |]. intros. apply eval_guarded.
Qed.
End QueryValuesFacts.

(** ** The analysis pipeline *)

Section PipelineFacts.
Context {W Sql SchemaClient : Type}.
Variable preprocessSQL : string -> Either.Either string Processed.t.
Variable describeStatement :
  Sql -> string -> list string ->
  TaskEither.TaskEither W string StatementDescription.
Variable inferStatementNullability :
  SchemaClient -> StatementDescription ->
  Task.Task W (Warn.Warn StatementDescription).

(** The pipeline of stages that are never rejected is the pipeline above. *)
Lemma sqlToStatementDescription_total
    (clients : Clients.Clients W Sql SchemaClient) (sql : string) (w : W) :
  Rejecting.sqlToStatementDescription preprocessSQL
    (fun postgres sql paramNames =>
       Rejecting.total (describeStatement postgres sql paramNames))
    (fun schema stmt =>
       Rejecting.total (inferStatementNullability schema stmt))
    clients sql w
  = Rejecting.total
      (sqlToStatementDescription preprocessSQL describeStatement
         inferStatementNullability clients sql) w.
Proof.
  unfold Rejecting.sqlToStatementDescription, Rejecting.TaskEither_chain,
    Rejecting.rightTask, Rejecting.chain, Rejecting.map, Rejecting.of_,
    Rejecting.total, sqlToStatementDescription, TaskEither.chain,
    TaskEither.rightTask, Task.map, Task.of_.
  destruct (preprocessSQL sql) as [e | processed]; [done |].
  destruct (describeStatement _ _ _ w) as [[e | stmt] w1]; [done |].
  destruct (validateStatement stmt) as [e | stmt']; [done |].
  by destruct (inferStatementNullability _ stmt' w1).
Qed.
End PipelineFacts.

Section RejectingPipelineFacts.
Context {W Sql SchemaClient : Type}.
Variable preprocessSQL : string -> Either.Either string Processed.t.
Variable describeStatement :
  Sql -> string -> list string ->
  Rejecting.TaskEither W string StatementDescription.
Variable inferStatementNullability :
  SchemaClient -> StatementDescription ->
  Rejecting.Task W (Warn.Warn StatementDescription).

End RejectingPipelineFacts.

(** ** Clearing the caches *)

Section ClearCacheFacts.
Context {W Sql SchemaClient : Type}.
Variable typeClient :
  list (Z * Transform.t) -> Sql -> Task.Task W (TypeClient W).

(** C5, as the code has it.  [clearCache] builds a new type client, from
    the transforms of the old one and on the same connection, and returns
    it next to the connection and the catalog client it was given: those
    two are the very values passed in. *)
Theorem clearCache_recreates_type_client
    (clients : Clients.Clients W Sql SchemaClient) (w : W) :
  let fresh :=
    typeClient (getTransforms (Clients.types clients))
      (Clients.postgres clients) w in
  let result := Clients.clearCache typeClient clients w in
  Clients.types result.1 = fresh.1
  /\ result.2 = fresh.2
  /\ Clients.postgres result.1 = Clients.postgres clients
  /\ Clients.schema result.1 = Clients.schema clients.
Proof.
  simpl. unfold Clients.clearCache.
  by destruct (typeClient _ _ w).
Qed.
End ClearCacheFacts.

(** ** The catalog attribute query *)

#[global] Instance attnum_le_total : Total attnum_le.
Proof. intros r1 r2. unfold attnum_le. lia. Qed.

#[global] Instance attnum_le_trans : Transitive attnum_le.
Proof. intros r1 r2 r3. unfold attnum_le. lia. Qed.






Section TableColumnsFacts.
Context {W Sql : Type} (catalog_of : Sql -> W -> pg_catalog.t).

End TableColumnsFacts.

(** ** Loading the transform configuration *)

Section GetTransformsFacts.
Import JS.
Context {Num : Type} `{Countable Num}.
Variable num_truthy : Num -> bool.
Variable parseInt : string -> Num.

Lemma last_key_for_cons n k ks :
  last_key_for parseInt n (k :: ks)
  = match last_key_for parseInt n ks with
    | Some k' => Some k'
    | None => if decide (parseInt k = n) then Some k else None
    end.
Proof.
  unfold last_key_for. rewrite filter_cons.
  destruct (decide (parseInt k = n)); [| by destruct (last _)].
  by rewrite last_cons.
Qed.

Lemma last_key_for_Some n ks k :
  last_key_for parseInt n ks = Some k -> k ∈ ks /\ parseInt k = n.
Proof.
  unfold last_key_for. intros Hlast%last_Some_elem_of.
  by apply list_elem_of_filter in Hlast as [? ?].
Qed.

Lemma last_key_for_None n ks k :
  last_key_for parseInt n ks = None -> k ∈ ks -> parseInt k <> n.
Proof.
  unfold last_key_for. intros Hlast%last_None Hin Heq.
  assert (k ∈ filter (fun k => parseInt k = n) ks) as Hk
    by by apply list_elem_of_filter.
  rewrite Hlast in Hk. by apply elem_of_nil in Hk.
Qed.

Local Abbreviation loop := (Cli.getTransforms_loop num_truthy parseInt).

Lemma getTransforms_loop_right (transforms : JSON Num) (ks : list string)
    (map0 map : gmap Num (JSON Num)) :
  loop transforms ks map0 = inr map ->
  (forall k, k ∈ ks -> Cli.entry_ok num_truthy (get transforms k) = true)
  /\ forall n,
       map !! n = match last_key_for parseInt n ks with
                  | Some k => get transforms k
                  | None => map0 !! n
                  end.
Proof.
  revert map0. induction ks as [| key rest IH]; intros map0 Hloop.
  - injection Hloop as <-. split; [by intros k ?%elem_of_nil | done].
  - simpl in Hloop.
    destruct (get transforms key) as [v |] eqn:Hget; [| done].
    destruct (Cli.entry_ok num_truthy (Some v)) eqn:Hok; [| done].
    apply IH in Hloop as [Hall Hmap]. split.
    + intros k [-> | Hin]%elem_of_cons; [by rewrite Hget | auto].
    + intros n. rewrite Hmap, last_key_for_cons.
      destruct (last_key_for parseInt n rest); [done |].
      rewrite lookup_insert. by destruct (decide (parseInt key = n)).
Qed.

Lemma getTransforms_loop_left (transforms : JSON Num) (ks : list string)
    (map0 : gmap Num (JSON Num)) (message : string) :
  loop transforms ks map0 = inl message ->
  message = "Invalid transforms structure"
  /\ exists k, k ∈ ks /\ Cli.entry_ok num_truthy (get transforms k) = false.
Proof.
  revert map0. induction ks as [| key rest IH]; intros map0 Hloop; [done |].
  simpl in Hloop.
  destruct (get transforms key) as [v |] eqn:Hget.
  - destruct (Cli.entry_ok num_truthy (Some v)) eqn:Hok.
    + apply IH in Hloop as (-> & k & Hin & Hbad).
      split; [done |]. exists k. split; [by right | done].
    + injection Hloop as <-. split; [done |]. exists key.
      split; [by left | by rewrite Hget].
  - injection Hloop as <-. split; [done |]. exists key.
    split; [by left | by rewrite Hget].
Qed.

(** C7, as the code has it.  For a parsed object: loading fails, with
    "Invalid transforms structure", exactly when the value of some key is
    falsy or has a missing or falsy [tsType] or [serializeFunc]; otherwise
    the map it returns holds, at every number, the value of the last key
    that parses to that number, and nothing else.  So a key whose number no
    other key parses to has an entry with its own value.  A parsed number,
    string or boolean is refused with "Invalid transforms structure, should
    be an object". *)
Theorem getTransforms_parsed_map (transforms : JSON Num) :
  match transforms with
  | JObj _ =>
      match Cli.getTransforms_parsed num_truthy parseInt transforms with
      | inr map =>
          (forall k,
             k ∈ keys transforms ->
             Cli.entry_ok num_truthy (get transforms k) = true)
          /\ (forall n,
                map !! n
                = last_key_for parseInt n (keys transforms) ≫= get transforms)
          /\ (forall k,
                k ∈ keys transforms ->
                (forall k',
                   k' ∈ keys transforms -> parseInt k' = parseInt k ->
                   k' = k) ->
                map !! parseInt k = get transforms k)
      | inl message =>
          message = "Invalid transforms structure"
          /\ exists k,
               k ∈ keys transforms
               /\ Cli.entry_ok num_truthy (get transforms k) = false
      end
  | JBool _ | JNum _ | JStr _ =>
      Cli.getTransforms_parsed num_truthy parseInt transforms
      = inl "Invalid transforms structure, should be an object"
  | JNull | JArr _ => True
  end.
Proof.
  destruct transforms as [| b | n | s | items | props]; try done.
  unfold Cli.getTransforms_parsed. simpl typeof. cbn [String.eqb Ascii.eqb].
  simpl.
  destruct (loop (JObj props) (keys (JObj props)) ∅) as [message | map]
    eqn:Hloop.
  - by apply getTransforms_loop_left in Hloop.
  - apply getTransforms_loop_right in Hloop as [Hall Hmap].
    assert (Hn : forall n,
               map !! n
               = last_key_for parseInt n (keys (JObj props)) ≫= get (JObj props)).
    { intros n. rewrite Hmap.
      destruct (last_key_for parseInt n (keys (JObj props))); [done |].
      by rewrite lookup_empty. }
    split_and!; [done | done |].
    intros k Hin Huniq. rewrite Hn.
    destruct (last_key_for parseInt (parseInt k) (keys (JObj props))) as [k' |] eqn:E.
    + apply last_key_for_Some in E as [Hin' Heq].
      by rewrite (Huniq k' Hin' Heq).
    + by destruct (last_key_for_None _ _ k E Hin).
Qed.
End GetTransformsFacts.

(** ** The preprocessor *)

Section PreprocessFacts.
Import Preprocess.

Lemma flatten_cons (piece : string) (pieces : list string) :
  flatten (piece :: pieces) = piece +:+ flatten pieces.
Proof. reflexivity. Qed.

Lemma index_of_None n names : index_of n names = None <-> n ∉ names.
Proof.
  induction names as [| m names IH]; simpl.
  - split; [intros _ ?%elem_of_nil; done | done].
  - rewrite not_elem_of_cons. destruct (String.eqb_spec m n) as [-> | Hne].
    + split; [done | intros [? _]; done].
    + destruct (index_of n names); simpl.
      * split; [done |]. intros [_ Hnot]. by apply IH in Hnot.
      * split; [| done]. intros _. split; [done | by apply IH].
Qed.

Lemma index_of_Some n names i :
  index_of n names = Some i -> names !! i = Some n.
Proof.
  revert i. induction names as [| m names IH]; intros i; simpl; [done |].
  destruct (String.eqb_spec m n) as [-> | Hne].
  - by intros [= <-].
  - destruct (index_of n names) as [j |]; simpl; [| done].
    intros [= <-]. by apply IH.
Qed.

Lemma index_of_app_l n names more i :
  index_of n names = Some i -> index_of n (names ++ more) = Some i.
Proof.
  revert i. induction names as [| m names IH]; intros i; simpl; [done |].
  destruct (String.eqb m n); [done |].
  destruct (index_of n names) as [j |]; simpl; [| done].
  intros [= <-]. by rewrite (IH j).
Qed.

Lemma index_of_middle n names more :
  n ∉ names -> index_of n (names ++ n :: more) = Some (length names).
Proof.
  induction names as [| m names IH]; simpl.
  - intros _. by rewrite String.eqb_refl.
  - intros [Hne Hnot]%not_elem_of_cons.
    destruct (String.eqb_spec m n) as [-> | _]; [done |].
    by rewrite IH.
Qed.

Lemma elem_of_occurrences_cons n seg segs :
  n ∈ occurrences (seg :: segs)
  <-> seg = Param n \/ n ∈ occurrences segs.
Proof.
  unfold occurrences. simpl. destruct seg as [c | m]; simpl.
  - split; [auto | intros [? | ?]; done].
  - rewrite elem_of_cons. split.
    + intros [-> | ?]; auto.
    + intros [[= ->] | ?]; auto.
Qed.

(** The numbering pass, started from the names [names0]: it only appends
    names, never repeats one, ends with exactly the names it started with
    and those it met, and has written every segment as the final numbering
    renders it. *)
Lemma number_pass (segs : list Segment) (out0 : string)
    (names0 : list string) :
  NoDup names0 ->
  exists more,
    foldl number_step (out0, names0) segs
    = (out0 +:+ flatten (render (names0 ++ more) <$> segs), names0 ++ more)
    /\ NoDup (names0 ++ more)
    /\ forall n, n ∈ more <-> (n ∉ names0) /\ n ∈ occurrences segs.
Proof.
  revert out0 names0.
  induction segs as [| seg segs IH]; intros out0 names0 Hnd.
  - exists []. rewrite app_nil_r. simpl. split_and!; [| done |].
    + f_equal. induction out0 as [| c out0 IHo]; [done |].
      rewrite string_app_cons. by rewrite <- IHo.
    + intros n. split; [by intros ?%elem_of_nil | by intros [_ ?%elem_of_nil]].
  - destruct seg as [c | n]; cbn [foldl number_step].
    + destruct (IH (out0 +:+ String c EmptyString) names0 Hnd)
        as (more & -> & Hnd' & Hmore).
      exists more. split_and!; [| done |].
      * rewrite fmap_cons, flatten_cons. cbn [render].
        by rewrite string_app_assoc.
      * intros n. rewrite Hmore, elem_of_occurrences_cons.
        split; [intros [? ?]; auto | intros [? [? | ?]]; done].
    + destruct (index_of n names0) as [i |] eqn:Hidx.
      * destruct (IH (out0 +:+ "$" +:+ pretty (S i)) names0 Hnd)
          as (more & -> & Hnd' & Hmore).
        exists more. split_and!; [| done |].
        -- rewrite fmap_cons, flatten_cons. cbn [render].
           rewrite (index_of_app_l _ _ more _ Hidx).
           by rewrite !string_app_assoc.
        -- intros m. rewrite Hmore, elem_of_occurrences_cons.
           split; [intros [? ?]; auto |].
           intros [Hnot [[= ->] | ?]]; [| done].
           apply index_of_Some, list_elem_of_lookup_2 in Hidx. done.
      * apply index_of_None in Hidx.
        assert (NoDup (names0 ++ [n])) as Hnd1.
        { apply NoDup_app. split_and!; [done | | apply NoDup_singleton].
          by intros m Hm ->%list_elem_of_singleton. }
        destruct (IH (out0 +:+ "$" +:+ pretty (S (length names0)))
                    (names0 ++ [n]) Hnd1) as (more & Heq & Hnd' & Hmore).
        exists (n :: more). rewrite <- app_assoc in Heq, Hnd'.
        cbn [app] in Heq, Hnd'.
        split_and!; [| done |].
        -- rewrite Heq. rewrite fmap_cons, flatten_cons. cbn [render].
           rewrite (index_of_middle _ _ _ Hidx).
           by rewrite !string_app_assoc.
        -- intros m. rewrite elem_of_cons, Hmore, elem_of_occurrences_cons.
           rewrite elem_of_app, list_elem_of_singleton. split.
           ++ intros [-> | [Hnot Hocc]]; [auto |].
              split; [| auto]. intros ?. apply Hnot. auto.
           ++ intros [Hnot [[= ->] | Hocc]]; [auto |].
              destruct (decide (m = n)) as [-> | Hne]; [auto |].
              right. split; [| done]. intros [? | ?]; done.
Qed.

(** C4.  When the statement splits into the segments [segs], preprocessing
    succeeds, and: every occurrence of a name is replaced by the same
    placeholder [$k], where [k] is one more than the position of the name
    in [paramNames]; [paramNames] holds every name that occurs, once; so
    its length is the number of distinct names, whatever the number of
    occurrences; and different names get different placeholders. *)
Theorem preprocessSQL_one_slot_per_name (sql : string)
    (segs : list Segment) :
  tokenize sql = inr segs ->
  exists names,
    preprocessSQL sql
    = inr {| Processed.sql := flatten (render names <$> segs);
             Processed.paramNames := names |}
    /\ NoDup names
    /\ (forall n, n ∈ names <-> n ∈ occurrences segs)
    /\ length names = size (list_to_set (occurrences segs) : gset string)
    /\ (forall n,
          n ∈ occurrences segs ->
          exists i,
            names !! i = Some n
            /\ render names (Param n) = "$" +:+ pretty (S i))
    /\ (forall n m,
          n ∈ occurrences segs -> m ∈ occurrences segs ->
          render names (Param n) = render names (Param m) -> n = m).
Proof.
  intros Htok. unfold preprocessSQL. rewrite Htok.
  destruct (number_pass segs EmptyString [] (NoDup_nil_2))
    as (names & Heq & Hnd & Hnames).
  simpl in Heq, Hnd. rewrite Heq.
  assert (Hin : forall n, n ∈ names <-> n ∈ occurrences segs).
  { intros n. rewrite Hnames. split; [by intros [_ ?] |].
    intros ?. split; [apply not_elem_of_nil | done]. }
  assert (Hslot : forall n,
             n ∈ occurrences segs ->
             exists i,
               names !! i = Some n
               /\ render names (Param n) = "$" +:+ pretty (S i)).
  { intros n Hocc. apply Hin in Hocc. simpl.
    destruct (index_of n names) as [i |] eqn:Hidx.
    - exists i. split; [by apply index_of_Some | done].
    - by apply index_of_None in Hidx. }
  exists names. split_and!; [done | done | done | | done |].
  - rewrite <- (size_list_to_set (C := gset string) names) by done.
    f_equal. apply set_eq. intros n. rewrite !elem_of_list_to_set. apply Hin.
  - intros n m Hn Hm Hrender.
    destruct (Hslot n Hn) as (i & Hi & Hri).
    destruct (Hslot m Hm) as (j & Hj & Hrj).
    rewrite Hri, Hrj in Hrender.
    apply (inj (String.append "$")) in Hrender.
    apply (inj pretty) in Hrender. injection Hrender as ->.
    congruence.
Qed.
End PreprocessFacts.

(** ** The warnings accumulator *)

(** C8. Combining two [Warn] values yields the diagnostics of the first
    followed by those of the second, next to the combined value; the
    combination is associative; a list of sub-analyses combined from left
    to right yields their diagnostics in list order; [map] and [pure] add
    no diagnostic; and [split] returns the value and the diagnostics as
    they are. *)
Theorem Warn_composition :
  (forall (A B C : Type) (f : A -> B -> C)
          (wa : Warn.Warn A) (wb : Warn.Warn B),
     Warn.split (Warn.map2 f wa wb)
     = (f (Warn.payload wa) (Warn.payload wb),
        Warn.warnings wa ++ Warn.warnings wb))
  /\ (forall (A B C : Type)
             (wa : Warn.Warn A) (wb : Warn.Warn B) (wc : Warn.Warn C),
        Warn.map2 (fun a bc => (a, bc.1, bc.2)) wa (Warn.map2 pair wb wc)
        = Warn.map2 (fun ab c => (ab.1, ab.2, c)) (Warn.map2 pair wa wb) wc)
  /\ (forall (T : Type) (ws : list (Warn.Warn T)),
        Warn.split (Warn.sequence ws)
        = (Warn.payload <$> ws, concat (Warn.warnings <$> ws)))
  /\ (forall (T : Type) (value : T) (diagnostics : list string),
        Warn.split {| Warn.payload := value; Warn.warnings := diagnostics |}
        = (value, diagnostics))
  /\ (forall (T : Type) (value : T), Warn.split (Warn.pure value) = (value, []))
  /\ (forall (A B : Type) (f : A -> B) (w : Warn.Warn A),
        Warn.split (Warn.map f w) = (f (Warn.payload w), Warn.warnings w)).
Proof.
  split_and!; try done.
  - intros A B C wa wb wc. unfold Warn.map2. simpl. by rewrite app_assoc.
  - intros T ws. unfold Warn.split.
    induction ws as [| w ws IH]; [done |].
    simpl. injection IH as -> ->. done.
Qed.

(** ** Concrete runs *)




(** C5, counterexample.  After [clearCache] the catalog client is the one
    that was passed in, cache included, not a new one: an analysis run on
    the returned clients still sees [age] as NOT NULL although the
    constraint is gone, where a new catalog client would not. *)
Lemma clearCache_keeps_catalog_cache :
  let clients' :=
    (Clients.clearCache ClearCacheExample.typeClient
       ClearCacheExample.clients ClearCacheExample.db_after).1 in
  Clients.schema clients' = ClearCacheExample.warm
  /\ Clients.schema clients' <> SchemaModel.schemaClient tt
  /\ ClearCacheExample.age_facts (Clients.schema clients')
       ClearCacheExample.db_after
     = Some {| SchemaModel.notNull := true; SchemaModel.hasDefault := false |}
  /\ ClearCacheExample.age_facts (SchemaModel.schemaClient tt)
       ClearCacheExample.db_after
     = Some {| SchemaModel.notNull := false; SchemaModel.hasDefault := false |}.
Proof.
  split_and!.
  - reflexivity.
  - intros Heq.
    apply (f_equal (fun c => SchemaModel.cache c !! ("public", "person")))
      in Heq.
    vm_compute in Heq. discriminate.
  - vm_compute. reflexivity.
  - vm_compute. reflexivity.
Qed.

(** C7, counterexample.  The keys ["1"] and ["01"] both parse to 1: loading
    succeeds, and the entry keyed 1 holds the value supplied for ["01"], not
    the one supplied for ["1"]. *)
Lemma colliding_keys_lose_a_value :
  exists map,
    Cli.getTransforms_parsed IntNum.truthy IntNum.parseInt
      TransformsExample.parsed = inr map
    /\ "1" ∈ JS.keys TransformsExample.parsed
    /\ JS.get TransformsExample.parsed "1"
       = Some (TransformsExample.entry "Foo" "serializeFoo")
    /\ map !! IntNum.parseInt "1"
       = Some (TransformsExample.entry "Bar" "serializeBar")
    /\ map !! IntNum.parseInt "1" <> JS.get TransformsExample.parsed "1".
Proof.
  eexists. split_and!.
  - vm_compute. reflexivity.
  - left.
  - reflexivity.
  - vm_compute. reflexivity.
  - vm_compute. discriminate.
Qed.

(** [null] passes the [typeof] test and has no key to visit. *)
Example getTransforms_parsed_null :
  Cli.getTransforms_parsed IntNum.truthy IntNum.parseInt JS.JNull = inr ∅.
Proof. reflexivity. Qed.

(** C4, witness: the statement of [PreprocessExample]. *)
Lemma preprocessSQL_one_slot_per_name_witness :
  Preprocess.tokenize PreprocessExample.statement
  = inr PreprocessExample.segments
  /\ exists names,
       Preprocess.preprocessSQL PreprocessExample.statement
       = inr {| Processed.sql :=
                  flatten (Preprocess.render names
                             <$> PreprocessExample.segments);
                Processed.paramNames := names |}
       /\ length names = 1%nat.
Proof.
  split; [vm_compute; reflexivity |].
  destruct (preprocessSQL_one_slot_per_name PreprocessExample.statement
              PreprocessExample.segments eq_refl)
    as (names & Heq & _ & _ & Hlen & _).
  exists names. split; [exact Heq |]. rewrite Hlen. vm_compute. reflexivity.
Defined.

Example preprocessSQL_two_uses :
  Preprocess.preprocessSQL PreprocessExample.statement
  = inr {| Processed.sql :=
             "SELECT name FROM person WHERE id = $1 OR boss = $1";
           Processed.paramNames := ["id"] |}.
Proof. vm_compute. reflexivity. Qed.

(** C10, witness: the statement of [QueryValuesExample], for postgres. *)
Lemma queryValues_serialize_guard_witness :
  params QueryValuesExample.stmt !! 0%nat = Some QueryValuesExample.tags
  /\ queryValues QueryValuesExample.types QueryValuesExample.stmt
       (hasOnlyPositionalParams QueryValuesExample.stmt) true true !! 0%nat
     = Some "sql.array(params.tags && sql.types.serializeTags(params.tags))".
Proof.
  split; [reflexivity |].
  exact (proj1 (queryValues_serialize_guard QueryValuesExample.types
                  QueryValuesExample.stmt postgres 0
                  QueryValuesExample.tags eq_refl)).
Defined.

Example validateStatement_two_conflicts :
  validateStatement
    {| sql := "SELECT b, a, b, a, c, b";
       params := [];
       columns :=
         (fun n => {| name := n; type := {| oid := 25 |}; nullable := true |})
           <$> ["b"; "a"; "b"; "a"; "c"; "b"];
       rowCount := many |}
  = inl "Duplicate output columns: a, b".
Proof. vm_compute. reflexivity. Qed.

Example tableColumns_person :
  CatalogExample.query "public" "person"
  = [CatalogExample.column (-1) "ctid" true;
     CatalogExample.column 1 "id" true;
     CatalogExample.column 2 "name" false].
Proof. vm_compute. reflexivity. Qed.

Example tableColumns_index_is_not_found :
  CatalogExample.query "public" "person_pkey" = [].
Proof. vm_compute. reflexivity. Qed.

Example tableColumns_unknown_table :
  CatalogExample.query "public" "invoice" = [].
Proof. vm_compute. reflexivity. Qed.

Example funcParams_named :
  (funcParams QueryValuesExample.types QueryValuesExample.stmt
     (hasOnlyPositionalParams QueryValuesExample.stmt) tt).1
  = ", params: { tags: Tag[] }".
Proof. vm_compute. reflexivity. Qed.

(** ** The modules of a directory *)

Lemma findIndex_from_spec {A} (pred : A -> bool) (l : list A) (i : Z) :
  (findIndex_from pred l i = -1 /\ forall x, x ∈ l -> pred x = false)
  \/ exists pre x post,
       l = pre ++ x :: post
       /\ (forall y, y ∈ pre -> pred y = false)
       /\ pred x = true
       /\ findIndex_from pred l i = i + Z.of_nat (length pre).
Proof.
  revert i. induction l as [| a l IH]; intros i; simpl.
  - left. split; [done | by intros x ?%elem_of_nil].
  - destruct (pred a) eqn:Ha.
    + right. exists [], a, l. simpl. split_and!; [done | | done | lia].
      by intros y ?%elem_of_nil.
    + destruct (IH (i + 1)) as [[Hnone Hall] | (pre & x & post & -> & Hpre & Hx & Hidx)].
      * left. split; [done |]. by intros x [-> | ?]%elem_of_cons; auto.
      * right. exists (a :: pre), x, post. simpl. split_and!; [done | | done | lia].
        by intros y [-> | ?]%elem_of_cons; auto.
Qed.

Lemma modifyAt_middle {A} (f : A -> A) (pre : list A) (x : A)
    (post : list A) :
  modifyAt (Z.of_nat (length pre)) f (pre ++ x :: post)
  = Some (pre ++ f x :: post).
Proof.
  unfold modifyAt. rewrite length_app. simpl.
  destruct (Z.ltb_spec (Z.of_nat (length pre)) 0) as [? | _]; [lia |].
  destruct (Z.leb_spec (Z.of_nat (length pre + S (length post)))
              (Z.of_nat (length pre))) as [? | _]; [lia |].
  simpl. rewrite Nat2Z.id, list_lookup_middle by done.
  f_equal. induction pre as [| a pre IH]; simpl; [done | by rewrite IH].
Qed.

Lemma modifyWhere_cases {A} (pred : A -> bool) (replacer : A -> A)
    (l : list A) :
  (modifyWhere pred replacer l = None /\ forall x, x ∈ l -> pred x = false)
  \/ exists pre x post,
       l = pre ++ x :: post
       /\ (forall y, y ∈ pre -> pred y = false)
       /\ pred x = true
       /\ modifyWhere pred replacer l = Some (pre ++ replacer x :: post).
Proof.
  unfold modifyWhere, fromNullable, findIndex. simpl.
  destruct (findIndex_from_spec pred l 0)
    as [[-> Hall] | (pre & x & post & -> & Hpre & Hx & ->)].
  - left. done.
  - right. exists pre, x, post. split_and!; [done.. |].
    rewrite Z.add_0_l. apply modifyAt_middle.
Qed.

(** X1. [modifyWhere] answers [None] exactly when no element satisfies the
    predicate (the -1 of [findIndex] is out of bounds for [modifyAt]);
    otherwise it replaces the first element that satisfies it, and only
    that one: the elements before and after stay as they are. *)
Theorem modifyWhere_first_match {A} (pred : A -> bool) (replacer : A -> A)
    (l : list A) :
  match modifyWhere pred replacer l with
  | None => forall x, x ∈ l -> pred x = false
  | Some l' =>
      exists pre x post,
        l = pre ++ x :: post
        /\ (forall y, y ∈ pre -> pred y = false)
        /\ pred x = true
        /\ l' = pre ++ replacer x :: post
  end.
Proof.
  destruct (modifyWhere_cases pred replacer l)
    as [[-> Hall] | (pre & x & post & Hl & Hpre & Hx & ->)]; [done |].
  by exists pre, x, post.
Qed.

Lemma replaceOrAddTsModule_cases (m : TsModule.t) (ms : list TsModule.t) :
  (replaceOrAddTsModule m ms = ms ++ [m]
   /\ forall x, x ∈ ms -> TsModule.sqlFileName x <> TsModule.sqlFileName m)
  \/ exists pre x post,
       ms = pre ++ x :: post
       /\ (forall y,
             y ∈ pre -> TsModule.sqlFileName y <> TsModule.sqlFileName m)
       /\ TsModule.sqlFileName x = TsModule.sqlFileName m
       /\ replaceOrAddTsModule m ms = pre ++ m :: post.
Proof.
  unfold replaceOrAddTsModule.
  destruct (modifyWhere_cases
              (fun mod_ =>
                 String.eqb (TsModule.sqlFileName mod_)
                   (TsModule.sqlFileName m))
              (fun _ => m) ms)
    as [[-> Hall] | (pre & x & post & -> & Hpre & Hx & ->)].
  - left. split; [done |]. intros x Hin. by apply String.eqb_neq, Hall.
  - right. exists pre, x, post. split_and!; [done | | by apply String.eqb_eq | done].
    intros y Hin. by apply String.eqb_neq, Hpre.
Qed.

(** X2. When no two modules of the list are for the same SQL file,
    [replaceOrAddTsModule] keeps it that way, and the new list holds the
    given module and exactly those old modules that are for another SQL
    file. *)
Theorem replaceOrAddTsModule_keeps_names_unique (m : TsModule.t)
    (ms : list TsModule.t) :
  NoDup (TsModule.sqlFileName <$> ms) ->
  NoDup (TsModule.sqlFileName <$> replaceOrAddTsModule m ms)
  /\ forall m',
       m' ∈ replaceOrAddTsModule m ms
       <-> m' = m
           \/ (m' ∈ ms
               /\ TsModule.sqlFileName m' <> TsModule.sqlFileName m).
Proof.
  intros Hnd.
  destruct (replaceOrAddTsModule_cases m ms)
    as [[-> Hall] | (pre & x & post & -> & Hpre & Hx & ->)].
  - split.
    + rewrite fmap_app. apply NoDup_app. split_and!; [done | | apply NoDup_singleton].
      intros n Hn1 Hn2%list_elem_of_singleton. subst n.
      apply list_elem_of_fmap in Hn1 as (y & Heq & Hy).
      symmetry in Heq. by apply (Hall y).
    + intros m'. rewrite elem_of_app, list_elem_of_singleton. split.
      * intros [Hin | ->]; [right | by left]. split; [done | by apply Hall].
      * intros [-> | [Hin _]]; auto.
  - rewrite fmap_app, fmap_cons in Hnd. rewrite fmap_app, fmap_cons.
    split; [by rewrite <- Hx |].
    apply NoDup_app in Hnd as (_ & Hdisj & [Hx_post _]%NoDup_cons).
    intros m'. rewrite !elem_of_app, !elem_of_cons. split.
    + intros [Hin | [-> | Hin]]; [right | by left | right].
      * split; [auto |]. rewrite <- Hx. intros Heq.
        apply (Hdisj (TsModule.sqlFileName m')); [by apply list_elem_of_fmap_2 |].
        rewrite Heq. left.
      * split; [auto |]. rewrite <- Hx. intros Heq. apply Hx_post.
        rewrite <- Heq. by apply list_elem_of_fmap_2.
    + intros [-> | [[Hin | [-> | Hin]] Hne]]; auto. by rewrite Hx in Hne.
Qed.

(** X2, witness: the modules of [TsModuleExample]. *)
Lemma replaceOrAddTsModule_keeps_names_unique_witness :
  NoDup (TsModule.sqlFileName <$> TsModuleExample.modules)
  /\ NoDup (TsModule.sqlFileName
            <$> replaceOrAddTsModule TsModuleExample.changed
                  TsModuleExample.modules).
Proof.
  assert (Hnd : NoDup (TsModule.sqlFileName <$> TsModuleExample.modules)).
  { apply (bool_decide_unpack _). vm_compute. exact I. }
  split; [exact Hnd |].
  exact (proj1 (replaceOrAddTsModule_keeps_names_unique
                  TsModuleExample.changed TsModuleExample.modules Hnd)).
Defined.


Lemma removeTsModule_app name ms1 ms2 :
  removeTsModule name (ms1 ++ ms2)
  = removeTsModule name ms1 ++ removeTsModule name ms2.
Proof. unfold removeTsModule. apply List.filter_app. Qed.

Lemma removeTsModule_cons_same name m ms :
  TsModule.sqlFileName m = name ->
  removeTsModule name (m :: ms) = removeTsModule name ms.
Proof. intros <-. unfold removeTsModule. simpl. by rewrite String.eqb_refl. Qed.

(** X3. Removing the modules of an SQL file undoes [replaceOrAddTsModule]
    for that file: after either, the list is the old one without the
    modules of that file. *)
Theorem removeTsModule_replaceOrAddTsModule (m : TsModule.t)
    (ms : list TsModule.t) :
  removeTsModule (TsModule.sqlFileName m) (replaceOrAddTsModule m ms)
  = removeTsModule (TsModule.sqlFileName m) ms.
Proof.
  destruct (replaceOrAddTsModule_cases m ms)
    as [[-> Hall] | (pre & x & post & -> & Hpre & Hx & ->)].
  - rewrite removeTsModule_app, (removeTsModule_cons_same _ m []) by done.
    apply app_nil_r.
  - rewrite !removeTsModule_app, !removeTsModule_cons_same by done. done.
Qed.

(** X4. [replaceOrAddTsModule] is idempotent: registering the same module
    a second time changes nothing. *)
Theorem replaceOrAddTsModule_idempotent (m : TsModule.t)
    (ms : list TsModule.t) :
  replaceOrAddTsModule m (replaceOrAddTsModule m ms)
  = replaceOrAddTsModule m ms.
Proof.
  assert (Hfound : forall pre post,
             (forall y, y ∈ pre ->
                TsModule.sqlFileName y <> TsModule.sqlFileName m) ->
             replaceOrAddTsModule m (pre ++ m :: post) = pre ++ m :: post).
  { intros pre post Hpre.
    destruct (replaceOrAddTsModule_cases m (pre ++ m :: post))
      as [[_ Hall] | (pre' & x & post' & Heq & Hpre' & Hx & ->)].
    - destruct (Hall m); [| done]. rewrite elem_of_app, elem_of_cons. auto.
    - assert (Hlen : length pre = length pre').
      { destruct (Nat.lt_trichotomy (length pre) (length pre'))
          as [Hlt | [? | Hgt]]; [| done |].
        - assert (pre' !! length pre = Some m) as Hm.
          { rewrite <- (lookup_app_l pre' (x :: post')), <- Heq by done.
            by apply list_lookup_middle. }
          apply list_elem_of_lookup_2 in Hm. by destruct (Hpre' m Hm).
        - assert (pre !! length pre' = Some x) as Hxin.
          { rewrite <- (lookup_app_l pre (m :: post)), Heq by done.
            by apply list_lookup_middle. }
          apply list_elem_of_lookup_2 in Hxin. by destruct (Hpre x Hxin). }
      apply app_inj_1 in Heq as [-> Heq]; [| done].
      injection Heq as <- <-. done. }
  destruct (replaceOrAddTsModule_cases m ms)
    as [[-> Hall] | (pre & x & post & -> & Hpre & Hx & ->)];
    by apply Hfound.
Qed.

(** X5. A directory tree "contains SQL files" exactly when some directory
    of the tree has a module. *)
Theorem moduleDirContainsSqlFiles_iff (dir : TsModuleDir.t) :
  moduleDirContainsSqlFiles dir = true <-> exists m, m ∈ all_modules dir.
Proof.
  revert dir. fix IH 1. intros [dirPath nestedDirs modules hasErrors].
  simpl. rewrite orb_true_iff, Nat.ltb_lt.
  assert (Hnested :
            existsb moduleDirContainsSqlFiles nestedDirs = true
            <-> exists m, m ∈ flat_map all_modules nestedDirs).
  { induction nestedDirs as [| d ds IHds]; simpl.
    - split; [done | by intros [m ?%elem_of_nil]].
    - rewrite orb_true_iff, IHds, (IH d). split.
      + intros [[m Hm] | [m Hm]]; exists m; rewrite elem_of_app; auto.
      + intros [m [Hm | Hm]%elem_of_app]; eauto. }
  rewrite Hnested. split.
  - intros [Hlen | [m Hm]].
    + destruct modules as [| m modules]; [simpl in Hlen; lia |].
      exists m. left.
    + exists m. rewrite elem_of_app. auto.
  - intros [m [Hm | Hm]%elem_of_app]; [left | eauto].
    destruct modules; [by apply elem_of_nil in Hm | simpl; lia].
Qed.

(** ** File extensions, string literals, imports *)

Lemma split_nonempty (sep : ascii) (s : string) : split sep s <> [].
Proof.
  induction s as [| c s IH]; simpl; [done |].
  destruct (Ascii.eqb c sep); [done |]. by destruct (split sep s).
Qed.

Lemma join_cons (sep piece : string) (pieces : list string) :
  pieces <> [] ->
  join sep (piece :: pieces) = piece +:+ sep +:+ join sep pieces.
Proof. by destruct pieces. Qed.

Lemma join_split (sep : ascii) (s : string) :
  join (String sep EmptyString) (split sep s) = s.
Proof.
  induction s as [| c s IH]; [done |].
  pose proof (split_nonempty sep s) as Hne. cbn [split].
  destruct (Ascii.eqb_spec c sep) as [-> | _].
  - rewrite join_cons, IH by done. done.
  - destruct (split sep s) as [| piece pieces]; [done |].
    destruct pieces as [| piece' pieces].
    + unfold join in *. simpl in *. by rewrite IH.
    + rewrite join_cons in * by done. rewrite string_app_cons. by rewrite IH.
Qed.

Lemma split_pieces_without_sep (sep : ascii) (s : string) :
  Forall (fun piece => contains_char sep piece = false) (split sep s).
Proof.
  induction s as [| c s IH]; simpl.
  - by constructor.
  - destruct (Ascii.eqb c sep) eqn:Hc.
    + by constructor.
    + destruct (split sep s) as [| piece pieces].
      { constructor; [simpl; by rewrite Hc | constructor]. }
      inversion_clear IH. constructor; [| done]. simpl. by rewrite Hc.
Qed.

(** X6. [extensions] cuts its argument at the commas: the pieces between
    the commas, joined by commas again, give the argument back; there is at
    least one piece (the empty one for the empty argument); no piece holds
    a comma; and the extensions are the pieces with a dot in front. *)
Theorem extensions_pieces (e : string) :
  exists pieces,
    pieces <> []
    /\ join "," pieces = e
    /\ Forall (fun piece => contains_char "," piece = false) pieces
    /\ extensions e = (fun ext => "." +:+ ext) <$> pieces.
Proof.
  exists (split "," e). split_and!.
  - apply split_nonempty.
  - apply join_split.
  - apply split_pieces_without_sep.
  - done.
Qed.

Lemma replace_first_absent (c : ascii) (by_ s : string) :
  contains_char c s = false -> replace_first c by_ s = s.
Proof.
  induction s as [| d s IH]; simpl; [done |].
  intros [Hd Hs]%orb_false_iff. rewrite Hd. by rewrite IH.
Qed.

Lemma replace_first_length (c : ascii) (by_ s : string) :
  String.length (replace_first c by_ s)
  = if contains_char c s
    then (String.length s + String.length by_ - 1)%nat
    else String.length s.
Proof.
  induction s as [| d s IH]; simpl; [done |].
  destruct (Ascii.eqb d c); simpl.
  - rewrite string_length_app. lia.
  - rewrite IH. destruct (contains_char c s) eqn:Hs; [| done].
    destruct s; simpl in *; [done | lia].
Qed.

Lemma contains_char_app (c : ascii) (s1 s2 : string) :
  contains_char c (s1 +:+ s2) = contains_char c s1 || contains_char c s2.
Proof.
  induction s1 as [| d s1 IH]; [done |].
  rewrite string_app_cons. simpl. by rewrite IH, orb_assoc.
Qed.

Lemma contains_char_replace_first (c d : ascii) (by_ s : string) :
  Ascii.eqb d c = false -> contains_char c by_ = false ->
  contains_char c (replace_first d by_ s) = contains_char c s.
Proof.
  intros Hdc Hby. induction s as [| a s IH]; simpl; [done |].
  destruct (Ascii.eqb_spec a d) as [-> | Hne].
  - rewrite contains_char_app, Hby, Hdc. done.
  - simpl. by rewrite IH.
Qed.

Lemma replace_first_escaped (c : ascii) (s : string) :
  first_escaped c s (replace_first c (String "\" (String c EmptyString)) s).
Proof.
  unfold first_escaped.
  induction s as [| d s IH]; [by left |]. cbn [replace_first contains_char].
  destruct (Ascii.eqb_spec d c) as [-> | Hne].
  - right. by exists EmptyString, s.
  - destruct IH as [[Hno ->] | (pre & post & -> & Hpre & ->)].
    + left. by rewrite Hno.
    + right. exists (String d pre), post. split_and!; [done | | done].
      cbn [contains_char]. rewrite Hpre.
      by destruct (Ascii.eqb_spec d c).
Qed.

Lemma replace_first_escape_firsts (bs q : bool) (s : string) :
  (if q then fun x => x else replace_first "'" "\'")
    ((if bs then fun x => x else replace_first "\" "\\") s)
  = escape_firsts bs q s.
Proof.
  revert bs q. induction s as [| c s IH]; intros bs q.
  - by destruct bs, q.
  - cbn [escape_firsts].
    destruct (Ascii.eqb_spec c "\") as [-> | Hbs].
    + destruct bs; cbn [andb negb].
      * rewrite <- (IH true q). destruct q; [done |].
        by cbn [replace_first Ascii.eqb Bool.eqb andb].
      * rewrite <- (IH true q). cbn [replace_first].
        rewrite Ascii.eqb_refl. destruct q; [done |].
        change ("\\" +:+ s) with (String "\" (String "\" s)).
        by cbn [replace_first Ascii.eqb Bool.eqb andb].
    + cbn [andb]. destruct (Ascii.eqb_spec c "'") as [-> | Hq].
      * destruct q; cbn [andb negb].
        -- rewrite <- (IH bs true). destruct bs; [done |].
           by cbn [replace_first Ascii.eqb Bool.eqb andb].
        -- rewrite <- (IH bs true).
           destruct bs; by cbn [replace_first Ascii.eqb Bool.eqb andb].
      * cbn [andb]. rewrite <- (IH bs q).
        assert (Hc1 : Ascii.eqb c "\" = false) by by apply Ascii.eqb_neq.
        assert (Hc2 : Ascii.eqb c "'" = false) by by apply Ascii.eqb_neq.
        destruct bs, q; cbn [replace_first]; rewrite ?Hc1, ?Hc2;
          cbn [replace_first]; by rewrite ?Hc2.
Qed.

(** X7. [stringLiteral] puts the name between two quotes and escapes the
    first backslash and the first quote of the name, no more.  A backslash
    is put in front of the first backslash of the name, then one in front
    of the first quote of the text so obtained, which is the first quote of
    the name: the text between the quotes is the name read once with a
    backslash put in front of the first backslash and of the first quote.
    So the literal is as long as the name plus the two quotes, plus one
    when the name holds a backslash, plus one when it holds a quote; and a
    name with neither is quoted as it is. *)
Theorem stringLiteral_escapes_first_only (str : string) :
  (exists doubled escaped,
      first_escaped "\" str doubled
      /\ first_escaped "'" doubled escaped
      /\ stringLiteral str = "'" +:+ escaped +:+ "'")
  /\ stringLiteral str = "'" +:+ escape_firsts false false str +:+ "'"
  /\ String.length (stringLiteral str)
     = (String.length str + 2
        + (if contains_char "\" str then 1 else 0)
        + (if contains_char "'" str then 1 else 0))%nat
  /\ (contains_char "\" str = false -> contains_char "'" str = false ->
      stringLiteral str = "'" +:+ str +:+ "'").
Proof.
  unfold stringLiteral. split_and!.
  - exists (replace_first "\" "\\" str),
      (replace_first "'" "\'" (replace_first "\" "\\" str)).
    split_and!; [apply replace_first_escaped.. | done].
  - by rewrite <- (replace_first_escape_firsts false false).
  - rewrite !string_length_app, !replace_first_length.
    rewrite contains_char_replace_first by done.
    assert (Hpos : forall c,
               contains_char c str = true -> (1 <= String.length str)%nat).
    { intros c. destruct str; simpl; [done | lia]. }
    pose proof (Hpos "\"%char) as Hb. pose proof (Hpos "'"%char) as Hq.
    destruct (contains_char "\" str), (contains_char "'" str);
      simpl; try specialize (Hb eq_refl); try specialize (Hq eq_refl); lia.
  - intros Hb Hq. rewrite (replace_first_absent "\") by done.
    by rewrite replace_first_absent.
Qed.

Lemma elem_of_uniq (x : string) (l : list string) : x ∈ uniq l <-> x ∈ l.
Proof.
  induction l as [| y l IH]; simpl; [done |].
  rewrite !elem_of_cons, list_elem_of_filter, IH.
  destruct (decide (x = y)); tauto.
Qed.

Lemma NoDup_uniq (l : list string) : NoDup (uniq l).
Proof.
  induction l as [| y l IH]; simpl; [constructor |].
  constructor.
  - rewrite list_elem_of_filter. by intros [? _].
  - by apply NoDup_filter.
Qed.

(** X8. The generated file imports nothing twice and declares no serialize
    function twice: [extraImports] and [serializeFuncs] list every entry
    once.  The imports are exactly the non-empty [import]s of the
    registered transforms, and every registered transform has its
    serialize function declared. *)
Theorem extraImports_serializeFuncs_once {W : Type} (types : TypeClient W) :
  NoDup (extraImports types)
  /\ NoDup (serializeFuncs types)
  /\ (forall i,
        i ∈ extraImports types
        <-> i <> EmptyString
            /\ exists oid transform,
                 (oid, transform) ∈ getTransforms types
                 /\ Transform.import transform = Some i)
  /\ (forall oid transform,
        (oid, transform) ∈ getTransforms types ->
        Transform.serializeFunc transform +:+ ": (_: "
        +:+ Transform.tsType transform +:+ ") => string"
        ∈ serializeFuncs types).
Proof.
  unfold extraImports, serializeFuncs. split_and!; try apply NoDup_uniq.
  - intros i. rewrite elem_of_uniq, list_elem_of_omap. split.
    + intros ([oid transform] & Hin & Hi).
      destruct (Transform.import transform) as [j |] eqn:Hj; [| done].
      destruct (String.eqb_spec j EmptyString) as [-> | Hne]; [done |].
      injection Hi as <-. split; [done |]. by exists oid, transform.
    + intros (Hne & oid & transform & Hin & Hi).
      exists (oid, transform). split; [done |]. rewrite Hi.
      by destruct (String.eqb_spec i EmptyString).
  - intros oid transform Hin. rewrite elem_of_uniq.
    change (List.map ?f ?l) with (f <$> l).
    apply list_elem_of_fmap. by exists (oid, transform).
Qed.

Section GenerateTSCodeFacts.
Context {W Sql SchemaClient : Type}.
Variable runPrettier : string -> string -> Task.Task W string.
Variable generators : CodegenTarget -> GeneratorOptions -> string.

(** X9. Generating the code of a file cannot fail: [generateTSCode] always
    answers [Right].  Without options it answers what [generateTypeScript]
    produces for the target [pg] and the module ['pg'], unformatted. *)
Theorem generateTSCode_never_left
    (clients : Clients.Clients W Sql SchemaClient)
    (sourceFileName : string) (stmt : StatementDescription)
    (funcName : string) (options : option TSCodeOptions.t) (w : W) :
  Either.isLeft
    (generateTSCode runPrettier generators clients sourceFileName stmt
       funcName options w).1 = false
  /\ generateTSCode runPrettier generators clients sourceFileName stmt
       funcName None w
     = (inr (generateTypeScript generators (Clients.types clients)
               sourceFileName pg "pg" funcName stmt w).1,
        (generateTypeScript generators (Clients.types clients)
           sourceFileName pg "pg" funcName stmt w).2).
Proof.
  unfold generateTSCode, TaskEither.chain, TaskEither.rightTask,
    TaskEither.right, Task.map, Task.of_.
  split.
  - destruct (generateTypeScript _ _ _ _ _ _ _ w) as [code w1].
    destruct (options ≫= TSCodeOptions.prettierFileName); [| done].
    by destruct (runPrettier _ code w1).
  - simpl. by destruct (generateTypeScript _ _ _ _ _ _ _ w).
Qed.
End GenerateTSCodeFacts.

(** ** Files on disk *)

Section FileFacts.
Context {E Sql SchemaClient : Type}.
Variable path_join : string -> string -> string.
Variable path_basename : string -> string.
Variable path_relative : string -> string -> string.
Variable path_parse : string -> ParsedPath.t.
Variable path_format : FormatInput.t -> string.
Variable camelCase : string -> string.
Variable preprocessSQL : string -> Either.Either string Processed.t.
Variable describeStatement :
  Sql -> string -> list string ->
  TaskEither.TaskEither E string StatementDescription.
Variable inferStatementNullability :
  SchemaClient -> StatementDescription ->
  Task.Task E (Warn.Warn StatementDescription).
Variable generators : CodegenTarget -> GeneratorOptions -> string.
Variable runPrettier : string -> string -> Task.Task E string.
Variable Warn_format : list string -> bool -> nat -> string.
Variable sortByTsFileName : list TsModule.t -> list TsModule.t.

Local Abbreviation World := (Node.World E).
Local Abbreviation tsPath_of := (getOutputPath path_parse path_format).
Local Abbreviation index_path := (fun dirPath => path_join dirPath "index.ts").

(** X10. A file is out of date unless it exists with exactly the new
    contents; asking leaves the world as it is; and right after the
    contents have been written the file is up to date for them and out of
    date for any other contents. *)
Theorem isFileOutOfDate_after_write (filePath newContents : string)
    (w : World) :
  ((isFileOutOfDate filePath newContents w).1 = false
   <-> Node.files w !! filePath = Some newContents)
  /\ (isFileOutOfDate filePath newContents w).2 = w
  /\ (isFileOutOfDate filePath newContents
        (Node.writeFile filePath newContents w).2).1 = false
  /\ (forall other,
        other <> newContents ->
        (isFileOutOfDate filePath other
           (Node.writeFile filePath newContents w).2).1 = true).
Proof.
  unfold isFileOutOfDate, Node.readFile, Node.writeFile. simpl.
  split_and!.
  - rewrite negb_false_iff. apply bool_decide_eq_true.
  - done.
  - rewrite lookup_insert_eq. by rewrite bool_decide_eq_true_2.
  - intros other Hne. rewrite lookup_insert_eq.
    rewrite bool_decide_eq_false_2; [done | congruence].
Qed.

(** [maybeWriteIndexModule] hands back its modules and touches no file but
    the index of the directory. *)
Lemma maybeWriteIndexModule_frame (write : bool) (dirPath : string)
    (nestedDirs : list TsModuleDir.t) (tsModules : list TsModule.t)
    (prettify : bool) (w : World) :
  let run :=
    maybeWriteIndexModule path_join path_relative path_parse runPrettier
      sortByTsFileName write dirPath nestedDirs tsModules prettify w in
  run.1 = tsModules
  /\ (forall p,
        p <> index_path dirPath ->
        Node.files run.2 !! p = Node.files w !! p).
Proof.
  simpl. unfold maybeWriteIndexModule.
  destruct (write && _); [| done].
  unfold Task.map, Task.chain, Task.of_, Node.on_outside, isFileOutOfDate,
    Node.readFile, Node.print, Node.writeFile.
  destruct (indexModuleTS _ _ _ _ _ _ _ (Node.outside w)) as [code e1].
  simpl. case_bool_decide as Hup; simpl; [done |].
  split; [done |]. intros p Hp. by rewrite lookup_insert_ne.
Qed.

(** X11. [maybeWriteIndexModule] hands back the modules it was given, in
    the order it was given them, and touches no file but [index.ts] of the
    directory.  When writing is off, or the directory has no module and no
    nested directory with SQL files, nothing at all happens.  Otherwise
    [index.ts] holds the generated index afterwards, and "Writing .." is
    logged exactly when the file did not already hold it. *)
Theorem maybeWriteIndexModule_effect (write : bool) (dirPath : string)
    (nestedDirs : list TsModuleDir.t) (tsModules : list TsModule.t)
    (prettify : bool) (w : World) :
  let tsPath := index_path dirPath in
  let run :=
    maybeWriteIndexModule path_join path_relative path_parse runPrettier
      sortByTsFileName write dirPath nestedDirs tsModules prettify w in
  let code :=
    (indexModuleTS path_relative path_parse runPrettier dirPath
       (List.filter moduleDirContainsSqlFiles nestedDirs)
       (sortByTsFileName tsModules)
       (if prettify then Some tsPath else None) (Node.outside w)).1 in
  run.1 = tsModules
  /\ (forall p, p <> tsPath -> Node.files run.2 !! p = Node.files w !! p)
  /\ if write
        && ((0 <? length tsModules)%nat
            || existsb moduleDirContainsSqlFiles nestedDirs)
     then
       Node.files run.2 !! tsPath = Some code
       /\ Node.console run.2
          = Node.console w
            ++ (if bool_decide (Node.files w !! tsPath = Some code)
                then []
                else [(Node.log, "Writing " +:+ tsPath)])
     else run.2 = w.
Proof.
  simpl. unfold maybeWriteIndexModule.
  destruct (write && _); [| done].
  unfold Task.map, Task.chain, Task.of_, Node.on_outside, isFileOutOfDate,
    Node.readFile, Node.print, Node.writeFile.
  destruct (indexModuleTS _ _ _ _ _ _ _ (Node.outside w)) as [code e1].
  simpl. case_bool_decide as Hup; simpl.
  - split_and!; [done | done | done | by rewrite app_nil_r].
  - split_and!; [done | | by rewrite lookup_insert_eq | done].
    intros p Hp. by rewrite lookup_insert_ne.
Qed.

(** X12. [processSQLDirectory] keeps the path and the nested directories
    it was given, keeps the modules of the files that succeeded, in order,
    and flags the directory as having errors exactly when some file
    failed. *)
Theorem processSQLDirectory_result (dirPath : string)
    (nestedDirs : list TsModuleDir.t) (modules : list (option TsModule.t))
    (options : Options.t) (w : World) :
  let dir :=
    (processSQLDirectory path_join path_relative path_parse runPrettier
       sortByTsFileName dirPath nestedDirs modules options w).1 in
  TsModuleDir.dirPath dir = dirPath
  /\ TsModuleDir.nestedDirs dir = nestedDirs
  /\ (forall m, m ∈ TsModuleDir.modules dir <-> Some m ∈ modules)
  /\ Some <$> TsModuleDir.modules dir
     = List.filter (fun m => match m with Some _ => true | None => false end)
         modules
  /\ (TsModuleDir.hasErrors dir = true <-> None ∈ modules)
  /\ (TsModuleDir.hasErrors dir = false
      <-> length (TsModuleDir.modules dir) = length modules).
Proof.
  simpl. unfold processSQLDirectory. rewrite Task_map_run. simpl.
  pose proof (maybeWriteIndexModule_frame (Options.index options) dirPath
                nestedDirs (omap (fun m => m) modules)
                (Options.prettify options) w) as [-> _].
  split_and!; [done | done | | | |].
  - intros m. rewrite list_elem_of_omap. split.
    + by intros (x & Hx & ->).
    + intros Hm. by exists (Some m).
  - induction modules as [| [m |] modules IH]; simpl; [done | by f_equal | done].
  - induction modules as [| [m |] modules IH]; simpl.
    + split; [done | by intros ?%elem_of_nil].
    + rewrite IH, elem_of_cons. split; [auto | by intros [? | ?]].
    + split; [intros _; left | done].
  - assert (Hle : forall l : list (option TsModule.t),
               (length (omap (fun m => m) l) <= length l)%nat).
    { intros l. induction l as [| [m |] l IHl]; cbn in *; lia. }
    induction modules as [| [m |] modules IH]; cbn in *.
    + done.
    + destruct IH as [IH1 IH2]. split.
      * intros Hf. f_equal. by apply IH1.
      * intros [= Hlen]. by apply IH2.
    + split; [done |]. intros Hlen. pose proof (Hle modules). cbn in *. lia.
Qed.

Local Abbreviation run_read :=
  (processSQLFile_read path_basename path_parse path_format camelCase
     preprocessSQL describeStatement inferStatementNullability generators
     runPrettier Warn_format).
Local Abbreviation run_file :=
  (processSQLFile path_basename path_parse path_format camelCase
     preprocessSQL describeStatement inferStatementNullability generators
     runPrettier Warn_format).
Local Abbreviation compiled :=
  (compile path_basename path_parse path_format camelCase preprocessSQL
     describeStatement inferStatementNullability generators runPrettier).
Local Abbreviation the_module :=
  (module_of path_basename path_parse path_format camelCase).

Lemma unlink_files (path : string) (w : World) :
  Node.files (Node.unlink path w).2 = delete path (Node.files w).
Proof.
  unfold Node.unlink. destruct (Node.files w !! path) eqn:Hp; [done |].
  simpl. by rewrite delete_id.
Qed.

Local Ltac error_tail checkOnly w :=
  destruct checkOnly; simpl;
  [ split_and!; [done | done |]; rewrite !elem_of_app; right; left
  | unfold tryCatch, Node.unlink; simpl;
    destruct (Node.files w !! _) eqn:?; simpl;
    (split_and!; [done | done || by rewrite delete_id |]);
    rewrite !elem_of_app; left; right; left ].

(** What [processSQLFile] does once it has read the SQL text, by what the
    analysis and the generation answer. *)
Lemma processSQLFile_read_run
    (clients : Clients.Clients E Sql SchemaClient) (filePath : string)
    (checkOnly : bool) (options : Options.t) (sql : string) (w : World) :
  let tsPath := tsPath_of filePath in
  let run := run_read clients filePath checkOnly options sql w in
  match (compiled clients filePath options sql (Node.outside w)).1 with
  | inr code =>
      if bool_decide (Node.files w !! tsPath = Some code)
      then run.1 = Some (the_module filePath)
           /\ Node.files run.2 = Node.files w
      else if checkOnly
      then run.1 = None
           /\ Node.files run.2 = Node.files w
           /\ (Node.error, filePath +:+ ": out of date")
              ∈ Node.console run.2
      else run.1 = Some (the_module filePath)
           /\ Node.files run.2 = <[tsPath := code]> (Node.files w)
  | inl err =>
      run.1 = None
      /\ Node.files run.2
         = (if checkOnly then Node.files w
            else delete tsPath (Node.files w))
      /\ (Node.error, filePath +:+ ": " +:+ err) ∈ Node.console run.2
  end.
Proof.
  simpl. unfold processSQLFile_read, compile, module_of.
  unfold TaskEither.map, TaskEither_orElse, TaskEither.chain,
    Node.on_outside, Warn.split, Task.map.
  cbv beta.
  destruct (sqlToStatementDescription _ _ _ clients sql (Node.outside w))
    as [[err | stmtWithWarnings] e1]; simpl.
  - by error_tail checkOnly w.
  - destruct (0 <? length (Warn.warnings stmtWithWarnings))%nat; simpl;
      destruct (generateTSCode _ _ _ _ _ _ _ e1) as [[err | code] e2]; simpl;
      try (by error_tail checkOnly w);
      case_bool_decide as Hup; simpl; try done;
      destruct checkOnly; simpl; try done;
      (split_and!; [done | done |]; rewrite !elem_of_app; right; left).
Qed.

(** X13. In check mode [processSQLFile] writes and removes no file,
    whatever the analysis answers. *)
Theorem processSQLFile_check_only_keeps_files
    (clients : Clients.Clients E Sql SchemaClient) (filePath : string)
    (options : Options.t) (w : World) :
  Node.files (run_file clients filePath true options w).2 = Node.files w.
Proof.
  unfold processSQLFile, Node.readFile.
  destruct (Node.files w !! filePath) as [sql |]; [| done].
  rewrite Task_map_run. simpl.
  pose proof (processSQLFile_read_run clients filePath true options sql w)
    as Hrun.
  simpl in Hrun.
  destruct (compiled clients filePath options sql (Node.outside w)).1
    as [err | code].
  - by destruct Hrun as (_ & -> & _).
  - case_bool_decide; [by destruct Hrun as [_ ->] |].
    by destruct Hrun as (_ & -> & _).
Qed.

(** The module and the files after [processSQLFile] outside check mode. *)
Lemma processSQLFile_files
    (clients : Clients.Clients E Sql SchemaClient) (filePath : string)
    (options : Options.t) (w : World) :
  let tsPath := tsPath_of filePath in
  let run := run_file clients filePath false options w in
  match Node.files w !! filePath with
  | None => run = (Rejected, w)
  | Some sql =>
      match (compiled clients filePath options sql (Node.outside w)).1 with
      | inr code =>
          run.1 = Fulfilled (Some (the_module filePath))
          /\ Node.files run.2 = <[tsPath := code]> (Node.files w)
      | inl err =>
          run.1 = Fulfilled None
          /\ Node.files run.2 = delete tsPath (Node.files w)
      end
  end.
Proof.
  simpl. unfold processSQLFile, Node.readFile. simpl.
  destruct (Node.files w !! filePath) as [sql |]; [| done].
  rewrite Task_map_run. simpl.
  pose proof (processSQLFile_read_run clients filePath false options sql w)
    as Hrun.
  simpl in Hrun.
  destruct (compiled clients filePath options sql (Node.outside w)).1
    as [err | code].
  - by destruct Hrun as (-> & -> & _).
  - case_bool_decide as Hup.
    + destruct Hrun as [-> ->]. split; [done |]. by rewrite insert_id.
    + by destruct Hrun as [-> ->].
Qed.

(** X14. Outside check mode: when the SQL file cannot be read the promise
    is rejected and nothing has happened.  Otherwise, when analysis and
    generation succeed, the output file holds the generated code
    afterwards and the module of the file is reported; when they fail, the
    output file is gone afterwards, no module is reported, and the error
    is on the console behind the path of the SQL file.  No other file
    changes. *)
Theorem processSQLFile_writes_or_removes
    (clients : Clients.Clients E Sql SchemaClient) (filePath : string)
    (options : Options.t) (w : World) :
  let tsPath := tsPath_of filePath in
  let run := run_file clients filePath false options w in
  match Node.files w !! filePath with
  | None => run = (Rejected, w)
  | Some sql =>
      match (compiled clients filePath options sql (Node.outside w)).1 with
      | inr code =>
          run.1 = Fulfilled (Some (the_module filePath))
          /\ Node.files run.2 = <[tsPath := code]> (Node.files w)
      | inl err =>
          run.1 = Fulfilled None
          /\ Node.files run.2 = delete tsPath (Node.files w)
          /\ (Node.error, filePath +:+ ": " +:+ err) ∈ Node.console run.2
      end
  end.
Proof.
  simpl. unfold processSQLFile, Node.readFile. simpl.
  destruct (Node.files w !! filePath) as [sql |]; [| done].
  rewrite Task_map_run. simpl.
  pose proof (processSQLFile_read_run clients filePath false options sql w)
    as Hrun.
  simpl in Hrun.
  destruct (compiled clients filePath options sql (Node.outside w)).1
    as [err | code].
  - destruct Hrun as (-> & -> & Herr). done.
  - case_bool_decide as Hup.
    + destruct Hrun as [-> ->]. split; [done |]. by rewrite insert_id.
    + by destruct Hrun as [-> ->].
Qed.

(** X15. In check mode the module of the file is reported exactly when
    analysis and generation succeed and the output file already holds the
    generated code. *)
Theorem processSQLFile_check_result
    (clients : Clients.Clients E Sql SchemaClient) (filePath : string)
    (options : Options.t) (w : World) :
  let tsPath := tsPath_of filePath in
  let run := run_file clients filePath true options w in
  match Node.files w !! filePath with
  | None => run = (Rejected, w)
  | Some sql =>
      run.1
      = Fulfilled
          (match
             (compiled clients filePath options sql (Node.outside w)).1
           with
           | inr code =>
               if bool_decide (Node.files w !! tsPath = Some code)
               then Some (the_module filePath) else None
           | inl _ => None
           end)
  end.
Proof.
  simpl. unfold processSQLFile, Node.readFile. simpl.
  destruct (Node.files w !! filePath) as [sql |]; [| done].
  rewrite Task_map_run. simpl.
  pose proof (processSQLFile_read_run clients filePath true options sql w)
    as Hrun.
  simpl in Hrun.
  destruct (compiled clients filePath options sql (Node.outside w)).1
    as [err | code].
  - by destruct Hrun as (-> & _).
  - case_bool_decide; by destruct Hrun as (-> & _).
Qed.

Local Abbreviation handle_event :=
  (makeWatchEventHandler path_join path_basename path_relative path_parse
     path_format camelCase preprocessSQL describeStatement
     inferStatementNullability generators runPrettier Warn_format
     sortByTsFileName).
Local Abbreviation write_index :=
  (maybeWriteIndexModule path_join path_relative path_parse runPrettier
     sortByTsFileName).

Lemma removeOutputFile_files (filePath : string) (w : World) :
  Node.files
    (removeOutputFile path_parse path_format filePath w).2
  = delete (tsPath_of filePath) (Node.files w).
Proof.
  unfold removeOutputFile, Node.unlink.
  destruct (Node.files w !! tsPath_of filePath) eqn:Hp; simpl; [done |].
  by rewrite delete_id.
Qed.

(** X16. Handling a [remove] event drops the modules of the SQL file from
    the list and deletes its output file; apart from that output file and
    the index of the directory no file changes. *)
Theorem watch_remove_event
    (clients : Clients.Clients E Sql SchemaClient) (options : Options.t)
    (nestedDirs : list TsModuleDir.t) (tsModules : list TsModule.t)
    (dirPath sqlFileName : string) (w : World) :
  let tsPath := tsPath_of (path_join dirPath sqlFileName) in
  let run :=
    handle_event clients options nestedDirs tsModules remove dirPath
      sqlFileName w in
  run.1 = Fulfilled (removeTsModule sqlFileName tsModules)
  /\ (tsPath <> index_path dirPath -> Node.files run.2 !! tsPath = None)
  /\ (forall p,
        p <> tsPath -> p <> index_path dirPath ->
        Node.files run.2 !! p = Node.files w !! p).
Proof.
  simpl. unfold makeWatchEventHandler.
  destruct (removeOutputFile _ _ _ w) as [u w1] eqn:Hrm.
  pose proof (removeOutputFile_files (path_join dirPath sqlFileName) w)
    as Hfiles.
  rewrite Hrm in Hfiles. simpl in Hfiles.
  rewrite Task_map_run.
  pose proof (maybeWriteIndexModule_frame (Options.index options) dirPath
                nestedDirs (removeTsModule sqlFileName tsModules)
                (Options.prettify options) w1) as (Hmods & Hother).
  simpl in Hmods, Hother. simpl. rewrite Hmods. split_and!; [done | |].
  - intros Hne. rewrite Hother, Hfiles by done. apply lookup_delete_eq.
  - intros p Hp Hidx. rewrite Hother, Hfiles by done.
    by apply lookup_delete_ne.
Qed.

(** X17. Handling an [update] event: when the SQL file cannot be read the
    promise is rejected.  Otherwise, when analysis and generation succeed,
    the module of the file replaces the one registered for it, or is added
    at the end, and the output file holds the new code; when they fail,
    the modules of the file are dropped from the list and the output file
    is gone. *)
Theorem watch_update_event
    (clients : Clients.Clients E Sql SchemaClient) (options : Options.t)
    (nestedDirs : list TsModuleDir.t) (tsModules : list TsModule.t)
    (dirPath sqlFileName : string) (w : World) :
  let sqlFilePath := path_join dirPath sqlFileName in
  let tsPath := tsPath_of sqlFilePath in
  let run :=
    handle_event clients options nestedDirs tsModules update dirPath
      sqlFileName w in
  match Node.files w !! sqlFilePath with
  | None => run = (Rejected, w)
  | Some sql =>
      match
        (compiled clients sqlFilePath options sql (Node.outside w)).1
      with
      | inr code =>
          run.1
          = Fulfilled
              (replaceOrAddTsModule (the_module sqlFilePath) tsModules)
          /\ (tsPath <> index_path dirPath ->
              Node.files run.2 !! tsPath = Some code)
      | inl _ =>
          run.1 = Fulfilled (removeTsModule sqlFileName tsModules)
          /\ (tsPath <> index_path dirPath ->
              Node.files run.2 !! tsPath = None)
      end
  end.
Proof.
  simpl. unfold makeWatchEventHandler.
  pose proof (processSQLFile_files clients
                (path_join dirPath sqlFileName) options w) as Hfile.
  simpl in Hfile.
  destruct (Node.files w !! path_join dirPath sqlFileName) as [sql |];
    [| by rewrite Hfile].
  destruct (run_file clients (path_join dirPath sqlFileName) false options w)
    as [settled w1].
  simpl in Hfile.
  destruct (compiled clients (path_join dirPath sqlFileName) options sql
              (Node.outside w)).1 as [err | code].
  - destruct Hfile as (-> & Hfiles). rewrite Task_map_run.
    pose proof (maybeWriteIndexModule_frame (Options.index options) dirPath
                  nestedDirs (removeTsModule sqlFileName tsModules)
                  (Options.prettify options) w1) as (Hmods & Hother).
    simpl in Hmods, Hother. simpl. rewrite Hmods. split; [done |].
    intros Hne. rewrite Hother, Hfiles by done. apply lookup_delete_eq.
  - destruct Hfile as (-> & Hfiles). rewrite Task_map_run.
    pose proof (maybeWriteIndexModule_frame (Options.index options) dirPath
                  nestedDirs
                  (replaceOrAddTsModule
                     (the_module (path_join dirPath sqlFileName)) tsModules)
                  (Options.prettify options) w1) as (Hmods & Hother).
    simpl in Hmods, Hother. simpl. rewrite Hmods. split; [done |].
    intros Hne. rewrite Hother, Hfiles by done. apply lookup_insert_eq.
Qed.

(** X23. The verdict check mode gives a directory is the opposite of the
    error flag compiling gives it for the same file results: both are
    decided by the results of the files of the directory itself, and the
    verdict is good exactly when no file failed.  Giving the verdict
    changes nothing. *)
Theorem checkDirectoryResult_hasErrors (dirPath : string)
    (nestedDirs : list TsModuleDir.t) (modules : list (option TsModule.t))
    (options : Options.t) (w w' : World) :
  checkDirectoryResult modules w
  = (negb
       (TsModuleDir.hasErrors
          (processSQLDirectory path_join path_relative path_parse
             runPrettier sortByTsFileName dirPath nestedDirs modules
             options w').1),
     w)
  /\ ((checkDirectoryResult modules w).1 = true <-> None ∉ modules).
Proof.
  unfold checkDirectoryResult, processSQLDirectory, Task.of_.
  rewrite Task_map_run. simpl. split.
  - f_equal. induction modules as [| [m |] modules IH]; simpl; [done | | done].
    exact IH.
  - induction modules as [| [m |] modules IH]; simpl.
    + split; [by intros _ ?%elem_of_nil | done].
    + rewrite IH, not_elem_of_cons. split; [by intros ? | by intros [_ ?]].
    + split; [done |]. intros Hno. exfalso. apply Hno. left.
Qed.
End FileFacts.

(** ** Watch events *)

Section WatchEventsFacts.
Context {W : Type}.
Variable eventHandler :
  list TsModuleDir.t -> list TsModule.t -> WatchEventType ->
  string -> string -> Task.Task W (Settled (list TsModule.t)).

Lemma dirPath_of_frame (dirs1 dirs2 : list TsModuleDir.t) :
  dir_frame <$> dirs1 = dir_frame <$> dirs2 ->
  TsModuleDir.dirPath <$> dirs1 = TsModuleDir.dirPath <$> dirs2.
Proof.
  intros Heq.
  apply (f_equal (fmap (fun x : string * list TsModuleDir.t * bool => x.1.1)))
    in Heq.
  by rewrite <- !list_fmap_compose in Heq.
Qed.

Lemma modifyWhere_keeps_frame (pred : TsModuleDir.t -> bool)
    (replacer : TsModuleDir.t -> TsModuleDir.t) (dirs : list TsModuleDir.t) :
  (forall dir, dir_frame (replacer dir) = dir_frame dir) ->
  dir_frame <$> default dirs (modifyWhere pred replacer dirs)
  = dir_frame <$> dirs.
Proof.
  intros Hframe.
  destruct (modifyWhere_cases pred replacer dirs)
    as [[-> _] | (pre & x & post & -> & _ & _ & ->)]; [done |].
  simpl. by rewrite !fmap_app, !fmap_cons, Hframe.
Qed.

(** X18. [handleWatchEvents] changes nothing of the watched directories
    but their module lists: paths, nested directories and error flags stay,
    in the same order.  It takes the events off the buffer from the front;
    when it returns with events left in the buffer, the last event it took
    was for a directory that is not among the watched ones. *)
Theorem handleWatchEvents_keeps_directories
    (moduleDirs : list TsModuleDir.t) (events : list WatchEvent.t) (w : W) :
  let run := handleWatchEvents eventHandler moduleDirs events w in
  match run.1.1 with
  | Rejected => exists taken, events = taken ++ run.1.2
  | Fulfilled dirs =>
      dir_frame <$> dirs = dir_frame <$> moduleDirs
      /\ (run.1.2 = []
          \/ exists taken event,
               events = taken ++ event :: run.1.2
               /\ WatchEvent.dirPath event
                  ∉ TsModuleDir.dirPath <$> moduleDirs)
  end.
Proof.
  simpl. revert moduleDirs w.
  induction events as [| event rest IH]; intros moduleDirs w; simpl.
  - split; [done | by left].
  - destruct (List.find _ moduleDirs) as [moduleDir |] eqn:Hfind; simpl.
    + destruct (eventHandler _ _ _ _ _ w) as [[| newModules] w1]; simpl.
      * by exists [event].
      * set (dirs' := default moduleDirs (modifyWhere _ _ moduleDirs)).
        assert (Hframe : dir_frame <$> dirs' = dir_frame <$> moduleDirs)
          by by apply modifyWhere_keeps_frame.
        specialize (IH dirs' w1).
        destruct (handleWatchEvents eventHandler dirs' rest w1)
          as [[[| dirs] left_] w2]; simpl in *.
        -- destruct IH as [taken ->]. by exists (event :: taken).
        -- destruct IH as [Hdirs Hrest]. split; [by rewrite Hdirs |].
           destruct Hrest as [-> | (taken & ev & -> & Hunknown)];
             [by left | right].
           exists (event :: taken), ev. split; [done |].
           by rewrite <- (dirPath_of_frame _ _ Hframe).
    + split; [done |]. right. exists [], event. split; [done |].
      intros (dir & Hpath & Hin)%list_elem_of_fmap.
      apply list_elem_of_In in Hin.
      pose proof (List.find_none _ _ Hfind dir Hin) as Hno. simpl in Hno.
      apply String.eqb_neq in Hno. congruence.
Qed.
End WatchEventsFacts.

(** ** The statement of the postgres generator *)

Section SubstitutionFacts.
Import JSReplace Placeholder.


Lemma starts_with_app (pat s : string) : starts_with pat (pat +:+ s) = true.
Proof.
  induction pat as [| a pat IH]; [by destruct s |].
  rewrite string_app_cons. simpl. by rewrite Ascii.eqb_refl.
Qed.

Lemma starts_with_split (pat s : string) :
  starts_with pat s = true ->
  s = pat +:+ drop_chars (String.length pat) s.
Proof.
  revert s. induction pat as [| a pat IH]; intros s; [done |].
  destruct s as [| b s]; [done |]. simpl.
  intros [->%Ascii.eqb_eq Hs]%andb_true_iff.
  rewrite string_app_cons. f_equal. by apply IH.
Qed.

Lemma drop_chars_app (pat s : string) :
  drop_chars (String.length pat) (pat +:+ s) = s.
Proof.
  induction pat as [| a pat IH]; [by destruct s |].
  by rewrite string_app_cons.
Qed.

Lemma string_app_nil_r (s : string) : s +:+ EmptyString = s.
Proof.
  induction s as [| c s IH]; [done |]. rewrite string_app_cons. by rewrite IH.
Qed.

Lemma all_digits_no_dollar (s : string) :
  all_digits_b s = true -> contains_char "$" s = false.
Proof.
  induction s as [| c s IH]; simpl; [done |].
  intros [Hc Hs]%andb_true_iff. rewrite (IH Hs), orb_false_r.
  destruct (Ascii.eqb_spec c "$") as [-> | _]; [| done].
  by vm_compute in Hc.
Qed.

(** A prefix made of digits does not reach past the digits. *)
Lemma starts_with_digits (pat digits rest : string) :
  all_digits_b pat = true ->
  starts_with_digit rest = false ->
  starts_with pat (digits +:+ rest) = starts_with pat digits.
Proof.
  intros Hpat Hrest. revert pat Hpat.
  induction digits as [| d digits IH]; intros pat Hpat.
  - simpl. destruct pat as [| a pat]; [by destruct rest |].
    destruct rest as [| b rest]; [done |]. simpl in *.
    apply andb_true_iff in Hpat as [Ha _].
    destruct (Ascii.eqb_spec a b) as [-> | _]; [| done].
    congruence.
  - destruct pat as [| a pat]; [done |]. rewrite string_app_cons. simpl.
    apply andb_true_iff in Hpat as [_ Hpat]. by rewrite IH.
Qed.

Lemma occurs_app_r (pat u v : string) :
  occurs pat (u +:+ v) = false -> starts_with pat v = false.
Proof.
  induction u as [| c u IH].
  - destruct v; simpl; by intros [? _]%orb_false_iff.
  - rewrite string_app_cons. cbn [occurs].
    intros [_ Hu]%orb_false_iff. by apply IH.
Qed.

(** A pattern does not reach past a character it does not hold. *)
Lemma starts_with_stop (pat v : string) (c : ascii) (rest : string) :
  contains_char c pat = false ->
  starts_with pat (v +:+ String c rest) = starts_with pat v.
Proof.
  revert pat. induction v as [| b v IH]; intros [| a pat]; try done.
  - simpl. intros [Ha _]%orb_false_iff. by rewrite Ha.
  - rewrite string_app_cons. simpl. intros [_ Hpat]%orb_false_iff.
    by rewrite IH.
Qed.

Lemma all_digits_without (c : ascii) (s : string) :
  is_digit c = false -> all_digits_b s = true -> contains_char c s = false.
Proof.
  intros Hc. induction s as [| d s IH]; simpl; [done |].
  intros [Hd Hs]%andb_true_iff. rewrite (IH Hs), orb_false_r.
  destruct (Ascii.eqb_spec d c) as [-> | _]; [congruence | done].
Qed.

Section OnePattern.
Variables pat template result : string.
Hypothesis pat_dollar :
  exists d more, pat = String "$" (String d more) /\ is_digit d = true.
Hypothesis expand_const :
  forall matched before after,
    expand template matched before after = result.

Lemma no_match_without_dollar (c : ascii) (s : string) :
  Ascii.eqb c "$" = false -> starts_with pat (String c s) = false.
Proof.
  destruct pat_dollar as (d & more & -> & _). cbn [starts_with].
  intros Hc. rewrite Ascii.eqb_sym in Hc. by rewrite Hc.
Qed.

Lemma replace_go_before (before1 before2 : string) (skip : nat)
    (s : string) :
  replace_go pat template before1 skip s
  = replace_go pat template before2 skip s.
Proof.
  revert before1 before2 skip.
  induction s as [| c s IH]; intros before1 before2 skip; [done |].
  cbn [replace_go]. destruct skip as [| skip]; [| apply IH].
  destruct (starts_with pat (String c s)).
  - rewrite !expand_const. f_equal. apply IH.
  - f_equal. apply IH.
Qed.

Lemma replace_go_skip (x s before : string) :
  replace_go pat template before (String.length x) (x +:+ s)
  = replace_go pat template before O s.
Proof.
  induction x as [| c x IH]; [done |].
  rewrite string_app_cons. cbn [String.length replace_go].
  rewrite <- IH. apply replace_go_before.
Qed.

Lemma replace_go_inert (x s before : string) :
  contains_char "$" x = false ->
  replace_go pat template before O (x +:+ s)
  = x +:+ replace_go pat template before O s.
Proof.
  induction x as [| c x IH]; intros Hx; [done |].
  simpl in Hx. apply orb_false_iff in Hx as [Hc Hx].
  rewrite !string_app_cons. cbn [replace_go].
  rewrite no_match_without_dollar by done.
  f_equal. rewrite <- IH by done. apply replace_go_before.
Qed.

Lemma replace_go_match (s before : string) :
  replace_go pat template before O (pat +:+ s)
  = result +:+ replace_go pat template before O s.
Proof.
  destruct pat_dollar as (d & more & Hpat & _).
  assert (Hsub : pat +:+ s = String "$" (String d more +:+ s))
    by by rewrite Hpat.
  assert (Hlen : (String.length pat - 1)%nat = String.length (String d more)).
  { rewrite Hpat. simpl. lia. }
  rewrite Hsub. cbn [replace_go]. rewrite <- Hsub.
  rewrite starts_with_app, expand_const, Hlen. f_equal.
  rewrite replace_go_skip. apply replace_go_before.
Qed.

Lemma replace_go_no_match (c : ascii) (s before : string) :
  starts_with pat (String c s) = false ->
  replace_go pat template before O (String c s)
  = String c (replace_go pat template before O s).
Proof.
  intros Hno. cbn [replace_go]. rewrite Hno. f_equal.
  apply replace_go_before.
Qed.

Lemma replace_go_other_char (c : ascii) (s before : string) :
  Ascii.eqb c "$" = false ->
  replace_go pat template before O (String c s)
  = String c (replace_go pat template before O s).
Proof.
  intros Hc. apply replace_go_no_match. by apply no_match_without_dollar.
Qed.

(** A text in which the pattern matches nowhere is passed over. *)
Lemma replace_go_inert_at (x s before : string) :
  (forall u v,
      x = u +:+ v -> v <> EmptyString -> starts_with pat (v +:+ s) = false) ->
  replace_go pat template before O (x +:+ s)
  = x +:+ replace_go pat template before O s.
Proof.
  induction x as [| c x IH]; intros Hx; [done |].
  rewrite !string_app_cons, replace_go_no_match.
  - f_equal. apply IH. intros u v -> Hv.
    by apply (Hx (String c u) v).
  - rewrite <- string_app_cons. by apply (Hx EmptyString (String c x)).
Qed.

Lemma no_match_at_brace (s : string) :
  starts_with pat (String "$" (String "{" s)) = false.
Proof.
  destruct pat_dollar as (d & more & -> & Hd). cbn [starts_with].
  destruct (Ascii.eqb_spec d "{") as [-> | _]; [by vm_compute in Hd |].
  by rewrite andb_false_r.
Qed.

(** A value that is in the statement already, with the digits left behind
    it, is passed over when the pattern does not occur in the value. *)
Lemma replace_go_value (v rest s before : string) :
  contains_char "}" pat = false ->
  occurs pat v = false ->
  contains_char "$" rest = false ->
  replace_go pat template before O ("${" +:+ v +:+ "}" +:+ rest +:+ s)
  = "${" +:+ v +:+ "}" +:+ rest +:+ replace_go pat template before O s.
Proof.
  intros Hpat Hv Hrest.
  change ("${" +:+ v +:+ "}" +:+ rest +:+ s)
    with (String "$" (String "{" (v +:+ String "}" (rest +:+ s)))).
  rewrite replace_go_no_match by apply no_match_at_brace.
  rewrite replace_go_other_char by done.
  rewrite replace_go_inert_at.
  - rewrite replace_go_other_char by done.
    by rewrite replace_go_inert.
  - intros u w -> Hw. rewrite starts_with_stop by done.
    by apply (occurs_app_r pat u w).
Qed.
End OnePattern.

Lemma expand_no_dollar (s matched before after : string) :
  contains_char "$" s = false -> expand s matched before after = s.
Proof.
  induction s as [| a tail IH]; [done |].
  intros Hs. cbn [contains_char] in Hs.
  apply orb_false_iff in Hs as [Ha Htail].
  cbn [expand]. destruct tail as [| c rest]; [done |].
  by rewrite Ha, IH.
Qed.

Lemma expand_braces (p matched before after : string) :
  contains_char "$" p = false ->
  expand ("${" +:+ p +:+ "}") matched before after = "${" +:+ p +:+ "}".
Proof.
  intros Hp.
  assert (Hrest : expand ("{" +:+ p +:+ "}") matched before after
                  = "{" +:+ p +:+ "}").
  { apply expand_no_dollar. by rewrite !contains_char_app, Hp. }
  change ("${" +:+ p +:+ "}") with (String "$" ("{" +:+ p +:+ "}")).
  rewrite <- Hrest at 2. reflexivity.
Qed.

Lemma is_digit_pretty_N_char (x : N) : is_digit (pretty_N_char x) = true.
Proof. unfold pretty_N_char. by repeat case_match. Qed.

Lemma all_digits_pretty_N_go (x : N) (s : string) :
  all_digits_b s = true -> all_digits_b (pretty_N_go x s) = true.
Proof.
  revert s. induction (N.lt_wf_0 x) as [x _ IH]; intros s Hs.
  destruct (decide (x = 0)%N) as [-> | Hx]; [by rewrite pretty_N_go_0 |].
  rewrite pretty_N_go_step by lia. apply IH.
  - apply N.div_lt; lia.
  - simpl. by rewrite is_digit_pretty_N_char.
Qed.

Lemma pretty_N_go_nonempty (x : N) (s : string) :
  (0 < x)%N -> pretty_N_go x s <> EmptyString.
Proof.
  revert s. induction (N.lt_wf_0 x) as [x _ IH]; intros s Hx.
  rewrite pretty_N_go_step by done.
  destruct (decide (x `div` 10 = 0)%N) as [-> | Hdiv].
  - by rewrite pretty_N_go_0.
  - apply IH; [apply N.div_lt; lia | by apply N.neq_0_lt_0].
Qed.

Lemma all_digits_pretty (n : nat) : all_digits_b (pretty n) = true.
Proof.
  unfold pretty, pretty_nat, pretty, pretty_N.
  case_decide; [done |]. by apply all_digits_pretty_N_go.
Qed.

Lemma pretty_nonempty (n : nat) : pretty n <> EmptyString.
Proof.
  unfold pretty, pretty_nat, pretty, pretty_N.
  case_decide; [done |]. apply pretty_N_go_nonempty. lia.
Qed.

Lemma pretty_first_digit (n : nat) :
  exists d more, pretty n = String d more /\ is_digit d = true.
Proof.
  pose proof (all_digits_pretty n) as Hd. pose proof (pretty_nonempty n).
  destruct (pretty n) as [| d more]; [done |].
  exists d, more. split; [done |]. simpl in Hd.
  by apply andb_true_iff in Hd as [? _].
Qed.

Lemma all_digits_drop_chars (n : nat) (s : string) :
  all_digits_b s = true -> all_digits_b (drop_chars n s) = true.
Proof.
  revert s. induction n as [| n IH]; intros s; [done |].
  destruct s as [| c s]; [done |]. simpl.
  intros [_ Hs]%andb_true_iff. by apply IH.
Qed.

Lemma best_above_None (lo k : nat) (digits : string) :
  (k <= lo)%nat -> best_above lo k digits = None.
Proof.
  intros Hle. destruct k as [| k]; [done |]. cbn [best_above].
  by destruct (Nat.ltb_spec lo (S k)); [lia |].
Qed.

Lemma best_above_step (i k : nat) (digits : string) :
  (i < k)%nat ->
  best_above i k digits
  = match best_above (S i) k digits with
    | Some k' => Some k'
    | None =>
        if starts_with (pretty (S i)) digits then Some (S i) else None
    end.
Proof.
  induction k as [| k IH]; [lia |]. intros Hlt. cbn [best_above].
  destruct (Nat.ltb_spec i (S k)); [| lia].
  destruct (Nat.ltb_spec (S i) (S k)) as [Hlt' | Hge].
  - destruct (starts_with (pretty (S k)) digits); [done |]. apply IH. lia.
  - assert (k = i) as -> by lia.
    by rewrite (best_above_None i i) by lia.
Qed.


Lemma take_digits_spec (toks : list Tok) :
  well_tokenized toks ->
  let '(digits, rest) := take_digits toks in
  all_digits_b digits = true
  /\ head_nondigit rest
  /\ well_tokenized rest
  /\ flatten (text <$> toks) = digits +:+ flatten (text <$> rest).
Proof.
  induction toks as [| tok toks IH]; [done |].
  intros [Htok Hwf]. destruct tok as [c | digits]; cbn [take_digits].
  - destruct (is_digit c) eqn:Hc.
    + specialize (IH Hwf). destruct (take_digits toks) as [digits rest].
      destruct IH as (Hd & Hhead & Hrest & Hflat).
      split_and!; [by simpl; rewrite Hc | done | done |].
      rewrite fmap_cons, flatten_cons, Hflat. done.
    + split_and!; done.
  - split_and!; done.
Qed.

Lemma tokenize_spec (s : string) :
  well_tokenized (tokenize s) /\ flatten (text <$> tokenize s) = s.
Proof.
  induction s as [| c s [Hwf Hflat]]; [done |]. cbn [tokenize].
  destruct (Ascii.eqb_spec c "$") as [-> | Hne].
  - pose proof (take_digits_spec (tokenize s) Hwf) as Hspec.
    destruct (take_digits (tokenize s)) as [digits rest].
    destruct Hspec as (Hd & Hhead & Hrest & Hflat').
    split; [done |].
    rewrite fmap_cons, flatten_cons. cbn [text].
    rewrite string_app_cons. f_equal. by rewrite <- Hflat', Hflat.
  - split.
    + split; [by apply Ascii.eqb_neq | done].
    + rewrite fmap_cons, flatten_cons. cbn [text]. by rewrite Hflat.
Qed.

Lemma best_above_Some (lo n k : nat) (digits : string) :
  best_above lo n digits = Some k -> (lo < k <= n)%nat.
Proof.
  induction n as [| n IH]; [done |]. cbn [best_above].
  destruct (Nat.ltb_spec lo (S n)); [| done].
  destruct (starts_with (pretty (S n)) digits).
  - intros [= <-]. lia.
  - intros Hk%IH. lia.
Qed.

Section OneValue.
Variable values : list string.
Hypothesis values_untouched : untouched values.

Lemma substituted_above_head (lo : nat) (toks : list Tok) :
  head_nondigit toks ->
  starts_with_digit (flatten (substituted_above lo values <$> toks)) = false.
Proof.
  destruct toks as [| [c | digits] toks]; [done | by simpl |].
  intros _. rewrite fmap_cons, flatten_cons. cbn [substituted_above].
  by destruct (best_above lo (length values) digits).
Qed.

Variables (i : nat) (x : string).
Hypothesis value_i : values !! i = Some x.

Local Abbreviation pat := ("$" +:+ pretty (S i)).
Local Abbreviation template := ("${" +:+ x +:+ "}").

Lemma pat_dollar_digit :
  exists d more, pat = String "$" (String d more) /\ is_digit d = true.
Proof.
  destruct (pretty_first_digit (S i)) as (d & more & -> & Hd).
  by exists d, more.
Qed.

Lemma pat_no_brace : contains_char "}" pat = false.
Proof.
  change pat with (String "$" (pretty (S i))). cbn [contains_char].
  by rewrite all_digits_without by (done || apply all_digits_pretty).
Qed.

Lemma template_const (matched before after : string) :
  expand template matched before after = template.
Proof. by apply (values_untouched i x). Qed.

(** One step of the [reduceRight]: replacing [$(i+1)] in the text in which
    the values above [i + 1] are already substituted gives the text in
    which the values above [i] are. *)
Lemma replace_one_value (toks : list Tok) (before : string) :
  well_tokenized toks ->
  replace_go pat template before O
    (flatten (substituted_above (S i) values <$> toks))
  = flatten (substituted_above i values <$> toks).
Proof.
  assert (Hi : (i < length values)%nat) by by eapply lookup_lt_Some.
  assert (Hnth : nth i values EmptyString = x) by by apply nth_lookup_Some.
  pose proof (replace_go_inert pat template template pat_dollar_digit
                template_const) as Hinert.
  pose proof (replace_go_match pat template template pat_dollar_digit
                template_const) as Hmatch.
  pose proof (replace_go_no_match pat template template template_const)
    as Hnomatch.
  pose proof (replace_go_value pat template template pat_dollar_digit
                template_const) as Hvalue.
  pose proof pat_no_brace as Hbrace.
  assert (Hdollar : forall s,
             starts_with pat (String "$" s) = starts_with (pretty (S i)) s).
  { intros s. change pat with (String "$" (pretty (S i))).
    cbn [starts_with]. by rewrite Ascii.eqb_refl. }
  assert (Hpat : forall s, pat +:+ s = String "$" (pretty (S i) +:+ s))
    by done.
  assert (Hother : forall k,
             (S i < k <= length values)%nat ->
             occurs pat (nth (k - 1) values EmptyString) = false).
  { intros k Hk.
    destruct (lookup_lt_is_Some_2 values (k - 1)) as [p Hp]; [lia |].
    rewrite (nth_lookup_Some _ _ EmptyString _ Hp).
    apply (values_untouched (k - 1)%nat p Hp). lia. }
  set (P := pat) in *. clearbody P.
  induction toks as [| tok toks IH]; [done |].
  intros [Htok Hwf]. rewrite !fmap_cons, !flatten_cons.
  destruct tok as [c | digits].
  - cbn [substituted_above].
    rewrite Hinert by (by simpl; rewrite Htok). by rewrite IH.
  - destruct Htok as [Hdigits Hhead]. cbn [substituted_above].
    rewrite (best_above_step i) by done.
    destruct (best_above (S i) (length values) digits) as [k |] eqn:Hbest.
    + apply best_above_Some in Hbest.
      rewrite !string_app_assoc, Hvalue.
      * by rewrite IH.
      * exact Hbrace.
      * by apply Hother.
      * by apply all_digits_no_dollar, all_digits_drop_chars.
    + destruct (starts_with (pretty (S i)) digits) eqn:Hstart.
      * rewrite (starts_with_split _ _ Hstart) at 1.
        rewrite <- Hpat, (string_app_assoc P), Hmatch.
        replace (S i - 1)%nat with i by lia. rewrite Hnth.
        rewrite Hinert
          by by apply all_digits_no_dollar, all_digits_drop_chars.
        rewrite IH by done. by rewrite !string_app_assoc.
      * rewrite !string_app_cons, Hnomatch.
        -- f_equal. rewrite Hinert by by apply all_digits_no_dollar.
           by rewrite IH.
        -- rewrite Hdollar, starts_with_digits; [done | |].
           ++ apply all_digits_pretty.
           ++ by apply substituted_above_head.
Qed.
End OneValue.
End SubstitutionFacts.

Section AllValues.
Import Placeholder.
Import JSReplace.

Lemma substituted_above_all (values : list string) (toks : list Tok) :
  flatten (substituted_above (length values) values <$> toks)
  = flatten (text <$> toks).
Proof.
  f_equal. apply list_fmap_ext. intros _ [c | digits] _; [done |].
  cbn [substituted_above text]. by rewrite best_above_None.
Qed.

Lemma reduceRight_substituted (pre suf : list string) (toks : list Tok) :
  untouched (pre ++ suf) ->
  well_tokenized toks ->
  reduceRight_from
    (fun acc p i =>
       replace_all ("$" +:+ pretty (i + 1)%nat) ("${" +:+ p +:+ "}") acc)
    (length pre) suf (flatten (text <$> toks))
  = flatten (substituted_above (length pre) (pre ++ suf) <$> toks).
Proof.
  revert pre. induction suf as [| x suf IH]; intros pre Hvalues Hwf.
  - rewrite app_nil_r. symmetry. apply substituted_above_all.
  - cbn [reduceRight_from].
    assert (Hsplit : pre ++ x :: suf = (pre ++ [x]) ++ suf)
      by by rewrite <- app_assoc.
    specialize (IH (pre ++ [x])). rewrite <- Hsplit in IH.
    rewrite length_app in IH. cbn [length] in IH.
    rewrite Nat.add_1_r in IH. rewrite IH by done.
    rewrite Nat.add_1_r. unfold replace_all.
    apply replace_one_value; [done | | done].
    by rewrite lookup_app_r, Nat.sub_diag.
Qed.
End AllValues.

Section PlaceholderFacts.
Import Placeholder.
Import JSReplace.

Lemma pretty_N_go_length_ge (x : N) (s : string) :
  (String.length s <= String.length (pretty_N_go x s))%nat.
Proof.
  revert s. induction (N.lt_wf_0 x) as [x _ IH]; intros s.
  destruct (decide (x = 0)%N) as [-> | Hx]; [by rewrite pretty_N_go_0 |].
  rewrite pretty_N_go_step by lia.
  etrans; [| apply IH; apply N.div_lt; lia]. simpl. lia.
Qed.

Lemma pretty_N_go_length_mono (x y : N) (s t : string) :
  (x <= y)%N ->
  (String.length s <= String.length t)%nat ->
  (String.length (pretty_N_go x s) <= String.length (pretty_N_go y t))%nat.
Proof.
  revert y s t. induction (N.lt_wf_0 x) as [x _ IH]; intros y s t Hxy Hst.
  destruct (decide (x = 0)%N) as [-> | Hx].
  - rewrite pretty_N_go_0. etrans; [done | apply pretty_N_go_length_ge].
  - rewrite (pretty_N_go_step x), (pretty_N_go_step y) by lia.
    apply IH.
    + apply N.div_lt; lia.
    + apply N.Div0.div_le_mono. done.
    + simpl. lia.
Qed.

Lemma pretty_length_mono (n k : nat) :
  (n <= k)%nat ->
  (String.length (pretty n) <= String.length (pretty k))%nat.
Proof.
  intros Hnk. unfold pretty, pretty_nat, pretty, pretty_N.
  destruct (decide (N.of_nat n = 0)%N) as [Hn | Hn].
  - case_decide; [done |].
    rewrite pretty_N_go_step by lia.
    etrans; [| apply pretty_N_go_length_ge]. done.
  - rewrite decide_False by lia.
    apply pretty_N_go_length_mono; [lia | done].
Qed.

Lemma starts_with_refl (s : string) : starts_with s s = true.
Proof. induction s as [| c s IH]; [done |]. simpl. by rewrite Ascii.eqb_refl. Qed.

Lemma starts_with_length (pat s : string) :
  starts_with pat s = true -> (String.length pat <= String.length s)%nat.
Proof.
  revert s. induction pat as [| a pat IH]; intros [| b s]; simpl;
    [lia | lia | done |].
  intros [_ H]%andb_true_iff. apply IH in H. lia.
Qed.

Lemma starts_with_same_length (pat s : string) :
  starts_with pat s = true -> String.length pat = String.length s -> pat = s.
Proof.
  revert s. induction pat as [| a pat IH]; intros [| b s]; simpl; try done.
  intros [Hab H]%andb_true_iff Hlen. apply Ascii.eqb_eq in Hab as ->.
  f_equal. apply IH; [done | lia].
Qed.

(** The writing of a number does not start with the writing of a larger
    one. *)
Lemma starts_with_pretty (n k : nat) :
  (n < k)%nat -> starts_with (pretty k) (pretty n) = false.
Proof.
  intros Hnk. destruct (starts_with (pretty k) (pretty n)) eqn:Hstart; [| done].
  pose proof (starts_with_length _ _ Hstart) as Hle.
  pose proof (pretty_length_mono n k ltac:(lia)) as Hge.
  apply starts_with_same_length in Hstart; [| lia].
  apply (inj pretty) in Hstart. lia.
Qed.

Lemma best_above_pretty (lo n k : nat) :
  (lo < n <= k)%nat -> best_above lo k (pretty n) = Some n.
Proof.
  induction k as [| k IH]; [lia |]. intros Hn. cbn [best_above].
  destruct (Nat.ltb_spec lo (S k)); [| lia].
  destruct (decide (n = S k)) as [-> | Hne].
  - by rewrite starts_with_refl.
  - rewrite starts_with_pretty by lia. apply IH. lia.
Qed.

Lemma drop_chars_all (s : string) : drop_chars (String.length s) s = EmptyString.
Proof. induction s as [| c s IH]; [done |]. done. Qed.

Lemma take_digits_app (toks1 toks2 : list Tok) :
  head_nondigit toks2 ->
  take_digits (toks1 ++ toks2)
  = ((take_digits toks1).1, (take_digits toks1).2 ++ toks2).
Proof.
  intros Hhead. induction toks1 as [| [c | digits] toks1 IH].
  - destruct toks2 as [| [c | digits] toks2]; [done | | done].
    simpl in *. by rewrite Hhead.
  - cbn [app take_digits]. destruct (is_digit c); [| done].
    rewrite IH. by destruct (take_digits toks1).
  - done.
Qed.

Lemma tokenize_head (s : string) :
  starts_with_digit s = false -> head_nondigit (tokenize s).
Proof.
  destruct s as [| c s]; [done |]. cbn [tokenize starts_with_digit].
  intros Hc. destruct (Ascii.eqb c "$").
  - by destruct (take_digits (tokenize s)).
  - done.
Qed.

Lemma tokenize_app (s1 s2 : string) :
  starts_with_digit s2 = false ->
  tokenize (s1 +:+ s2) = tokenize s1 ++ tokenize s2.
Proof.
  intros Hs2. induction s1 as [| c s1 IH]; [done |].
  rewrite string_app_cons. cbn [tokenize]. rewrite IH.
  destruct (Ascii.eqb c "$"); [| done].
  rewrite take_digits_app by by apply tokenize_head.
  by destruct (take_digits (tokenize s1)).
Qed.

Lemma tokenize_digits (digits : string) :
  all_digits_b digits = true ->
  take_digits (tokenize digits) = (digits, []).
Proof.
  induction digits as [| d digits IH]; [done |]. simpl.
  intros [Hd Hdigits]%andb_true_iff.
  destruct (Ascii.eqb_spec d "$") as [-> | _]; [by vm_compute in Hd |].
  cbn [take_digits]. by rewrite Hd, IH.
Qed.

Lemma flatten_app (l1 l2 : list string) :
  flatten (l1 ++ l2) = flatten l1 +:+ flatten l2.
Proof.
  induction l1 as [| s l1 IH]; [done |].
  cbn [app]. by rewrite !flatten_cons, IH, string_app_assoc.
Qed.

Lemma occurs_no_dollar (more s : string) :
  contains_char "$" s = false -> occurs (String "$" more) s = false.
Proof.
  induction s as [| c s IH]; [done |]. cbn [contains_char occurs starts_with].
  intros [Hc Hs]%orb_false_iff. rewrite Ascii.eqb_sym, Hc. by apply IH.
Qed.

(** Where the pattern does not occur, nothing is replaced. *)
Lemma replace_go_absent (pat template before s : string) :
  occurs pat s = false -> replace_go pat template before O s = s.
Proof.
  revert before. induction s as [| c s IH]; intros before; [done |].
  cbn [occurs]. intros [Hc Hs]%orb_false_iff.
  cbn [replace_go]. rewrite Hc. by rewrite IH.
Qed.

Lemma reduceRight_from_app {A B} (f : B -> A -> nat -> B) (i : nat)
    (l1 l2 : list A) (init : B) :
  reduceRight_from f i (l1 ++ l2) init
  = reduceRight_from f i l1 (reduceRight_from f (i + length l1) l2 init).
Proof.
  revert i. induction l1 as [| x l1 IH]; intros i.
  - simpl. by rewrite Nat.add_0_r.
  - cbn [app reduceRight_from length]. rewrite IH.
    by replace (S i + length l1)%nat with (i + S (length l1))%nat by lia.
Qed.

Lemma no_dollar_untouched (values : list string) :
  Forall (fun p => contains_char "$" p = false) values -> untouched values.
Proof.
  intros Hvalues k p Hp.
  assert (Hclean : contains_char "$" p = false).
  { apply (proj1 (Forall_forall _ _) Hvalues).
    by eapply list_elem_of_lookup_2. }
  split.
  - intros matched before after. by apply expand_braces.
  - intros j _. by apply occurs_no_dollar.
Qed.

Lemma positional_lookup (n k : nat) (p : string) :
  positional n !! k = Some p ->
  (k < n)%nat /\ p = "$" +:+ pretty (S k).
Proof.
  unfold positional. rewrite list_lookup_fmap.
  destruct (seq 0 n !! k) as [i |] eqn:Hi; [| done].
  apply lookup_seq in Hi as [-> Hk]. by intros [= <-].
Qed.

Lemma positional_length (n : nat) : length (positional n) = n.
Proof. unfold positional. by rewrite length_fmap, length_seq. Qed.

Lemma positional_nth (n k : nat) :
  (1 <= k <= n)%nat ->
  nth (k - 1) (positional n) EmptyString = "$" +:+ pretty k.
Proof.
  intros Hk.
  destruct (lookup_lt_is_Some_2 (positional n) (k - 1)) as [p Hp].
  { rewrite positional_length. lia. }
  rewrite (nth_lookup_Some _ _ EmptyString _ Hp).
  apply positional_lookup in Hp as [_ ->].
  by replace (S (k - 1)) with k by lia.
Qed.

(** Up to nine positional parameters, no name holds another one. *)
Lemma positional_untouched (n : nat) : (n <= 9)%nat -> untouched (positional n).
Proof.
  intros Hn k p [Hk ->]%positional_lookup. split.
  - intros matched before after.
    do 9 (destruct k as [| k]; [vm_compute; reflexivity |]). lia.
  - intros j Hj.
    do 9 (destruct k as [| k];
          [do 9 (destruct j as [| j]; [vm_compute; reflexivity || lia |]);
           lia |]).
    lia.
Qed.

(** The [reduceRight] of the postgres generator, read on the tokens of the
    statement. *)
Lemma reduceRight_replace_tokens (queryValues : list string) (sql : string) :
  untouched queryValues ->
  substitutedSqlStatement queryValues sql
  = flatten (substituted queryValues <$> tokenize sql).
Proof.
  intros Hvalues. destruct (tokenize_spec sql) as [Hwf Hflat].
  unfold substitutedSqlStatement, reduceRight.
  rewrite <- Hflat at 1.
  by apply (reduceRight_substituted [] queryValues).
Qed.

Lemma tokenize_placeholder (n : nat) (rest : string) :
  starts_with_digit rest = false ->
  tokenize ("$" +:+ pretty n +:+ rest) = Dollar (pretty n) :: tokenize rest.
Proof.
  intros Hrest. change ("$" +:+ pretty n +:+ rest)
    with (String "$" (pretty n +:+ rest)).
  cbn [tokenize]. rewrite Ascii.eqb_refl.
  rewrite tokenize_app by done.
  rewrite take_digits_app by by apply tokenize_head.
  by rewrite tokenize_digits by apply all_digits_pretty.
Qed.

(** What becomes of the placeholder of a value in front of something that
    is not a digit. *)
Lemma placeholder_substituted (queryValues : list string) (n : nat)
    (rest : string) :
  (1 <= n <= length queryValues)%nat ->
  starts_with_digit rest = false ->
  flatten (substituted queryValues <$> tokenize ("$" +:+ pretty n +:+ rest))
  = "${" +:+ nth (n - 1) queryValues EmptyString +:+ "}"
    +:+ flatten (substituted queryValues <$> tokenize rest).
Proof.
  intros Hn Hrest. rewrite tokenize_placeholder by done.
  rewrite fmap_cons, flatten_cons.
  unfold substituted at 1. cbn [substituted_above].
  rewrite best_above_pretty by lia. rewrite drop_chars_all.
  by rewrite !string_app_assoc.
Qed.

Lemma starts_with_digit_pretty (n : nat) : starts_with_digit (pretty n) = true.
Proof. by destruct (pretty_first_digit n) as (d & more & -> & Hd). Qed.

(** In a statement whose parameters are all positional, without transform
    and not arrays, the query values are the names of the parameters. *)
Lemma positional_names_queryValues {W} (types : TypeClient W)
    (stmt : StatementDescription) (encodeArray onConnection : bool) :
  Forall (fun param => matches_dollar_digits (name param) = true)
    (params stmt) ->
  Forall (fun param =>
            getTransform types (oid (type param)) = None
            /\ isArray types (oid (type param)) = false)
    (params stmt) ->
  queryValues types stmt (hasOnlyPositionalParams stmt) encodeArray
    onConnection
  = name <$> params stmt.
Proof.
  intros Hnames Hplain. unfold queryValues, hasOnlyPositionalParams.
  destruct (params stmt) as [| param rest] eqn:Hparams; [done |].
  cbn [isEmpty]. rewrite <- Hparams in *. clear Hparams.
  assert (Hall : forallb (fun param => matches_dollar_digits (name param))
                   (params stmt) = true).
  { apply forallb_forall. intros p Hp%list_elem_of_In.
    by apply (proj1 (Forall_forall _ _) Hnames). }
  rewrite Hall. apply list_fmap_ext. intros _ p Hp%list_elem_of_lookup_2.
  destruct (proj1 (Forall_forall _ _) Hplain p Hp) as [-> ->].
  by rewrite andb_false_r.
Qed.
End PlaceholderFacts.

(** X19. The statement the postgres generator emits, when the query values
    are such that no replacement touches a value that is in the statement
    already.  Read the SQL text as its dollars, each with the digits that
    follow it, and its other characters.  A dollar whose digits start with
    the number of a query value is replaced, together with the digits of
    the largest such number, by [${], the value and [}]; the digits left
    over stay behind it.  Every other dollar and every other character is
    emitted as it is. *)
Theorem substitutedSqlStatement_tokens (queryValues : list string)
    (sql : string) :
  Placeholder.untouched queryValues ->
  flatten (Placeholder.text <$> Placeholder.tokenize sql) = sql
  /\ substitutedSqlStatement queryValues sql
     = flatten
         (Placeholder.substituted queryValues <$> Placeholder.tokenize sql).
Proof.
  intros Hvalues. split; [apply tokenize_spec |].
  by apply reduceRight_replace_tokens.
Qed.

(** X19, witness: the statement of [SubstitutionExample]. *)
Lemma substitutedSqlStatement_tokens_witness :
  Placeholder.untouched SubstitutionExample.values
  /\ substitutedSqlStatement SubstitutionExample.values
       SubstitutionExample.statement
     = "SELECT * FROM person WHERE name = ${params.name} AND id = ${params.id}".
Proof.
  assert (Hvalues : Placeholder.untouched SubstitutionExample.values)
    by (apply no_dollar_untouched; repeat constructor).
  split; [exact Hvalues |].
  destruct (substitutedSqlStatement_tokens SubstitutionExample.values
              SubstitutionExample.statement Hvalues) as [_ ->].
  vm_compute. reflexivity.
Defined.

(** X20. Query values without a dollar, as the named parameters give them:
    a placeholder [$n] for one of the values, followed by something that is
    not a digit, becomes [${], the [n]-th value and [}], whatever the number
    of values.  The larger numbers are replaced first, so replacing [$1]
    never eats the front of [$10].  What follows the placeholder is
    substituted on its own. *)
Theorem substitutedSqlStatement_placeholder (queryValues : list string)
    (n : nat) (rest : string) :
  Forall (fun p => contains_char "$" p = false) queryValues ->
  (1 <= n <= length queryValues)%nat ->
  starts_with_digit rest = false ->
  substitutedSqlStatement queryValues ("$" +:+ pretty n +:+ rest)
  = "${" +:+ nth (n - 1) queryValues EmptyString +:+ "}"
    +:+ substitutedSqlStatement queryValues rest.
Proof.
  intros Hvalues%no_dollar_untouched Hn Hrest.
  rewrite !reduceRight_replace_tokens by done.
  by apply placeholder_substituted.
Qed.

(** X20, witness: the tenth of ten values. *)
Lemma substitutedSqlStatement_placeholder_witness :
  substitutedSqlStatement SubstitutionExample.ten_values
    ("$" +:+ pretty 10%nat +:+ ", $1")
  = "${" +:+ "j" +:+ "}"
    +:+ substitutedSqlStatement SubstitutionExample.ten_values ", $1".
Proof.
  apply (substitutedSqlStatement_placeholder SubstitutionExample.ten_values
           10 ", $1").
  - repeat constructor.
  - simpl. lia.
  - reflexivity.
Defined.

(** X21. With query values that no replacement touches once they are in
    the statement, the statement is substituted piece by piece: it may be
    cut in front of anything that is not a digit, and the result is the
    results for the two pieces, one behind the other. *)
Theorem substitutedSqlStatement_app (queryValues : list string)
    (sql1 sql2 : string) :
  Placeholder.untouched queryValues ->
  starts_with_digit sql2 = false ->
  substitutedSqlStatement queryValues (sql1 +:+ sql2)
  = substitutedSqlStatement queryValues sql1
    +:+ substitutedSqlStatement queryValues sql2.
Proof.
  intros Hvalues Hsql2. rewrite !reduceRight_replace_tokens by done.
  by rewrite tokenize_app, fmap_app, flatten_app.
Qed.

(** X21, witness: the statement of [SubstitutionExample], cut behind its
    first placeholder. *)
Lemma substitutedSqlStatement_app_witness :
  substitutedSqlStatement SubstitutionExample.values
    ("SELECT * FROM person WHERE name = $2" +:+ " AND id = $1")
  = substitutedSqlStatement SubstitutionExample.values
      "SELECT * FROM person WHERE name = $2"
    +:+ substitutedSqlStatement SubstitutionExample.values " AND id = $1".
Proof.
  apply (substitutedSqlStatement_app SubstitutionExample.values).
  - apply no_dollar_untouched. repeat constructor.
  - reflexivity.
Defined.

(** X22. A statement without a dollar is emitted as it is, whatever the
    query values are. *)
Theorem substitutedSqlStatement_no_dollar (queryValues : list string)
    (sql : string) :
  contains_char "$" sql = false ->
  substitutedSqlStatement queryValues sql = sql.
Proof.
  intros Hsql. unfold substitutedSqlStatement, reduceRight.
  assert (Hfrom : forall i,
             reduceRight_from
               (fun acc p i =>
                  JSReplace.replace_all ("$" +:+ pretty (i + 1)%nat)
                    ("${" +:+ p +:+ "}") acc)
               i queryValues sql = sql); [| apply Hfrom].
  induction queryValues as [| p values IH]; intros i; [done |].
  cbn [reduceRight_from]. rewrite IH. unfold JSReplace.replace_all.
  apply replace_go_absent. by apply occurs_no_dollar.
Qed.

(** X22, witness: a statement without parameters, and a value that would
    confuse the replacement if it were used. *)
Lemma substitutedSqlStatement_no_dollar_witness :
  substitutedSqlStatement ["$&"] "SELECT now()" = "SELECT now()".
Proof.
  apply (substitutedSqlStatement_no_dollar ["$&"] "SELECT now()").
  reflexivity.
Defined.

(** X24. Positional parameters, whose query values are their names [$1] to
    [$n]: up to nine of them, a placeholder [$k] followed by something that
    is not a digit becomes [${$k}], and what follows it is substituted on
    its own. *)
Theorem substitutedSqlStatement_positional (n k : nat) (rest : string) :
  (n <= 9)%nat ->
  (1 <= k <= n)%nat ->
  starts_with_digit rest = false ->
  substitutedSqlStatement (Placeholder.positional n)
    ("$" +:+ pretty k +:+ rest)
  = "${$" +:+ pretty k +:+ "}"
    +:+ substitutedSqlStatement (Placeholder.positional n) rest.
Proof.
  intros Hn%positional_untouched Hk Hrest.
  rewrite !reduceRight_replace_tokens by done.
  rewrite placeholder_substituted by (by rewrite ?positional_length).
  by rewrite positional_nth.
Qed.

(** X24, witness: the second of three positional parameters. *)
Lemma substitutedSqlStatement_positional_witness :
  substitutedSqlStatement (Placeholder.positional 3)
    ("$" +:+ pretty 2%nat +:+ " + $3")
  = "${$" +:+ pretty 2%nat +:+ "}"
    +:+ substitutedSqlStatement (Placeholder.positional 3) " + $3".
Proof.
  apply (substitutedSqlStatement_positional 3 2 " + $3").
  - lia.
  - lia.
  - reflexivity.
Defined.

(** X25. With ten or more positional parameters the tenth placeholder is
    not emitted as [${$10}]: once [$10] has become [${$10}], the later
    replacement of [$1] finds [$1] inside it. *)
Theorem substitutedSqlStatement_tenth_positional (n : nat) :
  (10 <= n)%nat ->
  substitutedSqlStatement (Placeholder.positional n) "$10" = "${${$1}0}".
Proof.
  intros Hn. unfold substitutedSqlStatement, reduceRight.
  assert (Hsplit : Placeholder.positional n
                   = Placeholder.positional 10
                     ++ ((fun i => "$" +:+ pretty (S i))
                           <$> seq 10 (n - 10))).
  { unfold Placeholder.positional. rewrite <- fmap_app, <- seq_app.
    by replace (10 + (n - 10))%nat with n by lia. }
  rewrite Hsplit, reduceRight_from_app.
  assert (Hhigh : forall (l : list string) i,
             (10 <= i)%nat ->
             reduceRight_from
               (fun acc p i =>
                  JSReplace.replace_all ("$" +:+ pretty (i + 1)%nat)
                    ("${" +:+ p +:+ "}") acc)
               i l "$10" = "$10").
  { induction l as [| p l IH]; intros i Hi; [done |].
    cbn [reduceRight_from]. rewrite IH by lia.
    unfold JSReplace.replace_all. apply replace_go_absent.
    change (Placeholder.occurs ("$" +:+ pretty (i + 1)%nat) "$10")
      with (JSReplace.starts_with (pretty (i + 1)%nat) (pretty 10%nat)
            || Placeholder.occurs (String "$" (pretty (i + 1)%nat)) "10").
    rewrite starts_with_pretty by lia.
    by rewrite occurs_no_dollar. }
  rewrite Hhigh by (rewrite positional_length; lia).
  vm_compute. reflexivity.
Qed.

(** X25, witness: ten positional parameters. *)
Lemma substitutedSqlStatement_tenth_positional_witness :
  substitutedSqlStatement (Placeholder.positional 10) "$10" = "${${$1}0}".
Proof.
  apply (substitutedSqlStatement_tenth_positional 10). lia.
Defined.

(** X26. For a statement whose parameters are all positional, none of them
    with a transform or of an array type, the query values are the names
    of the parameters, as they are: nothing is put in front of them, also
    for the postgres target. *)
Theorem queryValues_positional {W} (types : TypeClient W)
    (stmt : StatementDescription) (encodeArray onConnection : bool) :
  Forall (fun param => matches_dollar_digits (name param) = true)
    (params stmt) ->
  Forall (fun param =>
            getTransform types (oid (type param)) = None
            /\ isArray types (oid (type param)) = false)
    (params stmt) ->
  hasOnlyPositionalParams stmt = true
  /\ queryValues types stmt (hasOnlyPositionalParams stmt) encodeArray
       onConnection
     = name <$> params stmt.
Proof.
  intros Hnames Hplain. split; [| by apply positional_names_queryValues].
  unfold hasOnlyPositionalParams. apply forallb_forall.
  intros p Hp%list_elem_of_In.
  by apply (proj1 (Forall_forall _ _) Hnames).
Qed.

(** X26, witness: the statement of [PositionalExample]. *)
Lemma queryValues_positional_witness :
  queryValues QueryValuesExample.types PositionalExample.stmt
    (hasOnlyPositionalParams PositionalExample.stmt) true true
  = Placeholder.positional 2.
Proof.
  refine (proj2 (queryValues_positional QueryValuesExample.types
                   PositionalExample.stmt true true _ _)).
  - repeat constructor.
  - repeat constructor.
Defined.
